(** * NFL calendar sync: the calendar reconciler and its orchestrator

    A shallow embedding of [backend/google_calendar_service.py]
    ([sync_games_to_calendar], [_create_event_from_game],
    [_build_calendar_service], [create_calendar]), of the part of
    [backend/user_management.py] and [backend/database.py] the sync routes
    use, and of the two sync routes of [backend/main.py].

    Python values are modelled as follows.
    - [str] is a list of Unicode code points ([pystr]).
    - A [dict] read with [d['k']] is a record of [option] fields: a missing
      key is [None] and reading it raises [KeyError].
    - [existing_events] and the credential dictionary are [gmap]s.
    - Exceptions are values of [exn]; code that can raise returns
      [exn + A], code that also talks to the calendar provider or to the
      user store lives in the state-and-exception monad [M]. *)

From Stdlib Require Import ZArith NArith String Ascii List Lia Sorted.
From stdpp Require Import base option list gmap strings pretty.

Local Open Scope Z_scope.
Local Open Scope list_scope.

(** ** Python strings *)

Module Py.

Definition pychar := N.
Definition pystr := list N.

(** A source-code literal. *)
Definition lit (s : string) : pystr :=
  map N_of_ascii (list_ascii_of_string s).

(** [c.isspace()], the characters removed by [str.strip()]. *)
Definition isspace (c : pychar) : bool :=
  ((9 <=? c) && (c <=? 13) || (28 <=? c) && (c <=? 32)
   || (c =? 133) || (c =? 160) || (c =? 5760)
   || (8192 <=? c) && (c <=? 8202)
   || (c =? 8232) || (c =? 8233) || (c =? 8239) || (c =? 8287)
   || (c =? 12288))%N.

(** [s.split(sep)] for a one-character separator. *)
Fixpoint split (sep : pychar) (s : pystr) : list pystr :=
  match s with
  | [] => [[]]
  | c :: rest =>
      if (c =? sep)%N then [] :: split sep rest
      else match split sep rest with
           | piece :: pieces => (c :: piece) :: pieces
           | [] => [[c]]
           end
  end.

(** [s.startswith(prefix)]. *)
Fixpoint startswith (s prefix : pystr) {struct prefix} : bool :=
  match prefix, s with
  | [], _ => true
  | p :: prefix', c :: s' => (c =? p)%N && startswith s' prefix'
  | _ :: _, [] => false
  end.

Fixpoint lstrip (s : pystr) : pystr :=
  match s with
  | [] => []
  | c :: rest => if isspace c then lstrip rest else s
  end.

Definition rstrip (s : pystr) : pystr := rev (lstrip (rev s)).

(** [s.strip()]. *)
Definition strip (s : pystr) : pystr := rstrip (lstrip s).

Definition newline : pychar := 10%N.
Definition colon : pychar := 58%N.

End Py.
Import Py.

(** ** Exceptions *)

Inductive exn :=
| KeyError (key : string)
| ValueError (msg : string)
| OverflowError
| HttpError (status : Z)
| HTTPException (status_code : Z) (detail : string).

Definition result (A : Type) : Type := exn + A.

Definition rbind {A B} (r : result A) (k : A -> result B) : result B :=
  match r with
  | inl e => inl e
  | inr a => k a
  end.

#[global] Instance result_ret : MRet result := fun A => inr.
#[global] Instance result_bind : MBind result := fun A B k r => rbind r k.

(** [d[key]] on a dictionary whose key may be missing. *)
Definition getitem {A} (key : string) (field : option A) : result A :=
  match field with
  | Some v => inr v
  | None => inl (KeyError key)
  end.

Definition succeeded {A} (r : result A) : bool :=
  match r with inr _ => true | inl _ => false end.

(** ** Game documents (the schema written by [_transform_game_data]) *)

Record Team := { name : option pystr }.

Record Teams := { away : option Team; home : option Team }.

(** [season] and [week] hold the text an f-string renders for them. *)
Record Game := {
  game_id : option pystr;
  season : option pystr;
  game_date : option pystr;
  game_time : option pystr;
  week : option pystr;
  teams : option Teams;
  participating_teams : list pystr
}.

(** ** Dates and times ([datetime]) *)

Record date := { year : Z; month : Z; day : Z }.
Record time := { hour : Z; minute : Z }.
Record datetime := { dt_date : date; dt_time : time }.

Definition is_leap (y : Z) : bool :=
  (y mod 4 =? 0) && (negb (y mod 100 =? 0) || (y mod 400 =? 0)).

Definition days_in_month (y m : Z) : Z :=
  if m =? 2 then (if is_leap y then 29 else 28)
  else if (m =? 4) || (m =? 6) || (m =? 9) || (m =? 11) then 30
  else 31.

Definition MAXYEAR : Z := 9999.

(** The day after [d]; [None] past [date.max]. *)
Definition next_day (d : date) : option date :=
  if day d <? days_in_month (year d) (month d)
  then Some {| year := year d; month := month d; day := day d + 1 |}
  else if month d <? 12
  then Some {| year := year d; month := month d + 1; day := 1 |}
  else if year d <? MAXYEAR
  then Some {| year := year d + 1; month := 1; day := 1 |}
  else None.

(** [datetime.combine(game_date, game_time)]. *)
Definition combine (d : date) (t : time) : datetime :=
  {| dt_date := d; dt_time := t |}.

(** [start_time + timedelta(hours=3)]. *)
Definition plus_3_hours (dt : datetime) : result datetime :=
  let t := dt_time dt in
  if hour t + 3 <? 24
  then inr {| dt_date := dt_date dt;
              dt_time := {| hour := hour t + 3; minute := minute t |} |}
  else match next_day (dt_date dt) with
       | Some d => inr {| dt_date := d;
                          dt_time := {| hour := hour t + 3 - 24;
                                        minute := minute t |} |}
       | None => inl OverflowError
       end.

Definition digit (n : Z) : pychar := Z.to_N (48 + n mod 10).

Definition pad2 (n : Z) : pystr := [digit (n / 10); digit n].

Definition pad4 (n : Z) : pystr :=
  [digit (n / 1000); digit (n / 100); digit (n / 10); digit n].

(** [dt.isoformat()] for a datetime with zero seconds and microseconds. *)
Definition isoformat (dt : datetime) : pystr :=
  pad4 (year (dt_date dt)) ++ lit "-" ++ pad2 (month (dt_date dt)) ++ lit "-"
  ++ pad2 (day (dt_date dt)) ++ lit "T" ++ pad2 (hour (dt_time dt)) ++ lit ":"
  ++ pad2 (minute (dt_time dt)) ++ lit ":00".

(** ** Calendar events (the provider's event resource) *)

Record EventTime := { dateTime : pystr; timeZone : pystr }.

Record Override := { method : pystr; minutes : Z }.

Record Reminders := { useDefault : bool; overrides : list Override }.

(** Only [description] is ever read back, and an event a user made by hand
    may lack it. *)
Record Event := {
  summary : pystr;
  location : pystr;
  description : option pystr;
  start : EventTime;
  end_ : EventTime;
  reminders : Reminders;
  colorId : pystr
}.

(** The attributes of [flow.credentials] the service reads. *)
Record FlowCredentials := {
  flow_token : pystr;
  flow_refresh_token : pystr;
  flow_token_uri : pystr;
  flow_client_id : pystr;
  flow_client_secret : pystr;
  flow_scopes : pystr
}.

(** ** What the code takes from outside the repository

    [datetime.strptime] with the two formats the transform uses, the
    provider's [timeMin] filter of [events().list], and the two OAuth steps
    of the callback route. *)

Class Externals := {
  (** [datetime.strptime(s, '%Y-%m-%d')], [None] for [ValueError]. *)
  strptime_date : pystr -> option date;
  (** [datetime.strptime(s, '%H:%M').time()], [None] for [ValueError]. *)
  strptime_time : pystr -> option time;
  (** Does the provider return this event for this [timeMin]? *)
  ends_after : pystr -> Event -> bool;
  (** The user id inside the OAuth [state] parameter, at the given
      [utcnow]; [None] when decoding raises or the state has expired. *)
  decode_state : pystr -> pystr -> option pystr;
  (** [flow.fetch_token(code=code)] followed by [flow.credentials]. *)
  fetch_token : pystr -> result FlowCredentials
}.

Definition strptime (parse : option date) : result date :=
  match parse with
  | Some d => inr d
  | None => inl (ValueError "time data does not match format")
  end.

Definition strptime_t (parse : option time) : result time :=
  match parse with
  | Some d => inr d
  | None => inl (ValueError "time data does not match format")
  end.

(** ** The Game -> Event transform *)

Section Transform.
Context `{Externals}.

(** [GoogleCalendarService._create_event_from_game]. *)
Definition _create_event_from_game (game : Game) : result Event :=
  date_text ← getitem "game_date" (game_date game);
  game_date ← strptime (strptime_date date_text);
  time_text ← getitem "game_time" (game_time game);
  game_time ← strptime_t (strptime_time time_text);
  let start_time := combine game_date game_time in
  end_time ← plus_3_hours start_time;
  teams ← getitem "teams" (teams game);
  away_team ← getitem "away" (away teams);
  away_name ← getitem "name" (name away_team);
  home_team ← getitem "home" (home teams);
  home_name ← getitem "name" (name home_team);
  week ← getitem "week" (week game);
  season ← getitem "season" (season game);
  game_id ← getitem "game_id" (game_id game);
  mret {|
    summary := lit "NFL: " ++ away_name ++ lit " vs " ++ home_name;
    location := home_name ++ lit " Stadium";
    description := Some (
      (lit "Week " ++ week ++ lit " NFL Game" ++ [newline])
      ++ (away_name ++ lit " at " ++ home_name ++ [newline; newline])
      ++ (lit "Season: " ++ season ++ [newline])
      ++ (lit "Game ID: " ++ game_id));
    start := {| dateTime := isoformat start_time;
                timeZone := lit "America/New_York" |};
    end_ := {| dateTime := isoformat end_time;
               timeZone := lit "America/New_York" |};
    reminders := {|
      useDefault := false;
      overrides := [ {| method := lit "popup"; minutes := 60 |};
                     {| method := lit "email"; minutes := 1440 |} ] |};
    colorId := lit "2"
  |}.

End Transform.

(** ** Reading the tag back (the indexing loop of [sync_games_to_calendar]) *)

Definition TAG : pystr := lit "Game ID:".

(** [line.split(':')[1].strip()]; a line that starts with [TAG] has a
    second piece. *)
Definition extract_game_id (line : pystr) : pystr :=
  match split colon line with
  | _ :: piece :: _ => strip piece
  | _ => []
  end.

(** The inner [for line in ...] loop with its [break]: the id on the first
    line that starts with [TAG]. *)
Fixpoint scan_lines (lines : list pystr) : option pystr :=
  match lines with
  | [] => None
  | line :: rest =>
      if startswith line TAG then Some (extract_game_id line)
      else scan_lines rest
  end.

Definition parse_description (text : pystr) : option pystr :=
  scan_lines (split newline text).

(** The tag an event carries, for the indexing loop. *)
Definition event_tag (event : Event) : option pystr :=
  match description event with
  | Some text => parse_description text
  | None => None
  end.

(** An event as the provider stores and lists it: the body under an [id]. *)
Record Resource := { id : pystr; body : Event }.

(** One turn of [for event in events_result.get('items', [])]. *)
Definition index_event (existing_events : gmap pystr pystr) (event : Resource)
  : gmap pystr pystr :=
  match event_tag (body event) with
  | Some game_id => <[game_id := id event]> existing_events
  | None => existing_events
  end.

Definition index_events (items : list Resource) : gmap pystr pystr :=
  foldl index_event ∅ items.


(** ** The state-and-exception monad

    A computation takes the outside world, leaves a new world and either
    raises or returns.  What a computation did to the world before it raised
    stays done: [try_except] hands the handler the world the body left. *)

Definition M (S A : Type) : Type := S -> S * result A.

Definition ret {S A} (a : A) : M S A := fun s => (s, inr a).

Definition raise {S A} (e : exn) : M S A := fun s => (s, inl e).

Definition bind {S A B} (m : M S A) (k : A -> M S B) : M S B :=
  fun s => match m s with
           | (s', inr a) => k a s'
           | (s', inl e) => (s', inl e)
           end.

(** [try: body / except Exception as e: handler]. *)
Definition try_except {S A} (body : M S A) (handler : exn -> M S A) : M S A :=
  fun s => match body s with
           | (s', inr a) => (s', inr a)
           | (s', inl e) => handler e s'
           end.

(** A pure step that may raise. *)
Definition lift {S A} (r : result A) : M S A := fun s => (s, r).

(** Run a computation of a component of the world inside the world. *)
Definition zoom {S T A} (get : T -> S) (set : S -> T -> T) (m : M S A) : M T A :=
  fun t => match m (get t) with (s', r) => (set s' t, r) end.

#[global] Instance M_ret {S} : MRet (M S) := fun A => @ret S A.
#[global] Instance M_bind {S} : MBind (M S) := fun A B k m => bind m k.

(** ** The calendar provider

    An in-memory stand-in for the third-party calendar API: the five
    requests the service makes, over calendars that persist from one request
    to the next.  [faults] scripts provider errors: each request consumes
    the head, and fails when it is [true]; an exhausted script means no
    further fault.  Every request is recorded in [calls], oldest first, with
    whether it succeeded. *)

Inductive Call :=
| ListEvents (calendarId timeMin : pystr)
| InsertEvent (calendarId : pystr) (body : Event)
| UpdateEvent (calendarId eventId : pystr) (body : Event)
| ListCalendars
| InsertCalendar (summary : pystr).

Record Provider := {
  calendars : gmap pystr (list Resource);
  calendar_list : list (pystr * pystr);
  faults : list bool;
  calls : list (Call * bool);
  clock : pystr
}.

Definition set_calendars (c : gmap pystr (list Resource)) (p : Provider) :=
  {| calendars := c; calendar_list := calendar_list p; faults := faults p;
     calls := calls p; clock := clock p |}.

Definition set_calendar_list (l : list (pystr * pystr)) (p : Provider) :=
  {| calendars := calendars p; calendar_list := l; faults := faults p;
     calls := calls p; clock := clock p |}.

Definition set_faults (f : list bool) (p : Provider) :=
  {| calendars := calendars p; calendar_list := calendar_list p; faults := f;
     calls := calls p; clock := clock p |}.

Definition set_calls (l : list (Call * bool)) (p : Provider) :=
  {| calendars := calendars p; calendar_list := calendar_list p;
     faults := faults p; calls := l; clock := clock p |}.

Definition set_clock (t : pystr) (p : Provider) :=
  {| calendars := calendars p; calendar_list := calendar_list p;
     faults := faults p; calls := calls p; clock := t |}.

(** [datetime.now().isoformat()]. *)
Definition now_isoformat : M Provider pystr := fun p => (p, inr (clock p)).

(** An id no listed resource has: longer than each of them. *)
Definition fresh_id (ids : list pystr) : pystr :=
  replicate (S (max_list (length <$> ids))) 101%N.

Definition insert_event (body : Event) (events : list Resource) : list Resource :=
  events ++ [ {| id := fresh_id (id <$> events); body := body |} ].

Definition update_event (eventId : pystr) (body : Event) (events : list Resource)
  : list Resource :=
  (fun r => if decide (id r = eventId) then {| id := id r; body := body |} else r)
    <$> events.

Definition has_event (eventId : pystr) (events : list Resource) : bool :=
  bool_decide (eventId ∈ id <$> events).

Definition NOT_FOUND : exn := HttpError 404.
Definition UNAVAILABLE : exn := HttpError 503.

(** One request: consume a fault flag, then fail or serve, and record the
    call with its outcome.  A failed request leaves the calendars alone. *)
Definition request {A} (c : Call) (serve : Provider -> result (Provider * A))
  : M Provider A :=
  fun p =>
    let p1 := set_faults (tail (faults p)) p in
    if head (faults p) is Some true
    then (set_calls (calls p1 ++ [(c, false)]) p1, inl UNAVAILABLE)
    else match serve p1 with
         | inr (p2, a) => (set_calls (calls p2 ++ [(c, true)]) p2, inr a)
         | inl e => (set_calls (calls p1 ++ [(c, false)]) p1, inl e)
         end.

Section ProviderRequests.
Context `{Externals}.

(** [service.events().list(calendarId=.., timeMin=..).execute()], reduced to
    its [items]. *)
Definition events_list (calendarId timeMin : pystr) : M Provider (list Resource) :=
  request (ListEvents calendarId timeMin) (fun p =>
    match calendars p !! calendarId with
    | None => inl NOT_FOUND
    | Some events =>
        inr (p, filter (fun r => ends_after timeMin (body r) = true) events)
    end).

(** [service.events().insert(calendarId=.., body=..).execute()]. *)
Definition events_insert (calendarId : pystr) (body : Event) : M Provider unit :=
  request (InsertEvent calendarId body) (fun p =>
    match calendars p !! calendarId with
    | None => inl NOT_FOUND
    | Some events =>
        inr (set_calendars
               (<[calendarId := insert_event body events]> (calendars p)) p, tt)
    end).

(** [service.events().update(calendarId=.., eventId=.., body=..).execute()]. *)
Definition events_update (calendarId eventId : pystr) (body : Event)
  : M Provider unit :=
  request (UpdateEvent calendarId eventId body) (fun p =>
    match calendars p !! calendarId with
    | None => inl NOT_FOUND
    | Some events =>
        if has_event eventId events
        then inr (set_calendars
                    (<[calendarId := update_event eventId body events]>
                       (calendars p)) p, tt)
        else inl NOT_FOUND
    end).

(** [service.calendarList().list().execute()], reduced to the id and the
    summary of each entry. *)
Definition calendarList_list : M Provider (list (pystr * pystr)) :=
  request ListCalendars (fun p => inr (p, calendar_list p)).

(** [service.calendars().insert(body=..).execute()['id']]. *)
Definition calendars_insert (summary : pystr) : M Provider pystr :=
  request (InsertCalendar summary) (fun p =>
    let new_id :=
      fresh_id ((fst <$> calendar_list p) ++ (fst <$> map_to_list (calendars p))) in
    inr (set_calendar_list (calendar_list p ++ [(new_id, summary)])
           (set_calendars (<[new_id := []]> (calendars p)) p), new_id)).

End ProviderRequests.

(** ** The calendar service ([GoogleCalendarService]) *)

(** Only the presence of its keys matters to the code below. *)
Definition CredentialsDict : Type := gmap string pystr.

Record Service := { service_credentials : CredentialsDict }.

Definition REQUIRED_KEYS : list string :=
  ["token"; "refresh_token"; "token_uri"; "client_id"; "client_secret"]%string.

(** [GoogleCalendarService._build_calendar_service]: the key check raises
    [ValueError], which the method logs and re-raises; [Credentials(..)]
    and [build(..)] are library calls, taken to return. *)
Definition _build_calendar_service (credentials_dict : CredentialsDict)
  : result Service :=
  if forallb (fun k => bool_decide (is_Some (credentials_dict !! k))) REQUIRED_KEYS
  then inr {| service_credentials := credentials_dict |}
  else inl (ValueError "Invalid credentials dictionary structure").

Section CalendarService.
Context `{Externals}.

(** [GoogleCalendarService.handle_oauth_callback]. *)
Definition handle_oauth_callback (code : pystr) : result CredentialsDict :=
  credentials ← fetch_token code;
  mret (list_to_map
          [ ("token", flow_token credentials);
            ("refresh_token", flow_refresh_token credentials);
            ("token_uri", flow_token_uri credentials);
            ("client_id", flow_client_id credentials);
            ("client_secret", flow_client_secret credentials);
            ("scopes", flow_scopes credentials) ]%string).

(** Lines 174-194: the listing and the indexing loop, inside their own
    [try]; the handler logs a warning and goes on with the index as it is,
    which is empty when the request itself raised. *)
Definition fetch_existing_events (calendar_id : pystr)
  : M Provider (gmap pystr pystr) :=
  try_except
    (now ← now_isoformat;
     items ← events_list calendar_id (now ++ lit "Z");
     mret (index_events items))
    (fun _ => mret ∅).

(** Lines 199-216: the body of the per-game [try], up to the request. *)
Definition sync_game (calendar_id : pystr) (existing_events : gmap pystr pystr)
    (game : Game) : M Provider unit :=
  event ← lift (_create_event_from_game game);
  game_id ← lift (getitem "game_id" (game_id game));
  match existing_events !! game_id with
  | Some event_id => events_update calendar_id event_id event
  | None => events_insert calendar_id event
  end.

(** Lines 197-222: [for game in games], with [except Exception: continue]. *)
Fixpoint sync_each (calendar_id : pystr) (existing_events : gmap pystr pystr)
    (games : list Game) (synced_count : nat) : M Provider nat :=
  match games with
  | [] => mret synced_count
  | game :: rest =>
      synced_count ←
        try_except
          (sync_game calendar_id existing_events game;;
           mret (synced_count + 1)%nat)
          (fun _ => mret synced_count);
      sync_each calendar_id existing_events rest synced_count
  end.

(** [GoogleCalendarService.sync_games_to_calendar]. *)
Definition sync_games_to_calendar (credentials_dict : CredentialsDict)
    (calendar_id : pystr) (games : list Game) : M Provider nat :=
  try_except
    (service ← lift (_build_calendar_service credentials_dict);
     existing_events ← fetch_existing_events calendar_id;
     sync_each calendar_id existing_events games 0%nat)
    (fun e => raise e).

(** [GoogleCalendarService.create_calendar]. *)
Definition create_calendar (credentials_dict : CredentialsDict)
    (calendar_name : pystr) : M Provider pystr :=
  try_except
    (service ← lift (_build_calendar_service credentials_dict);
     calendar_list ← calendarList_list;
     match List.find (fun entry => bool_decide (snd entry = calendar_name))
             calendar_list with
     | Some entry => mret (fst entry)
     | None => calendars_insert calendar_name
     end)
    (fun e => raise e).

End CalendarService.

(** ** The stores ([UserManager], [NFLDatabase])

    The two collections are kept in memory and do not fail; user ids are
    taken to be well-formed [ObjectId]s. *)

Record LastSync := { timestamp : pystr; games_synced : nat }.

Record CalendarStatus := {
  is_connected : bool;
  status_calendar_id : option pystr;
  credentials : option CredentialsDict;
  last_sync : option LastSync
}.

(** A user document.  [create_user] writes [favorite_teams] and
    [calendar_status]; the two top-level calendar keys may be missing. *)
Record User := {
  favorite_teams : list pystr;
  calendar_status : CalendarStatus;
  google_credentials : option CredentialsDict;
  calendar_id : option pystr;
  updated_at : pystr
}.

Record World := {
  provider : Provider;
  users : gmap pystr User;
  games : list Game;
  utcnow : pystr
}.

Definition set_provider (p : Provider) (w : World) : World :=
  {| provider := p; users := users w; games := games w; utcnow := utcnow w |}.

Definition set_users (u : gmap pystr User) (w : World) : World :=
  {| provider := provider w; users := u; games := games w; utcnow := utcnow w |}.

(** [users.update_one({"_id": ..}, {"$set": ..})] and the
    [modified_count > 0] the methods return: the clock has moved since the
    document was last written, so a matched document is a modified one. *)
Definition update_one (user_id : pystr) (set : pystr -> User -> User)
  : M World bool :=
  fun w => match users w !! user_id with
           | Some u => (set_users (<[user_id := set (utcnow w) u]> (users w)) w,
                        inr true)
           | None => (w, inr false)
           end.

(** [UserManager.get_user]. *)
Definition get_user (user_id : pystr) : M World (option User) :=
  fun w => (w, inr (users w !! user_id)).

(** [UserManager.get_user_teams]. *)
Definition get_user_teams (user_id : pystr) : M World (list pystr) :=
  fun w => (w, inr (match users w !! user_id with
                    | Some u => favorite_teams u
                    | None => []
                    end)).

(** The [$set] document of [update_calendar_status], applied to [u]. *)
Definition calendar_status_update (new_calendar_id : pystr)
    (new_credentials : CredentialsDict) (now : pystr) (u : User) : User :=
  {| favorite_teams := favorite_teams u;
     calendar_status := {| is_connected := true;
                           status_calendar_id := Some new_calendar_id;
                           credentials := Some new_credentials;
                           last_sync := None |};
     google_credentials := google_credentials u;
     calendar_id := calendar_id u;
     updated_at := now |}.

(** [UserManager.update_calendar_status]. *)
Definition update_calendar_status (user_id new_calendar_id : pystr)
    (new_credentials : CredentialsDict) : M World bool :=
  update_one user_id (calendar_status_update new_calendar_id new_credentials).

(** The [$set] document of [update_last_sync], applied to [u]. *)
Definition last_sync_update (sync_count : nat) (now : pystr) (u : User) : User :=
  {| favorite_teams := favorite_teams u;
     calendar_status :=
       {| is_connected := is_connected (calendar_status u);
          status_calendar_id := status_calendar_id (calendar_status u);
          credentials := credentials (calendar_status u);
          last_sync := Some {| timestamp := now;
                               games_synced := sync_count |} |};
     google_credentials := google_credentials u;
     calendar_id := calendar_id u;
     updated_at := now |}.

(** [UserManager.update_last_sync]. *)
Definition update_last_sync (user_id : pystr) (sync_count : nat) : M World bool :=
  update_one user_id (last_sync_update sync_count).

(** The games one of the teams takes part in. *)
Definition games_of_teams (team_id : list pystr) (games : list Game) : list Game :=
  filter (fun g => Exists (fun t => t ∈ team_id) (participating_teams g)) games.

(** [NFLDatabase.find_games_by_team_id] with a list of team ids and no date
    filter. *)
Definition find_games_by_team_id (team_id : list pystr) : M World (list Game) :=
  fun w => (w, inr (games_of_teams team_id (games w))).

(** ** The sync routes ([main.py]) *)

Inductive Response :=
| CalendarSyncResponse (calendar_id : pystr) (synced_games_count : nat)
    (message : pystr)
| RedirectResponse (url : string).

Definition is_HTTPException (e : exn) : bool :=
  match e with HTTPException _ _ => true | _ => false end.

Section Routes.
Context `{Externals}.

Definition on_provider {A} (m : M Provider A) : M World A :=
  zoom provider set_provider m.

(** [POST /calendar/sync]. *)
Definition sync_calendar (current_user : pystr) : M World Response :=
  try_except
    (user_data ← get_user current_user;
     match user_data with
     | Some user_data =>
         if google_credentials user_data is None
         then raise (HTTPException 400 "Google Calendar not connected")
         else
           teams_to_sync ← get_user_teams current_user;
           if teams_to_sync is [] then
             raise (HTTPException 400 "No teams selected for syncing")
           else
             games ← find_games_by_team_id teams_to_sync;
             if games is [] then
               mret (CalendarSyncResponse
                       (default [] (calendar_id user_data)) 0
                       (lit "No games found for selected teams"))
             else
               credentials ←
                 lift (getitem "google_credentials" (google_credentials user_data));
               calendar ← lift (getitem "calendar_id" (calendar_id user_data));
               synced_count ←
                 on_provider (sync_games_to_calendar credentials calendar games);
               update_last_sync current_user synced_count;;
               mret (CalendarSyncResponse calendar synced_count
                       (lit "Successfully synced " ++ lit (pretty synced_count)
                        ++ lit " games to calendar"))
     | None => raise (HTTPException 400 "Google Calendar not connected")
     end)
    (fun e => if is_HTTPException e then raise e
              else raise (HTTPException 500 "Failed to sync calendar")).

Definition SETUP_FAILED : Response :=
  RedirectResponse "http://localhost:5173/calendar?setup=failed".

Definition SETUP_SUCCESS : Response :=
  RedirectResponse "http://localhost:5173/calendar?setup=success".

(** [GET /calendar/callback]. *)
Definition handle_calendar_callback (code state : pystr) : M World Response :=
  try_except
    (now ← (fun w => (w, inr (utcnow w)));
     match decode_state now state with
     | None => mret SETUP_FAILED
     | Some user_id =>
         credentials ← lift (handle_oauth_callback code);
         calendar_id ←
           on_provider (create_calendar credentials (lit "NFL Game Schedule"));
         setup_response ← update_calendar_status user_id calendar_id credentials;
         if setup_response : bool then
           user_teams ← get_user_teams user_id;
           (if user_teams is [] then mret tt
            else
              games ← find_games_by_team_id user_teams;
              synced_count ←
                on_provider (sync_games_to_calendar credentials calendar_id games);
              update_last_sync user_id synced_count;;
              mret tt);;
           mret SETUP_SUCCESS
         else mret SETUP_FAILED
     end)
    (fun _ => mret SETUP_FAILED).

End Routes.

(** ** Sample data for the concrete runs below *)

Module Sample.

Definition digit_value (c : pychar) : option Z :=
  if ((48 <=? c) && (c <=? 57))%N then Some (Z.of_N c - 48) else None.

Fixpoint number (acc : Z) (s : pystr) : option Z :=
  match s with
  | [] => Some acc
  | c :: rest => match digit_value c with
                 | Some d => number (10 * acc + d) rest
                 | None => None
                 end
  end.

(** The zero-padded ASCII form [YYYY-MM-DD], the one the data-sync
    collaborator stores. *)
Definition parse_date (s : pystr) : option date :=
  match s with
  | [y1; y2; y3; y4; 45%N; m1; m2; 45%N; d1; d2] =>
      match number 0 [y1; y2; y3; y4], number 0 [m1; m2], number 0 [d1; d2] with
      | Some y, Some m, Some d =>
          if (1 <=? y) && (1 <=? m) && (m <=? 12) && (1 <=? d)
             && (d <=? days_in_month y m)
          then Some {| year := y; month := m; day := d |}
          else None
      | _, _, _ => None
      end
  | _ => None
  end.

(** The zero-padded ASCII form [HH:MM]. *)
Definition parse_time (s : pystr) : option time :=
  match s with
  | [h1; h2; 58%N; m1; m2] =>
      match number 0 [h1; h2], number 0 [m1; m2] with
      | Some h, Some m =>
          if (h <? 24) && (m <? 60) then Some {| hour := h; minute := m |}
          else None
      | _, _ => None
      end
  | _ => None
  end.

Fixpoint lexicographic_lt (a b : pystr) : bool :=
  match a, b with
  | _, [] => false
  | [], _ :: _ => true
  | x :: a', y :: b' => (x <? y)%N || ((x =? y)%N && lexicographic_lt a' b')
  end.

(** The provider keeps the events that end after [timeMin]. *)
Definition event_ends_after (timeMin : pystr) (event : Event) : bool :=
  lexicographic_lt timeMin (dateTime (end_ event)).

Definition credentials_dict : CredentialsDict :=
  list_to_map [("token", lit "t"); ("refresh_token", lit "r");
               ("token_uri", lit "u"); ("client_id", lit "i");
               ("client_secret", lit "s")]%string.

Definition flow_credentials : FlowCredentials := {|
  flow_token := lit "t"; flow_refresh_token := lit "r";
  flow_token_uri := lit "u"; flow_client_id := lit "i";
  flow_client_secret := lit "s"; flow_scopes := lit "calendar"
|}.

#[export] Instance externals : Externals := {|
  strptime_date := parse_date;
  strptime_time := parse_time;
  ends_after := event_ends_after;
  decode_state := fun _ state => Some state;
  fetch_token := fun _ => inr flow_credentials
|}.

Definition team (n : string) : Team := {| name := Some (lit n) |}.

(** The game of [test_google_cal.py], at a later date and under a chosen id. *)
Definition game (gid week_ date_ : string) : Game := {|
  game_id := Some (lit gid);
  season := Some (lit "2031");
  game_date := Some (lit date_);
  game_time := Some (lit "20:00");
  week := Some (lit week_);
  teams := Some {| away := Some (team "Las Vegas Raiders");
                   home := Some (team "Kansas City Chiefs") |};
  participating_teams := [lit "1"; lit "18"]
|}.

Definition cal : pystr := lit "nfl".

(** A provider with the one calendar [cal], holding [events]. *)
Definition provider_with (events : list Resource) (script : list bool) : Provider := {|
  calendars := {[ cal := events ]};
  calendar_list := [(cal, lit "NFL Game Schedule")];
  faults := script;
  calls := [];
  clock := lit "2030-01-01T00:00:00"
|}.

Definition g1 : Game := game "G1" "1" "2031-09-08".
Definition g1_rescheduled : Game := game "G1" "1" "2031-09-09".
(** [g1] played before the sample clock. *)
Definition g1_past : Game := game "G1" "1" "2029-09-08".
Definition g2 : Game := game "G2" "2" "2031-09-15".
Definition g3 : Game := game "G3" "3" "2031-09-22".

(** An id with a leading space. *)
Definition g_spaced : Game := game " G1" "1" "2031-09-08".

(** An id with a colon in it. *)
Definition g_colon : Game := game "2031:W1" "1" "2031-09-08".

(** [g1] without its [week] key. *)
Definition g_weekless : Game := {|
  game_id := game_id g1; season := season g1; game_date := game_date g1;
  game_time := game_time g1; week := None; teams := teams g1;
  participating_teams := participating_teams g1
|}.

(** A game that kicks off at 22:00 on the last day of year 9999. *)
Definition g_last_day : Game := {|
  game_id := game_id g1; season := season g1;
  game_date := Some (lit "9999-12-31"); game_time := Some (lit "22:00");
  week := week g1; teams := teams g1;
  participating_teams := participating_teams g1
|}.

Definition blank_event : Event := {|
  summary := []; location := []; description := None;
  start := {| dateTime := []; timeZone := [] |};
  end_ := {| dateTime := []; timeZone := [] |};
  reminders := {| useDefault := true; overrides := [] |};
  colorId := []
|}.

(** The event of a game the transform accepts. *)
Definition event_of (g : Game) : Event :=
  match _create_event_from_game g with
  | inr event => event
  | inl _ => blank_event
  end.

(** Two events that both carry the tag of [G1]. *)
Definition duplicated : list Resource :=
  [ {| id := lit "a"; body := event_of g1 |};
    {| id := lit "b"; body := event_of g1_rescheduled |} ].

Definition user_id : pystr := lit "65f0c0ffee".

Definition status : CalendarStatus := {|
  is_connected := true; status_calendar_id := Some cal;
  credentials := Some credentials_dict;
  last_sync := Some {| timestamp := lit "2029-12-24T00:00:00";
                       games_synced := 5 |}
|}.

(** A user whose stored credentials lack every required key. *)
Definition user_with_broken_credentials : User := {|
  favorite_teams := [lit "18"];
  calendar_status := status;
  google_credentials := Some ∅;
  calendar_id := Some cal;
  updated_at := lit "2029-12-24T00:00:00"
|}.

Definition user : User := {|
  favorite_teams := [lit "18"];
  calendar_status := status;
  google_credentials := Some credentials_dict;
  calendar_id := Some cal;
  updated_at := lit "2029-12-24T00:00:00"
|}.

Definition world_of (u : User) (script : list bool) : World := {|
  provider := provider_with [] script;
  users := {[ user_id := u ]};
  games := [g1; g2];
  utcnow := lit "2030-01-01T05:00:00"
|}.

End Sample.

(** Peel the outermost step of a successful [_create_event_from_game]. *)
Ltac transform_step Hrun :=
  lazymatch type of Hrun with
  | rbind (getitem _ ?field) _ = _ =>
      destruct field eqn:?; cbn [rbind getitem] in Hrun; [|discriminate Hrun]
  | rbind (strptime ?parse) _ = _ =>
      destruct parse eqn:?; cbn [rbind strptime] in Hrun; [|discriminate Hrun]
  | rbind (strptime_t ?parse) _ = _ =>
      destruct parse eqn:?; cbn [rbind strptime_t] in Hrun; [|discriminate Hrun]
  | rbind (plus_3_hours ?dt) _ = _ =>
      destruct (plus_3_hours dt) eqn:?; cbn [rbind] in Hrun; [discriminate Hrun|]
  end.

(** ** Vocabulary of the properties *)

(** An id the tag line gives back unchanged: [split(':')[1]] keeps what
    stands before a second colon, the line ends at a line break, and
    [strip()] removes surrounding white space. *)
Definition clean_id (gid : pystr) : Prop :=
  (colon ∉ gid) ∧ (newline ∉ gid) ∧ strip gid = gid.

(** No line of [text] above its last one starts with [TAG]. *)
Definition tag_on_last_line_only (text : pystr) : Prop :=
  scan_lines (removelast (split newline text)) = None.

Section TransformVocabulary.
Context `{Externals}.

Definition date_parses (g : Game) : Prop :=
  ∃ text d, game_date g = Some text ∧ strptime_date text = Some d.

Definition time_parses (g : Game) : Prop :=
  ∃ text t, game_time g = Some text ∧ strptime_time text = Some t.

Definition team_names_present (g : Game) : Prop :=
  ∃ t a h an hn, teams g = Some t ∧ away t = Some a ∧ home t = Some h
                 ∧ name a = Some an ∧ name h = Some hn.

(** The kick-off is at least three hours before the end of year 9999. *)
Definition end_time_in_range (g : Game) : Prop :=
  ∀ dtext ttext d t,
    game_date g = Some dtext → strptime_date dtext = Some d →
    game_time g = Some ttext → strptime_time ttext = Some t →
    succeeded (plus_3_hours (combine d t)) = true.

Definition labels_present (g : Game) : Prop :=
  is_Some (week g) ∧ is_Some (season g) ∧ is_Some (game_id g).

(** The request [sync_game] makes for [game], if it gets that far. *)
Definition planned_call (calendar_id : pystr) (existing_events : gmap pystr pystr)
    (game : Game) : option Call :=
  match _create_event_from_game game, game_id game with
  | inr event, Some gid =>
      Some (match existing_events !! gid with
            | Some event_id => UpdateEvent calendar_id event_id event
            | None => InsertEvent calendar_id event
            end)
  | _, _ => None
  end.

End TransformVocabulary.

Definition is_insert (c : Call) : bool :=
  match c with InsertEvent _ _ => true | _ => false end.

Definition is_update (c : Call) : bool :=
  match c with UpdateEvent _ _ _ => true | _ => false end.

(** The events of one calendar that carry the tag of [gid]. *)
Definition events_for (gid : pystr) (events : list Resource) : list Resource :=
  filter (fun r => event_tag (body r) = Some gid) events.

(** At most one event per (calendar id, game id) pair. *)
Definition one_event_per_game (p : Provider) : Prop :=
  ∀ calendar_id events gid,
    calendars p !! calendar_id = Some events →
    (length (events_for gid events) ≤ 1)%nat.

(** Event ids are unique within each calendar. *)
Definition unique_ids (p : Provider) : Prop :=
  ∀ calendar_id events,
    calendars p !! calendar_id = Some events → NoDup (id <$> events).

(** The provider after a request [c] that did not touch the calendars. *)
Definition logged (c : Call) (ok : bool) (p : Provider) : Provider :=
  set_calls (calls p ++ [(c, ok)]) (set_faults (tail (faults p)) p).

(** Is the next request scripted to fail? *)
Definition faulty (p : Provider) : bool :=
  if head (faults p) is Some true then true else false.

(** The calendars a write request leaves when the provider serves it;
    [None] when the request fails. *)
Definition write_outcome (c : Call) (p : Provider)
  : option (gmap pystr (list Resource)) :=
  if faulty p then None else
    match c with
    | InsertEvent calendarId body =>
        events ← calendars p !! calendarId;
        Some (<[calendarId := insert_event body events]> (calendars p))
    | UpdateEvent calendarId eventId body =>
        events ← calendars p !! calendarId;
        if has_event eventId events
        then Some (<[calendarId := update_event eventId body events]> (calendars p))
        else None
    | _ => None
    end.

Definition apply_write (c : Call) (p : Provider) : Provider * bool :=
  match write_outcome c p with
  | Some new_calendars => (set_calendars new_calendars (logged c true p), true)
  | None => (logged c false p, false)
  end.

(** How many of the logged requests succeeded. *)
Definition successes (log : list (Call * bool)) : nat :=
  length (filter (fun entry => snd entry = true) log).

Definition failures (log : list (Call * bool)) : nat :=
  length (filter (fun entry => snd entry = false) log).

Section ListingVocabulary.
Context `{Externals}.

(** The [timeMin] of a run started on [p]. *)
Definition time_min (p : Provider) : pystr := clock p ++ lit "Z".

(** The items the listing of a run started on [p] returns; [None] when the
    request fails. *)
Definition listing (calendar_id : pystr) (p : Provider) : option (list Resource) :=
  if faulty p then None
  else filter (fun r => ends_after (time_min p) (body r) = true)
         <$> calendars p !! calendar_id.

(** The index a run started on [p] works with. *)
Definition existing_events (calendar_id : pystr) (p : Provider)
  : gmap pystr pystr :=
  match listing calendar_id p with
  | Some items => index_events items
  | None => ∅
  end.

Definition list_call (calendar_id : pystr) (p : Provider) : Call * bool :=
  (ListEvents calendar_id (time_min p), bool_decide (is_Some (listing calendar_id p))).

(** The requests the per-game loop plans, given the index. *)
Definition planned_calls (calendar_id : pystr) (index : gmap pystr pystr)
    (games : list Game) : list Call :=
  omap (planned_call calendar_id index) games.

End ListingVocabulary.

(** The game id a write request is about, read off the body it sends. *)
Definition call_game_id (c : Call) : option pystr :=
  match c with
  | InsertEvent _ body => event_tag body
  | UpdateEvent _ _ body => event_tag body
  | _ => None
  end.

Section RunVocabulary.
Context `{Externals}.

(** The tag of every transformed game parses back to its [game_id]. *)
Definition tags_round_trip (games : list Game) : Prop :=
  ∀ g event, g ∈ games → _create_event_from_game g = inr event →
             event_tag event = game_id g.

(** The listing of a run started on [p] returns every tagged event of the
    calendar: none has dropped out of the [timeMin] window. *)
Definition listing_complete (calendar_id : pystr) (p : Provider) : Prop :=
  ∀ events r, calendars p !! calendar_id = Some events → r ∈ events →
              is_Some (event_tag (body r)) →
              ends_after (time_min p) (body r) = true.

End RunVocabulary.

(** * The rest of the user store and of the routes *)

(** The entry [create_calendar] settles on when the calendar list holds one
    with the requested summary: the first. *)
Definition first_named (calendar_name : pystr) (entries : list (pystr * pystr))
  : option (pystr * pystr) :=
  List.find (fun entry => bool_decide (snd entry = calendar_name)) entries.

(** ** More of [UserManager] *)

(** The [$set] document of [update_favorite_teams], applied to [u]. *)
Definition favorite_teams_update (team_ids : list pystr) (now : pystr) (u : User)
  : User :=
  {| favorite_teams := team_ids;
     calendar_status := calendar_status u;
     google_credentials := google_credentials u;
     calendar_id := calendar_id u;
     updated_at := now |}.

(** [UserManager.update_favorite_teams]. *)
Definition update_favorite_teams (user_id : pystr) (team_ids : list pystr)
  : M World bool :=
  update_one user_id (favorite_teams_update team_ids).

(** The status of an account that is not linked: what [create_user] writes,
    what [revoke_calendar_access] writes, and what [get_calendar_status]
    reports for a user it does not find. *)
Definition NOT_CONNECTED : CalendarStatus :=
  {| is_connected := false; status_calendar_id := None; credentials := None;
     last_sync := None |}.

(** [UserManager.get_calendar_status]: the entries are read with [.get];
    for a user it does not find, the answer has no credentials entry, which
    reads as [None]. *)
Definition get_calendar_status (user_id : pystr) : M World CalendarStatus :=
  fun w => (w, inr (match users w !! user_id with
                    | Some user =>
                        {| is_connected := is_connected (calendar_status user);
                           status_calendar_id :=
                             status_calendar_id (calendar_status user);
                           credentials := credentials (calendar_status user);
                           last_sync := last_sync (calendar_status user) |}
                    | None => NOT_CONNECTED
                    end)).

(** The [$set] document of [revoke_calendar_access], applied to [u]. *)
Definition revoked (now : pystr) (u : User) : User :=
  {| favorite_teams := favorite_teams u;
     calendar_status := NOT_CONNECTED;
     google_credentials := google_credentials u;
     calendar_id := calendar_id u;
     updated_at := now |}.

(** [UserManager.revoke_calendar_access]. *)
Definition revoke_calendar_access (user_id : pystr) : M World bool :=
  update_one user_id revoked.

(** ** The team table ([NFLDataSync.TEAM_IDS]) *)

Definition TEAM_IDS : gmap pystr pystr :=
  list_to_map
    [ (lit "1", lit "Las Vegas Raiders");
      (lit "2", lit "Jacksonville Jaguars");
      (lit "3", lit "New England Patriots");
      (lit "4", lit "New York Giants");
      (lit "5", lit "Baltimore Ravens");
      (lit "6", lit "Tennessee Titans");
      (lit "7", lit "Detroit Lions");
      (lit "8", lit "Atlanta Falcons");
      (lit "9", lit "Cleveland Browns");
      (lit "10", lit "Cincinnati Bengals");
      (lit "11", lit "Arizona Cardinals");
      (lit "12", lit "Philadelphia Eagles");
      (lit "13", lit "New York Jets");
      (lit "14", lit "San Francisco 49ers");
      (lit "15", lit "Green Bay Packers");
      (lit "16", lit "Chicago Bears");
      (lit "17", lit "Kansas City Chiefs");
      (lit "18", lit "Washington Commanders");
      (lit "19", lit "Carolina Panthers");
      (lit "20", lit "Buffalo Bills");
      (lit "21", lit "Indianapolis Colts");
      (lit "22", lit "Pittsburgh Steelers");
      (lit "23", lit "Seattle Seahawks");
      (lit "24", lit "Tampa Bay Buccaneers");
      (lit "25", lit "Miami Dolphins");
      (lit "26", lit "Houston Texans");
      (lit "27", lit "New Orleans Saints");
      (lit "28", lit "Denver Broncos");
      (lit "29", lit "Dallas Cowboys");
      (lit "30", lit "Los Angeles Chargers");
      (lit "31", lit "Los Angeles Rams");
      (lit "32", lit "Minnesota Vikings") ].

(** [tid in NFLDataSync.TEAM_IDS]. *)
Definition is_team (tid : pystr) : bool := bool_decide (is_Some (TEAM_IDS !! tid)).

(** [NFLDataSync.TEAM_IDS[tid]].  The [KeyError] carries the id; every
    caller below replaces the exception, so the model does not keep it. *)
Definition team_name (tid : pystr) : result pystr :=
  getitem "team_id" (TEAM_IDS !! tid).

(** ** Sorting by a text key ([sorted(.., key=..)])

    Python compares [str] values code point by code point, and [sorted] is
    stable: of two entries with equal keys the one that came first stays
    first. *)

Fixpoint str_lt (a b : pystr) : bool :=
  match a, b with
  | _, [] => false
  | [], _ :: _ => true
  | x :: a', y :: b' => (x <? y)%N || ((x =? y)%N && str_lt a' b')
  end.

(** Insert [x], which came before every entry of [l], into the sorted
    [l]: behind the entries with a smaller key, ahead of the others. *)
Fixpoint insert_sorted {A} (x : pystr * A) (l : list (pystr * A))
  : list (pystr * A) :=
  match l with
  | [] => [x]
  | y :: rest => if str_lt (fst y) (fst x) then y :: insert_sorted x rest
                 else x :: y :: rest
  end.

Definition sort_by_key {A} (l : list (pystr * A)) : list (pystr * A) :=
  foldr insert_sorted [] l.

(** [sorted(games, key=lambda x: x["game_date"])]: the keys are computed
    first, one per game in order, and a game without the key raises. *)
Definition sorted_by_game_date (games : list Game) : result (list Game) :=
  keyed ← mapM (fun g => key ← getitem "game_date" (game_date g);
                         mret (key, g)) games;
  mret (snd <$> sort_by_key keyed).

(** ** More routes ([main.py]) *)

(** The text an f-string renders for a list of strings is Python's; only
    the list handed to it is modelled. *)
Class Rendering := {
  invalid_team_ids_detail : list pystr -> string
}.

(** The body of [GET /calendar/status]. *)
Record CalendarStatusReport := {
  report_is_connected : bool;
  report_last_sync : option LastSync;
  report_calendar_id : option pystr
}.

(** The two bodies of [GET /games/my-teams]. *)
Inductive MyTeamsGames :=
| NoFavoriteTeams (message : pystr) (listed_games : list Game)
| FavoriteTeamsGames (listed_teams : list (pystr * pystr)) (games_count : nat)
    (listed_games : list Game).

Module Main.

(** [GET /calendar/status]: the 404 is raised inside the [try] whose
    handler catches every exception. *)
Definition get_calendar_status (current_user : pystr)
  : M World CalendarStatusReport :=
  try_except
    (user ← get_user current_user;
     match user with
     | None => raise (HTTPException 404 "User not found")
     | Some user =>
         mret {| report_is_connected := is_connected (calendar_status user);
                 report_last_sync := last_sync (calendar_status user);
                 report_calendar_id := status_calendar_id (calendar_status user) |}
     end)
    (fun _ => raise (HTTPException 500 "Failed to fetch calendar status")).

(** [PUT /users/me/teams]; the answer is the message and the teams. *)
Definition update_user_teams `{Rendering} (team_ids : list pystr)
    (current_user : pystr) : M World (pystr * list pystr) :=
  try_except
    (if forallb is_team team_ids then
       success ← update_favorite_teams current_user team_ids;
       if success : bool
       then mret (lit "Teams updated successfully", team_ids)
       else raise (HTTPException 400 "Failed to update teams")
     else
       let invalid_teams := filter (fun tid => is_team tid = false) team_ids in
       raise (HTTPException 400 (invalid_team_ids_detail invalid_teams)))
    (fun e => if is_HTTPException e then raise e
              else raise (HTTPException 500 "Failed to update teams")).

(** [GET /games/my-teams]. *)
Definition get_my_teams_games (current_user : pystr) : M World MyTeamsGames :=
  try_except
    (teams ← get_user_teams current_user;
     if teams is [] then
       mret (NoFavoriteTeams (lit "No favorite teams selected") [])
     else
       games ← find_games_by_team_id teams;
       favorites ← lift (mapM (fun tid => name ← team_name tid;
                                          mret (tid, name)) teams);
       sorted_games ← lift (sorted_by_game_date games);
       mret (FavoriteTeamsGames favorites (length games) sorted_games))
    (fun _ => raise (HTTPException 500 "Failed to fetch games")).

End Main.

(** ** Vocabulary for the routes *)

(** Every stored favourite team is a key of the team table. *)
Definition valid_favorites (w : World) : Prop :=
  ∀ user_id u, users w !! user_id = Some u →
               Forall (fun tid => is_team tid = true) (favorite_teams u).

(** [a <= b] on text keys. *)
Definition str_le (a b : pystr) : Prop := str_lt b a = false.

(** The games of [l] played on [day], in the order of [l]. *)
Definition games_on (day : pystr) (l : list Game) : list Game :=
  filter (fun g => game_date g = Some day) l.

(** ** The schedule API ([NFLAPIService])

    A game as the API sends it; ids and the season hold the text [str()]
    renders, as in [Game]. *)

Record ApiTeam := { api_team_id : option pystr; api_team_name : option pystr }.

Record ApiTeams := { api_home : option ApiTeam; api_away : option ApiTeam }.

Record ApiDate := { api_date : option pystr; api_time : option pystr }.

Record ApiGameInfo := {
  api_id : option pystr;
  api_game_date : option ApiDate;
  api_week : option pystr
}.

Record ApiLeague := { api_season : option pystr }.

Record ApiGame := {
  api_game_info : option ApiGameInfo;
  api_league : option ApiLeague;
  api_teams : option ApiTeams
}.

(** [datetime.strptime(f"{game_date} {game_time}", "%Y-%m-%d %H:%M")],
    localized to Eastern time and converted to UTC: library code, which
    returns or raises.  The value is computed and then dropped. *)
Class ApiExternals := {
  to_utc : pystr -> pystr -> result unit
}.

Section ApiService.
Context `{ApiExternals}.

(** [NFLAPIService._transform_game_data]: the handler logs the [KeyError]
    and re-raises it; other exceptions pass through. *)
Definition _transform_game_data (api_game : ApiGame) : result Game :=
  teams_ ← getitem "teams" (api_teams api_game);
  home_ ← getitem "home" (api_home teams_);
  home_id ← getitem "id" (api_team_id home_);
  away_ ← getitem "away" (api_away teams_);
  away_id ← getitem "id" (api_team_id away_);
  game_ ← getitem "game" (api_game_info api_game);
  date_ ← getitem "date" (api_game_date game_);
  game_date ← getitem "date" (api_date date_);
  game_time ← getitem "time" (api_time date_);
  to_utc game_date game_time;;
  game_id ← getitem "id" (api_id game_);
  league_ ← getitem "league" (api_league api_game);
  season ← getitem "season" (api_season league_);
  week ← getitem "week" (api_week game_);
  home_name ← getitem "name" (api_team_name home_);
  away_name ← getitem "name" (api_team_name away_);
  mret {| game_id := Some game_id;
          season := Some season;
          game_date := Some game_date;
          game_time := Some game_time;
          week := Some week;
          teams := Some {| away := Some {| name := Some away_name |};
                           home := Some {| name := Some home_name |} |};
          participating_teams := [home_id; away_id] |}.

(** What [fetch_team_games] and [fetch_season_games] make of the outcome
    of the HTTP request: the request raised, or it was answered with a
    status and a JSON body whose ["response"] entry may be missing.  Any
    exception, one raised by a transform included, ends in the empty
    list. *)
Definition fetch_games (reply : result (Z * option (list ApiGame))) : list Game :=
  match reply with
  | inl _ => []
  | inr (status, response) =>
      if bool_decide (status = 200) then
        match response with
        | None | Some [] => []
        | Some api_games =>
            match mapM _transform_game_data api_games with
            | inr games => games
            | inl _ => []
            end
        end
      else []
  end.

End ApiService.

(** ** Storing games ([NFLDatabase.store_game], [NFLDataSync]) *)

(** The dictionary handed to [store_game]: any key may be missing. *)
Record GameData := {
  data_game_id : option pystr;
  data_season : option pystr;
  data_game_date : option pystr;
  data_game_time : option pystr;
  data_week : option pystr;
  data_teams : option Teams;
  data_participating_teams : option (list pystr)
}.

(** A game document as a dictionary. *)
Definition game_data_of (g : Game) : GameData :=
  {| data_game_id := game_id g; data_season := season g;
     data_game_date := game_date g; data_game_time := game_time g;
     data_week := week g; data_teams := teams g;
     data_participating_teams := Some (participating_teams g) |}.

(** [{"$set": game_data}] applied to the document [old]: the keys of
    [game_data] are written, the others stay. *)
Definition set_fields (game_data : GameData) (old : Game) : Game :=
  {| game_id := if data_game_id game_data is Some v then Some v else game_id old;
     season := if data_season game_data is Some v then Some v else season old;
     game_date :=
       if data_game_date game_data is Some v then Some v else game_date old;
     game_time :=
       if data_game_time game_data is Some v then Some v else game_time old;
     week := if data_week game_data is Some v then Some v else week old;
     teams := if data_teams game_data is Some v then Some v else teams old;
     participating_teams :=
       default (participating_teams old) (data_participating_teams game_data) |}.

(** The document an upsert starts from when nothing matches the filter
    [{"game_id": gid}]. *)
Definition new_document (gid : pystr) : Game :=
  {| game_id := Some gid; season := None; game_date := None; game_time := None;
     week := None; teams := None; participating_teams := [] |}.

(** [games.update_one({"game_id": gid}, {"$set": game_data}, upsert=True)]:
    the first document with that id is updated; without one, a document is
    added. *)
Fixpoint upsert (gid : pystr) (game_data : GameData) (docs : list Game)
  : list Game :=
  match docs with
  | [] => [set_fields game_data (new_document gid)]
  | doc :: rest =>
      if decide (game_id doc = Some gid) then set_fields game_data doc :: rest
      else doc :: upsert gid game_data rest
  end.

Definition set_games (g : list Game) (w : World) : World :=
  {| provider := provider w; users := users w; games := g; utcnow := utcnow w |}.

(** ['game_id', 'season', 'participating_teams', 'game_date'] are all in
    [game_data]. *)
Definition has_required_fields (game_data : GameData) : bool :=
  bool_decide (is_Some (data_game_id game_data))
  && bool_decide (is_Some (data_season game_data))
  && bool_decide (is_Some (data_participating_teams game_data))
  && bool_decide (is_Some (data_game_date game_data)).

(** [NFLDatabase.store_game].  The document gets a new [last_updated] with
    each call, so the update always counts as a modification. *)
Definition store_game (game_data : GameData) : M World bool :=
  if has_required_fields game_data then
    try_except
      (gid ← lift (getitem "game_id" (data_game_id game_data));
       ((fun w => (set_games (upsert gid game_data (games w)) w, inr true))
          : M World bool))
      (fun e => raise e)
  else
    raise (ValueError
      "Game data missing required fields: ['game_id', 'season', 'participating_teams', 'game_date']").

(** The loop [for game in games: await self.nfl_db.store_game(game)]. *)
Fixpoint store_each (fetched : list Game) : M World unit :=
  match fetched with
  | [] => mret tt
  | game :: rest => store_game (game_data_of game);; store_each rest
  end.

(** [NFLDataSync.sync_season_games], given what [fetch_season_games]
    returned. *)
Definition sync_season_games (fetched : list Game) : M World nat :=
  store_each fetched;;
  mret (length fetched).

(** ** Vocabulary for the failures of the transform *)

Section FailureVocabulary.
Context `{Externals}.

(** [start_time + timedelta(hours=3)] is still a datetime: the game kicks
    off before 21:00, or its day is not the last day of its month, or its
    month is not December, or its year is before 9999.  For a date of the
    calendar this excludes 21:00 and later on 9999-12-31, nothing else. *)
Definition kickoff_leaves_three_hours (g : Game) : Prop :=
  ∀ dtext ttext d t,
    game_date g = Some dtext → strptime_date dtext = Some d →
    game_time g = Some ttext → strptime_time ttext = Some t →
    hour t + 3 < 24 ∨ day d < days_in_month (year d) (month d)
    ∨ month d < 12 ∨ year d < 9999.

End FailureVocabulary.

(** ** More sample data *)

Module Fixtures.
Import Sample.

(** An event without a tag, as a user would add by hand. *)
Definition untagged : Resource := {| id := lit "u"; body := blank_event |}.

(** A provider without any calendar. *)
Definition bare_provider (script : list bool) : Provider := {|
  calendars := ∅; calendar_list := []; faults := script; calls := [];
  clock := lit "2030-01-01T00:00:00"
|}.

(** A registered user who picked a team and never linked a calendar. *)
Definition new_user : User := {|
  favorite_teams := [lit "18"];
  calendar_status := NOT_CONNECTED;
  google_credentials := None;
  calendar_id := None;
  updated_at := lit "2029-12-24T00:00:00"
|}.

Definition world_with (u : User) (p : Provider) : World := {|
  provider := p;
  users := {[ user_id := u ]};
  games := [g2; g1];
  utcnow := lit "2030-01-01T05:00:00"
|}.

#[export] Instance rendering : Rendering := {|
  invalid_team_ids_detail := fun _ => "Invalid team IDs provided"
|}.

#[export] Instance api_externals : ApiExternals := {|
  to_utc := fun _ _ => inr tt
|}.

Definition api_team (team_id team_name_ : string) : ApiTeam :=
  {| api_team_id := Some (lit team_id); api_team_name := Some (lit team_name_) |}.

(** A game as the schedule API sends it. *)
Definition api_game (gid : string) : ApiGame := {|
  api_game_info := Some {| api_id := Some (lit gid);
                           api_game_date :=
                             Some {| api_date := Some (lit "2031-09-08");
                                     api_time := Some (lit "20:00") |};
                           api_week := Some (lit "Week 1") |};
  api_league := Some {| api_season := Some (lit "2031") |};
  api_teams := Some {| api_home := Some (api_team "17" "Kansas City Chiefs");
                       api_away := Some (api_team "1" "Las Vegas Raiders") |}
|}.

(** The same game without its week. *)
Definition api_game_without_week : ApiGame := {|
  api_game_info := Some {| api_id := Some (lit "7");
                           api_game_date :=
                             Some {| api_date := Some (lit "2031-09-08");
                                     api_time := Some (lit "20:00") |};
                           api_week := None |};
  api_league := api_league (api_game "7");
  api_teams := api_teams (api_game "7")
|}.

End Fixtures.
(** * Properties *)

(** ** Strings *)

Lemma split_nonempty sep s : split sep s ≠ [].
Proof.
  destruct s as [|c rest]; simpl; [done|].
  destruct (c =? sep)%N; [done|]. by destruct (split sep rest).
Qed.

(** Splitting distributes over a separator. *)
Lemma split_app_sep sep a b :
  split sep (a ++ sep :: b) = split sep a ++ split sep b.
Proof.
  induction a as [|c a IH]; simpl.
  - by rewrite N.eqb_refl.
  - destruct (c =? sep)%N; [by rewrite IH|].
    rewrite IH. pose proof (split_nonempty sep a) as Hne.
    by destruct (split sep a).
Qed.

Lemma split_without_sep sep s : sep ∉ s → split sep s = [s].
Proof.
  induction s as [|c s IH]; intros Hnot; simpl; [done|].
  apply not_elem_of_cons in Hnot as [Hc Hs].
  destruct (N.eqb_spec c sep); [congruence|]. by rewrite IH.
Qed.

Lemma startswith_app prefix s : startswith (prefix ++ s) prefix = true.
Proof.
  induction prefix as [|p prefix IH]; simpl; [done|].
  rewrite N.eqb_refl. exact IH.
Qed.

Lemma strip_leading_space c s : isspace c = true → strip (c :: s) = strip s.
Proof. intros Hc. unfold strip. simpl. by rewrite Hc. Qed.

Lemma scan_lines_app above below :
  scan_lines (above ++ below) =
  match scan_lines above with Some gid => Some gid | None => scan_lines below end.
Proof.
  induction above as [|line above IH]; cbn [scan_lines app]; [done|].
  by destruct (startswith line TAG).
Qed.

Lemma removelast_snoc {A} (l : list A) x : removelast (l ++ [x]) = l.
Proof. by rewrite removelast_app, app_nil_r. Qed.

(** The tag line gives a clean id back. *)
Lemma extract_tag_line gid :
  clean_id gid → extract_game_id (lit "Game ID: " ++ gid) = gid.
Proof.
  intros (Hcolon & _ & Hstrip). unfold extract_game_id.
  change (lit "Game ID: " ++ gid) with (lit "Game ID" ++ colon :: 32%N :: gid).
  rewrite split_app_sep.
  rewrite (split_without_sep colon (32%N :: gid))
    by (apply not_elem_of_cons; split; [done|exact Hcolon]).
  simpl. by rewrite strip_leading_space.
Qed.

(** A description whose last line is the tag line of a clean id parses back
    to that id. *)
Lemma parse_tagged_text above gid :
  clean_id gid →
  tag_on_last_line_only (above ++ newline :: lit "Game ID: " ++ gid) →
  parse_description (above ++ newline :: lit "Game ID: " ++ gid) = Some gid.
Proof.
  intros Hclean. unfold tag_on_last_line_only, parse_description.
  rewrite split_app_sep.
  assert (Hline : split newline (lit "Game ID: " ++ gid) = [lit "Game ID: " ++ gid]).
  { apply split_without_sep. destruct Hclean as (_ & Hnl & _).
    intros Hin. apply elem_of_app in Hin as [Hin|Hin]; [|done].
    vm_compute in Hin. repeat (apply elem_of_cons in Hin as [Hin|Hin]; [discriminate|]).
    by apply elem_of_nil in Hin. }
  rewrite Hline, removelast_snoc. intros Habove.
  rewrite scan_lines_app, Habove. cbn [scan_lines].
  change (lit "Game ID: " ++ gid) with (TAG ++ 32%N :: gid) at 1.
  rewrite startswith_app. by rewrite extract_tag_line.
Qed.

Lemma description_shape wk an hn sn gid :
  (lit "Week " ++ wk ++ lit " NFL Game" ++ [newline])
  ++ (an ++ lit " at " ++ hn ++ [newline; newline])
  ++ (lit "Season: " ++ sn ++ [newline])
  ++ (lit "Game ID: " ++ gid)
  = ((lit "Week " ++ wk ++ lit " NFL Game" ++ [newline])
     ++ (an ++ lit " at " ++ hn ++ [newline; newline])
     ++ lit "Season: " ++ sn)
    ++ newline :: lit "Game ID: " ++ gid.
Proof. rewrite <- !app_assoc. reflexivity. Qed.

Section TagRoundTrip.
Context `{Externals}.

(** What a successful transform returns as [description]. *)
Lemma transform_description g event :
  _create_event_from_game g = inr event →
  ∃ wk an hn sn gid,
    week g = Some wk ∧ season g = Some sn ∧ game_id g = Some gid ∧
    description event = Some (
      (lit "Week " ++ wk ++ lit " NFL Game" ++ [newline])
      ++ (an ++ lit " at " ++ hn ++ [newline; newline])
      ++ (lit "Season: " ++ sn ++ [newline])
      ++ (lit "Game ID: " ++ gid)).
Proof.
  unfold _create_event_from_game, mbind, result_bind, mret, result_ret.
  intros Hrun.
  repeat transform_step Hrun.
  injection Hrun as <-. cbn [description].
  eexists _, _, _, _, _. split_and!; reflexivity.
Qed.

(** C6 (amended). Tag round-trip: for every game the transform accepts
    whose [game_id] is clean (no colon, no line break, no surrounding white
    space) and whose description has no line above the last that starts
    with [Game ID:], parsing the description of the transformed event gives
    back exactly the [game_id] of the game. *)
Theorem tag_round_trip g event gid text :
  _create_event_from_game g = inr event →
  game_id g = Some gid →
  description event = Some text →
  clean_id gid →
  tag_on_last_line_only text →
  parse_description text = Some gid ∧ event_tag event = Some gid.
Proof.
  intros Hrun Hgid Htext Hclean Honly.
  destruct (transform_description _ _ Hrun)
    as (wk & an & hn & sn & gid' & _ & _ & Hgid' & Hdescr).
  assert (gid' = gid) as -> by congruence.
  rewrite Hdescr in Htext. apply (inj Some) in Htext. subst text.
  rewrite description_shape in Honly |- *.
  assert (Hparse := parse_tagged_text _ gid Hclean Honly).
  split; [done|]. unfold event_tag.
  by rewrite Hdescr, description_shape.
Qed.

End TagRoundTrip.

(** ** What a parsed id looks like *)

Lemma lstrip_suffix s : ∃ spaces, s = spaces ++ lstrip s.
Proof.
  induction s as [|c s [spaces IH]]; [by exists []|]. cbn [lstrip].
  destruct (isspace c); [|by exists []].
  exists (c :: spaces). by rewrite <- app_comm_cons, <- IH.
Qed.

Lemma lstrip_head s c rest : lstrip s = c :: rest → isspace c = false.
Proof.
  induction s as [|a s IH]; [done|]. cbn [lstrip].
  destruct (isspace a) eqn:Ha; [exact IH|]. by intros [= <- _].
Qed.

Lemma lstrip_fixed s :
  (∀ c rest, s = c :: rest → isspace c = false) → lstrip s = s.
Proof.
  destruct s as [|c s]; [done|]. intros Hhead. cbn [lstrip].
  by rewrite (Hhead c s eq_refl).
Qed.

Lemma lstrip_idemp s : lstrip (lstrip s) = lstrip s.
Proof. apply lstrip_fixed. intros c rest. apply lstrip_head. Qed.

Lemma rstrip_prefix s : ∃ spaces, s = rstrip s ++ spaces.
Proof.
  unfold rstrip. destruct (lstrip_suffix (rev s)) as [spaces Hspaces].
  exists (rev spaces). rewrite <- rev_app_distr, <- Hspaces.
  by rewrite rev_involutive.
Qed.

Lemma rstrip_idemp s : rstrip (rstrip s) = rstrip s.
Proof. unfold rstrip. by rewrite rev_involutive, lstrip_idemp. Qed.

(** [strip] does nothing to what it has stripped. *)
Lemma strip_idemp s : strip (strip s) = strip s.
Proof.
  unfold strip.
  assert (Hfixed : lstrip (rstrip (lstrip s)) = rstrip (lstrip s)).
  { apply lstrip_fixed. intros c rest Hc.
    destruct (rstrip_prefix (lstrip s)) as [spaces Hspaces].
    rewrite Hc in Hspaces. by apply lstrip_head in Hspaces. }
  by rewrite Hfixed, rstrip_idemp.
Qed.

Lemma elem_of_strip c s : c ∈ strip s → c ∈ s.
Proof.
  unfold strip. intros Hin.
  destruct (rstrip_prefix (lstrip s)) as [after Hafter].
  destruct (lstrip_suffix s) as [before Hbefore].
  rewrite Hbefore, Hafter. apply elem_of_app. right.
  apply elem_of_app. by left.
Qed.

(** The pieces of a split do not contain the separator, and are made of
    characters of the text. *)
Lemma split_pieces sep s piece :
  piece ∈ split sep s → (sep ∉ piece) ∧ ∀ c, c ∈ piece → c ∈ s.
Proof.
  revert piece. induction s as [|a s IH]; intros piece; cbn [split].
  - intros ->%list_elem_of_singleton. split; [apply not_elem_of_nil|done].
  - destruct (N.eqb_spec a sep) as [->|Hne].
    + intros [->|Hin]%elem_of_cons.
      * split; [apply not_elem_of_nil|]. by intros c ?%elem_of_nil.
      * destruct (IH piece Hin) as [Hsep Hsub]. split; [done|].
        intros c Hc. right. by apply Hsub.
    + pose proof (split_nonempty sep s) as Hnonempty.
      destruct (split sep s) as [|first pieces] eqn:Hsplit; [done|].
      intros [->|Hin]%elem_of_cons.
      * destruct (IH first) as [Hsep Hsub]; [by left|]. split.
        -- apply not_elem_of_cons. split; [congruence|done].
        -- intros c [->|Hc]%elem_of_cons; [by left|]. right. by apply Hsub.
      * destruct (IH piece) as [Hsep Hsub]; [by right|]. split; [done|].
        intros c Hc. right. by apply Hsub.
Qed.

Lemma startswith_prefix line prefix :
  startswith line prefix = true → ∃ tail, line = prefix ++ tail.
Proof.
  revert line. induction prefix as [|a prefix IH]; intros line; cbn [startswith].
  - by exists line.
  - destruct line as [|c line]; [done|].
    intros [->%N.eqb_eq Hrest]%andb_prop.
    destruct (IH line Hrest) as [tail ->]. by exists tail.
Qed.

(** A line that starts with [TAG] contains a colon, so [split(':')[1]]
    exists. *)
Lemma tag_line_has_second_piece line :
  startswith line TAG = true →
  ∃ first second rest, split colon line = first :: second :: rest.
Proof.
  intros [tail ->]%startswith_prefix.
  change (TAG ++ tail) with (lit "Game ID" ++ colon :: tail).
  rewrite split_app_sep.
  pose proof (split_nonempty colon tail) as Hnonempty.
  destruct (split colon tail) as [|second rest]; [done|].
  by exists (lit "Game ID"), second, rest.
Qed.

(** Every id the parser returns is clean: so the tag can only ever give
    back a clean id. *)
Lemma parsed_id_is_clean text gid :
  parse_description text = Some gid → clean_id gid.
Proof.
  unfold parse_description.
  assert (Hlines : ∀ line, line ∈ split newline text → newline ∉ line).
  { intros line Hline. by apply split_pieces in Hline as [? _]. }
  revert Hlines. generalize (split newline text). intros lines.
  induction lines as [|line lines IH]; intros Hlines; [done|].
  cbn [scan_lines]. destruct (startswith line TAG) eqn:Hstart.
  - intros [= <-].
    destruct (tag_line_has_second_piece line Hstart)
      as (first & second & rest & Hsplit).
    unfold extract_game_id. rewrite Hsplit.
    assert (Hsecond : second ∈ split colon line).
    { rewrite Hsplit. right. by left. }
    apply split_pieces in Hsecond as [Hcolon Hsub].
    split_and!.
    + intros Hin. by apply Hcolon, elem_of_strip.
    + intros Hin. apply (Hlines line); [by left|].
      by apply Hsub, elem_of_strip.
    + apply strip_idemp.
  - apply IH. intros l Hl. apply Hlines. by right.
Qed.

Lemma event_tag_is_clean event gid : event_tag event = Some gid → clean_id gid.
Proof.
  unfold event_tag. destruct (description event) as [text|]; [|done].
  apply parsed_id_is_clean.
Qed.

Section TransformErrors.
Context `{Externals}.

Lemma transform_succeeds g :
  date_parses g → time_parses g → end_time_in_range g →
  team_names_present g → labels_present g →
  succeeded (_create_event_from_game g) = true.
Proof.
  intros (dtext & d & Hd & Hpd) (ttext & t & Ht & Hpt) Hend
         (tm & a & h & an & hn & Htm & Ha & Hh & Han & Hhn)
         ([wk Hwk] & [sn Hsn] & [gid Hgid]).
  specialize (Hend dtext ttext d t Hd Hpd Ht Hpt).
  unfold _create_event_from_game, mbind, result_bind, mret, result_ret.
  rewrite Hd, Ht, Htm, Hwk, Hsn, Hgid. cbn [rbind getitem].
  rewrite Hpd. cbn [rbind strptime]. rewrite Hpt. cbn [rbind strptime_t].
  destruct (plus_3_hours (combine d t)); [discriminate Hend|].
  cbn [rbind]. rewrite Ha. cbn [rbind getitem]. rewrite Han.
  cbn [rbind getitem]. rewrite Hh. cbn [rbind getitem]. by rewrite Hhn.
Qed.

Lemma transform_succeeded_inv g :
  succeeded (_create_event_from_game g) = true →
  date_parses g ∧ time_parses g ∧ end_time_in_range g ∧
  team_names_present g ∧ labels_present g.
Proof.
  destruct (_create_event_from_game g) as [e|event] eqn:Hrun; [discriminate|].
  intros _.
  unfold _create_event_from_game, mbind, result_bind, mret, result_ret in Hrun.
  repeat transform_step Hrun.
  clear Hrun.
  unfold date_parses, time_parses, end_time_in_range, team_names_present,
    labels_present.
  split_and!.
  - by eexists _, _.
  - by eexists _, _.
  - intros dtext ttext d' t' Hd Hpd Ht Hpt.
    simplify_eq.
    match goal with Hplus : plus_3_hours _ = inr _ |- _ => by rewrite Hplus end.
  - by eexists _, _, _, _, _.
  - by eexists.
  - by eexists.
  - by eexists.
Qed.

Lemma plus_3_hours_in_range d t :
  hour t + 3 < 24 ∨ day d < days_in_month (year d) (month d)
  ∨ month d < 12 ∨ year d < 9999 →
  ∃ end_time, plus_3_hours (combine d t) = inr end_time.
Proof.
  intros Hrange. unfold plus_3_hours, next_day, MAXYEAR.
  cbn [dt_time dt_date combine].
  destruct (Z.ltb_spec (hour t + 3) 24); [by eexists|].
  destruct (Z.ltb_spec (day d) (days_in_month (year d) (month d))); [by eexists|].
  destruct (Z.ltb_spec (month d) 12); [by eexists|].
  destruct (Z.ltb_spec (year d) 9999); [by eexists|]. lia.
Qed.

Lemma plus_3_hours_overflow d t :
  ¬ (hour t + 3 < 24 ∨ day d < days_in_month (year d) (month d)
     ∨ month d < 12 ∨ year d < 9999) →
  plus_3_hours (combine d t) = inl OverflowError.
Proof.
  intros Hout. unfold plus_3_hours, next_day, MAXYEAR.
  cbn [dt_time dt_date combine].
  destruct (Z.ltb_spec (hour t + 3) 24); [tauto|].
  destruct (Z.ltb_spec (day d) (days_in_month (year d) (month d))); [tauto|].
  destruct (Z.ltb_spec (month d) 12); [tauto|].
  destruct (Z.ltb_spec (year d) 9999); [tauto|done].
Qed.

Lemma end_time_in_range_explicit g :
  end_time_in_range g ↔ kickoff_leaves_three_hours g.
Proof.
  unfold end_time_in_range, kickoff_leaves_three_hours.
  split; intros Hrange dtext ttext d t Hd Hpd Ht Hpt;
    specialize (Hrange dtext ttext d t Hd Hpd Ht Hpt).
  - destruct (decide (hour t + 3 < 24 ∨ day d < days_in_month (year d) (month d)
                      ∨ month d < 12 ∨ year d < 9999)) as [?|Hout]; [done|].
    by rewrite (plus_3_hours_overflow d t Hout) in Hrange.
  - by destruct (plus_3_hours_in_range d t Hrange) as [end_time ->].
Qed.

(** The transform up to the end time, for a game whose date and time are
    present and parse. *)
Lemma transform_after_parsing g dtext d ttext t :
  game_date g = Some dtext → strptime_date dtext = Some d →
  game_time g = Some ttext → strptime_time ttext = Some t →
  _create_event_from_game g
  = (end_time ← plus_3_hours (combine d t);
     teams ← getitem "teams" (teams g);
     away_team ← getitem "away" (away teams);
     away_name ← getitem "name" (name away_team);
     home_team ← getitem "home" (home teams);
     home_name ← getitem "name" (name home_team);
     week ← getitem "week" (week g);
     season ← getitem "season" (season g);
     game_id ← getitem "game_id" (game_id g);
     mret {|
       summary := lit "NFL: " ++ away_name ++ lit " vs " ++ home_name;
       location := home_name ++ lit " Stadium";
       description := Some (
         (lit "Week " ++ week ++ lit " NFL Game" ++ [newline])
         ++ (away_name ++ lit " at " ++ home_name ++ [newline; newline])
         ++ (lit "Season: " ++ season ++ [newline])
         ++ (lit "Game ID: " ++ game_id));
       start := {| dateTime := isoformat (combine d t);
                   timeZone := lit "America/New_York" |};
       end_ := {| dateTime := isoformat end_time;
                  timeZone := lit "America/New_York" |};
       reminders := {|
         useDefault := false;
         overrides := [ {| method := lit "popup"; minutes := 60 |};
                        {| method := lit "email"; minutes := 1440 |} ] |};
       colorId := lit "2"
     |}).
Proof.
  intros Hd Hpd Ht Hpt.
  unfold _create_event_from_game, mbind, result_bind.
  rewrite Hd. cbn [rbind getitem]. rewrite Hpd. cbn [rbind strptime].
  rewrite Ht. cbn [rbind getitem]. rewrite Hpt. cbn [rbind strptime_t].
  reflexivity.
Qed.

(** C8 (amended). The transform returns normally exactly for the games whose
    [game_date] and [game_time] are present and parse, whose kick-off
    leaves three hours before the end of the datetime range, whose two team
    names are present, and whose [week], [season] and [game_id] are
    present.  Every other game makes it raise, and the exception is that of
    the first step that fails, in reading order: [KeyError] for a missing
    [game_date], [ValueError] for a date that does not parse, [KeyError] for
    a missing [game_time], [ValueError] for a time that does not parse,
    [OverflowError] for an end time out of range, [KeyError] for a missing
    [teams], [away], [home] or [name], and [KeyError] for a missing [week],
    [season] or [game_id]. *)
Theorem transform_fails_exactly_when g :
  (succeeded (_create_event_from_game g) = true ↔
     date_parses g ∧ time_parses g ∧ kickoff_leaves_three_hours g ∧
     team_names_present g ∧ labels_present g)
  ∧ (game_date g = None →
     _create_event_from_game g = inl (KeyError "game_date"))
  ∧ (∀ text, game_date g = Some text → strptime_date text = None →
     ∃ msg, _create_event_from_game g = inl (ValueError msg))
  ∧ (date_parses g → game_time g = None →
     _create_event_from_game g = inl (KeyError "game_time"))
  ∧ (date_parses g →
     ∀ text, game_time g = Some text → strptime_time text = None →
     ∃ msg, _create_event_from_game g = inl (ValueError msg))
  ∧ (date_parses g → time_parses g → ¬ kickoff_leaves_three_hours g →
     _create_event_from_game g = inl OverflowError)
  ∧ (date_parses g → time_parses g → kickoff_leaves_three_hours g →
     ¬ team_names_present g →
     ∃ key, key ∈ ["teams"; "away"; "name"; "home"]%string
            ∧ _create_event_from_game g = inl (KeyError key))
  ∧ (date_parses g → time_parses g → kickoff_leaves_three_hours g →
     team_names_present g → ¬ labels_present g →
     ∃ key, key ∈ ["week"; "season"; "game_id"]%string
            ∧ _create_event_from_game g = inl (KeyError key)).
Proof.
  split_and!.
  - rewrite <- end_time_in_range_explicit.
    split; [apply transform_succeeded_inv|].
    intros (? & ? & ? & ? & ?). by apply transform_succeeds.
  - intros Hd. unfold _create_event_from_game, mbind, result_bind.
    by rewrite Hd.
  - intros text Hd Hpd. unfold _create_event_from_game, mbind, result_bind.
    rewrite Hd. cbn [rbind getitem]. rewrite Hpd. by eexists.
  - intros (dtext & d & Hd & Hpd) Ht.
    unfold _create_event_from_game, mbind, result_bind.
    rewrite Hd. cbn [rbind getitem]. rewrite Hpd. cbn [rbind strptime].
    by rewrite Ht.
  - intros (dtext & d & Hd & Hpd) text Ht Hpt.
    unfold _create_event_from_game, mbind, result_bind.
    rewrite Hd. cbn [rbind getitem]. rewrite Hpd. cbn [rbind strptime].
    rewrite Ht. cbn [rbind getitem]. rewrite Hpt. by eexists.
  - intros (dtext & d & Hd & Hpd) (ttext & t & Ht & Hpt) Hout.
    rewrite (transform_after_parsing g dtext d ttext t Hd Hpd Ht Hpt).
    rewrite plus_3_hours_overflow; [done|].
    intros Hrange. apply Hout. intros dtext' ttext' d' t' Hd' Hpd' Ht' Hpt'.
    by simplify_eq.
  - intros (dtext & d & Hd & Hpd) (ttext & t & Ht & Hpt) Hrange Hnames.
    rewrite (transform_after_parsing g dtext d ttext t Hd Hpd Ht Hpt).
    destruct (plus_3_hours_in_range d t (Hrange dtext ttext d t Hd Hpd Ht Hpt))
      as [end_time ->].
    unfold mbind, result_bind. cbn [rbind].
    destruct (teams g) as [tm|] eqn:Htm; cbn [rbind getitem];
      [|exists "teams"%string; split; [set_solver|done]].
    destruct (away tm) as [a|] eqn:Ha; cbn [rbind getitem];
      [|exists "away"%string; split; [set_solver|done]].
    destruct (name a) as [an|] eqn:Han; cbn [rbind getitem];
      [|exists "name"%string; split; [set_solver|done]].
    destruct (home tm) as [h|] eqn:Hh; cbn [rbind getitem];
      [|exists "home"%string; split; [set_solver|done]].
    destruct (name h) as [hn|] eqn:Hhn; cbn [rbind getitem];
      [|exists "name"%string; split; [set_solver|done]].
    destruct Hnames. by exists tm, a, h, an, hn.
  - intros (dtext & d & Hd & Hpd) (ttext & t & Ht & Hpt) Hrange
      (tm & a & h & an & hn & Htm & Ha & Hh & Han & Hhn) Hlabels.
    rewrite (transform_after_parsing g dtext d ttext t Hd Hpd Ht Hpt).
    destruct (plus_3_hours_in_range d t (Hrange dtext ttext d t Hd Hpd Ht Hpt))
      as [end_time ->].
    unfold mbind, result_bind. cbn [rbind].
    rewrite Htm. cbn [rbind getitem]. rewrite Ha. cbn [rbind getitem].
    rewrite Han. cbn [rbind getitem]. rewrite Hh. cbn [rbind getitem].
    rewrite Hhn. cbn [rbind getitem].
    destruct (week g) as [wk|] eqn:Hwk; cbn [rbind getitem];
      [|exists "week"%string; split; [set_solver|done]].
    destruct (season g) as [sn|] eqn:Hsn; cbn [rbind getitem];
      [|exists "season"%string; split; [set_solver|done]].
    destruct (game_id g) as [gid|] eqn:Hgid; cbn [rbind getitem];
      [|exists "game_id"%string; split; [set_solver|done]].
    destruct Hlabels. split_and!; by eexists.
Qed.

End TransformErrors.

(** ** The index of existing events *)

Lemma index_events_snoc items r :
  index_events (items ++ [r]) = index_event (index_events items) r.
Proof. unfold index_events. by rewrite foldl_app. Qed.

(** A game id is indexed under the last listed event that carries its tag. *)
Lemma index_events_lookup items gid :
  index_events items !! gid = id <$> last (events_for gid items).
Proof.
  unfold events_for.
  induction items as [|r items IH] using rev_ind; [done|].
  rewrite index_events_snoc, filter_app. unfold index_event.
  destruct (event_tag (body r)) as [gid'|] eqn:Htag.
  - destruct (decide (gid' = gid)) as [->|Hne].
    + rewrite lookup_insert_eq.
      rewrite (filter_cons_True _ r []) by done.
      by rewrite filter_nil, last_snoc.
    + rewrite lookup_insert_ne by done.
      rewrite (filter_cons_False _ r []) by congruence.
      by rewrite filter_nil, app_nil_r.
  - rewrite (filter_cons_False _ r []) by congruence.
    by rewrite filter_nil, app_nil_r.
Qed.


(** ** The provider, one request at a time *)

Section Requests.
Context `{Externals}.

Lemma events_insert_run calendar_id event p :
  events_insert calendar_id event p =
  let c := InsertEvent calendar_id event in
  match write_outcome c p with
  | Some new_calendars =>
      (set_calendars new_calendars (logged c true p), inr tt)
  | None =>
      (logged c false p, inl (if faulty p then UNAVAILABLE else NOT_FOUND))
  end.
Proof.
  unfold events_insert, request, write_outcome, faulty, logged.
  destruct (head (faults p)) as [[]|]; cbn; try reflexivity;
    by destruct (calendars p !! calendar_id).
Qed.

Lemma events_update_run calendar_id event_id event p :
  events_update calendar_id event_id event p =
  let c := UpdateEvent calendar_id event_id event in
  match write_outcome c p with
  | Some new_calendars =>
      (set_calendars new_calendars (logged c true p), inr tt)
  | None =>
      (logged c false p, inl (if faulty p then UNAVAILABLE else NOT_FOUND))
  end.
Proof.
  unfold events_update, request, write_outcome, faulty, logged.
  destruct (head (faults p)) as [[]|]; cbn; try reflexivity;
    (destruct (calendars p !! calendar_id) as [events|]; cbn; [|done];
     by destruct (has_event event_id events)).
Qed.

(** The listing never makes the run raise: a failed listing leaves the
    empty index. *)
Lemma fetch_existing_events_run calendar_id p :
  fetch_existing_events calendar_id p =
  (logged (list_call calendar_id p).1 (list_call calendar_id p).2 p,
   inr (existing_events calendar_id p)).
Proof.
  unfold fetch_existing_events, try_except, mbind, M_bind, bind, now_isoformat,
    events_list, request, existing_events, list_call, listing, faulty, logged,
    time_min, mret, M_ret, ret.
  destruct (head (faults p)) as [[]|]; cbn; try reflexivity;
    by destruct (calendars p !! calendar_id).
Qed.

(** One turn of the per-game loop. *)
Lemma sync_each_cons calendar_id index game rest n p :
  sync_each calendar_id index (game :: rest) n p =
  match planned_call calendar_id index game with
  | None => sync_each calendar_id index rest n p
  | Some c =>
      sync_each calendar_id index rest
        (if (apply_write c p).2 then (n + 1)%nat else n) (apply_write c p).1
  end.
Proof.
  cbn [sync_each]. unfold mbind, M_bind, bind, try_except at 1.
  unfold sync_game, planned_call, mbind, M_bind, bind, lift, mret, M_ret, ret.
  destruct (_create_event_from_game game) as [e|event]; [done|].
  destruct (game_id game) as [gid|]; cbn [getitem]; [|done].
  unfold apply_write.
  destruct (index !! gid) as [event_id|].
  - rewrite events_update_run. cbn zeta.
    by destruct (write_outcome (UpdateEvent calendar_id event_id event) p).
  - rewrite events_insert_run. cbn zeta.
    by destruct (write_outcome (InsertEvent calendar_id event) p).
Qed.

(** The whole run, in terms of the listing and the loop. *)
Lemma sync_games_to_calendar_run credentials_dict calendar_id games p :
  sync_games_to_calendar credentials_dict calendar_id games p =
  match _build_calendar_service credentials_dict with
  | inl e => (p, inl e)
  | inr _ =>
      match sync_each calendar_id (existing_events calendar_id p) games 0%nat
              (logged (list_call calendar_id p).1 (list_call calendar_id p).2 p) with
      | (p', inr n) => (p', inr n)
      | (p', inl e) => (p', inl e)
      end
  end.
Proof.
  unfold sync_games_to_calendar, try_except, mbind, M_bind, bind, lift, raise.
  destruct (_build_calendar_service credentials_dict); [done|].
  rewrite fetch_existing_events_run.
  by destruct (sync_each _ _ _ _ _) as [p' [e|n]].
Qed.

End Requests.

(** ** The per-game loop *)

Lemma successes_cons c ok log :
  successes ((c, ok) :: log) = ((if ok then 1 else 0) + successes log)%nat.
Proof.
  unfold successes. rewrite filter_cons.
  destruct ok; destruct (decide _) as [Heq|Hne]; cbn in *; congruence.
Qed.

Lemma failures_cons c ok log :
  failures ((c, ok) :: log) = ((if ok then 0 else 1) + failures log)%nat.
Proof.
  unfold failures. rewrite filter_cons.
  destruct ok; destruct (decide _) as [Heq|Hne]; cbn in *; congruence.
Qed.

Lemma successes_failures log :
  (successes log + failures log = length log)%nat.
Proof.
  induction log as [|[c ok] log IH]; [done|].
  rewrite successes_cons, failures_cons. cbn [length]. destruct ok; lia.
Qed.

Lemma apply_write_calls c p :
  calls (apply_write c p).1 = calls p ++ [(c, (apply_write c p).2)].
Proof. unfold apply_write. by destruct (write_outcome c p). Qed.

Section Loop.
Context `{Externals}.

(** The loop never raises; it logs one request for each game the transform
    accepts, in input order, and counts those that succeeded. *)
Lemma sync_each_log calendar_id index games n p :
  ∃ log,
    (sync_each calendar_id index games n p).2 = inr (n + successes log)%nat
    ∧ calls (sync_each calendar_id index games n p).1 = calls p ++ log
    ∧ log.*1 = planned_calls calendar_id index games.
Proof.
  revert n p. induction games as [|game rest IH]; intros n p.
  - exists []. cbn. by rewrite Nat.add_0_r, app_nil_r.
  - rewrite sync_each_cons. unfold planned_calls. cbn [omap list_omap].
    fold (planned_calls calendar_id index rest).
    destruct (planned_call calendar_id index game) as [c|]; [|apply IH].
    destruct (IH (if (apply_write c p).2 then (n + 1)%nat else n)
                 (apply_write c p).1) as (log & Hn & Hcalls & Hplan).
    exists ((c, (apply_write c p).2) :: log). split_and!.
    + rewrite Hn, successes_cons. f_equal.
      destruct (apply_write c p).2; lia.
    + rewrite Hcalls, apply_write_calls. by rewrite <- app_assoc.
    + cbn. by rewrite Hplan.
Qed.

(** What the loop does to the events of the target calendar, as a proof
    rule: [J] relates the games still to come with the events so far. *)
Lemma sync_each_events calendar_id index (J : list Game → list Resource → Prop) :
  (∀ g rest events, J (g :: rest) events → J rest events) →
  (∀ g rest events event gid,
     J (g :: rest) events →
     _create_event_from_game g = inr event → game_id g = Some gid →
     index !! gid = None →
     J rest (insert_event event events)) →
  (∀ g rest events event gid event_id,
     J (g :: rest) events →
     _create_event_from_game g = inr event → game_id g = Some gid →
     index !! gid = Some event_id → event_id ∈ id <$> events →
     J rest (update_event event_id event events)) →
  ∀ games n p events,
    calendars p !! calendar_id = Some events → J games events →
    ∃ events',
      calendars (sync_each calendar_id index games n p).1
        = <[calendar_id := events']> (calendars p)
      ∧ J [] events'.
Proof.
  intros Hskip Hinsert Hupdate games.
  induction games as [|game rest IH]; intros n p events Hcal HJ.
  - exists events. split; [|done]. cbn. by rewrite insert_id.
  - assert (Hfailed : ∀ c m, ∃ events',
               calendars (sync_each calendar_id index rest m (logged c false p)).1
               = <[calendar_id := events']> (calendars p) ∧ J [] events').
    { intros c m. apply (IH m (logged c false p) events Hcal).
      by eapply Hskip. }
    rewrite sync_each_cons. unfold planned_call.
    destruct (_create_event_from_game game) as [e|event] eqn:Hrun;
      [by eapply IH, Hskip|].
    destruct (game_id game) as [gid|] eqn:Hgid; [|by eapply IH, Hskip].
    unfold apply_write, write_outcome.
    destruct (faulty p); [apply Hfailed|].
    destruct (index !! gid) as [event_id|] eqn:Hindex; rewrite Hcal; cbn.
    + destruct (has_event event_id events) eqn:Hhas; [|apply Hfailed].
      apply bool_decide_eq_true in Hhas.
      edestruct (IH (n + 1)%nat
        (set_calendars
           (<[calendar_id := update_event event_id event events]> (calendars p))
           (logged (UpdateEvent calendar_id event_id event) true p)))
        as (events' & Hcals & HJ').
      { cbn. apply lookup_insert_eq. }
      { eapply Hupdate; eauto. }
      exists events'. split; [|done]. etrans; [exact Hcals|]. cbn.
      by rewrite insert_insert_eq.
    + edestruct (IH (n + 1)%nat
        (set_calendars
           (<[calendar_id := insert_event event events]> (calendars p))
           (logged (InsertEvent calendar_id event) true p)))
        as (events' & Hcals & HJ').
      { cbn. apply lookup_insert_eq. }
      { eapply Hinsert; eauto. }
      exists events'. split; [|done]. etrans; [exact Hcals|]. cbn.
      by rewrite insert_insert_eq.
Qed.

(** A run on a calendar the provider does not know leaves all calendars as
    they are. *)
Lemma sync_each_unknown_calendar calendar_id index games n p :
  calendars p !! calendar_id = None →
  calendars (sync_each calendar_id index games n p).1 = calendars p.
Proof.
  revert n p. induction games as [|game rest IH]; intros n p Hcal; [done|].
  rewrite sync_each_cons.
  destruct (planned_call calendar_id index game) as [c|] eqn:Hplan; [|by apply IH].
  assert (Hnone : write_outcome c p = None).
  { unfold planned_call in Hplan.
    destruct (_create_event_from_game game); [done|].
    destruct (game_id game) as [gid|]; [|done].
    unfold write_outcome. destruct (faulty p); [done|].
    destruct (index !! gid); simplify_eq; by rewrite Hcal. }
  unfold apply_write. rewrite Hnone. cbn. by rewrite IH.
Qed.

End Loop.

(** ** The run as a whole *)

Section Run.
Context `{Externals}.

Lemma sync_games_to_calendar_log credentials_dict calendar_id games p service :
  _build_calendar_service credentials_dict = inr service →
  ∃ log,
    (sync_games_to_calendar credentials_dict calendar_id games p).2
      = inr (successes log)
    ∧ calls (sync_games_to_calendar credentials_dict calendar_id games p).1
      = calls p ++ list_call calendar_id p :: log
    ∧ log.*1 = planned_calls calendar_id (existing_events calendar_id p) games.
Proof.
  intros Hbuild. rewrite sync_games_to_calendar_run, Hbuild.
  destruct (sync_each_log calendar_id (existing_events calendar_id p) games 0
              (logged (list_call calendar_id p).1 (list_call calendar_id p).2 p))
    as (log & Hn & Hcalls & Hplan).
  exists log.
  destruct (sync_each _ _ _ _ _) as [p' [e|n]]; cbn [fst snd] in *; [done|].
  split_and!; [exact Hn| |exact Hplan].
  rewrite Hcalls. unfold logged. cbn [calls set_calls set_faults].
  rewrite <- app_assoc. by destruct (list_call calendar_id p).
Qed.

Lemma sync_games_to_calendar_state credentials_dict calendar_id games p service :
  _build_calendar_service credentials_dict = inr service →
  (sync_games_to_calendar credentials_dict calendar_id games p).1
  = (sync_each calendar_id (existing_events calendar_id p) games 0%nat
       (logged (list_call calendar_id p).1 (list_call calendar_id p).2 p)).1.
Proof.
  intros Hbuild. rewrite sync_games_to_calendar_run, Hbuild.
  by destruct (sync_each _ _ _ _ _) as [p' [e|n]].
Qed.

Lemma sync_games_to_calendar_result credentials_dict calendar_id games p service :
  _build_calendar_service credentials_dict = inr service →
  (sync_games_to_calendar credentials_dict calendar_id games p).2
  = (sync_each calendar_id (existing_events calendar_id p) games 0%nat
       (logged (list_call calendar_id p).1 (list_call calendar_id p).2 p)).2.
Proof.
  intros Hbuild. rewrite sync_games_to_calendar_run, Hbuild.
  by destruct (sync_each _ _ _ _ _) as [p' [e|n]].
Qed.

(** Without a service nothing is requested and the run raises. *)
Lemma sync_games_to_calendar_no_service credentials_dict calendar_id games p e :
  _build_calendar_service credentials_dict = inl e →
  sync_games_to_calendar credentials_dict calendar_id games p = (p, inl e).
Proof. intros Hbuild. by rewrite sync_games_to_calendar_run, Hbuild. Qed.

(** The run raises only when the service cannot be built, and then with
    the [ValueError] of the key check. *)
Lemma sync_games_to_calendar_raises credentials_dict calendar_id games p p' e :
  sync_games_to_calendar credentials_dict calendar_id games p = (p', inl e) →
  p' = p ∧ e = ValueError "Invalid credentials dictionary structure"
  ∧ _build_calendar_service credentials_dict = inl e.
Proof.
  rewrite sync_games_to_calendar_run.
  destruct (_build_calendar_service credentials_dict) as [e0|service] eqn:Hbuild.
  - intros [= <- <-]. split_and!; [done| |done].
    unfold _build_calendar_service in Hbuild.
    destruct (forallb _ _); congruence.
  - destruct (sync_each_log calendar_id (existing_events calendar_id p) games 0
                (logged (list_call calendar_id p).1 (list_call calendar_id p).2 p))
      as (log & Hn & _).
    destruct (sync_each _ _ _ _ _) as [p'' [e'|n]]; cbn in Hn; [done|].
    intros [= _ ?].
Qed.

(** The credentials the callback route obtains always build a service. *)
Lemma handle_oauth_callback_builds code credentials_dict :
  handle_oauth_callback code = inr credentials_dict →
  _build_calendar_service credentials_dict
  = inr {| service_credentials := credentials_dict |}.
Proof.
  unfold handle_oauth_callback, mbind, result_bind, rbind, mret, result_ret.
  destruct (fetch_token code) as [e|credentials]; [done|].
  intros [= <-]. unfold _build_calendar_service.
  by vm_compute.
Qed.

Lemma planned_calls_empty_index calendar_id games :
  Forall (fun c => is_insert c = true) (planned_calls calendar_id ∅ games).
Proof.
  induction games as [|g games IH]; [constructor|].
  unfold planned_calls. cbn [omap list_omap]. unfold planned_call at 1.
  destruct (_create_event_from_game g); [exact IH|].
  destruct (game_id g) as [gid|]; [|exact IH].
  rewrite lookup_empty. by constructor.
Qed.

(** C7 (amended). For the empty game list, and credentials from which the
    service can be built, reconcile returns 0 and issues no create or update
    call, but it does issue the listing call, once; every calendar is left
    as it was. *)
Theorem empty_game_list_still_lists credentials_dict calendar_id p service :
  _build_calendar_service credentials_dict = inr service →
  (sync_games_to_calendar credentials_dict calendar_id [] p).2 = inr 0%nat
  ∧ calls (sync_games_to_calendar credentials_dict calendar_id [] p).1
    = calls p ++ [list_call calendar_id p]
  ∧ calendars (sync_games_to_calendar credentials_dict calendar_id [] p).1
    = calendars p.
Proof.
  intros Hbuild. rewrite sync_games_to_calendar_run, Hbuild.
  cbn [sync_each mret M_ret ret fst snd]. unfold logged.
  cbn [calls calendars set_calls set_faults].
  split_and!; [done| |done]. by rewrite <- surjective_pairing.
Qed.

(** C4 (amended). If the initial listing call fails, reconcile does not
    abort: it goes on with an empty index, so every game the transform
    accepts is sent to create (never update), and the number of creates that
    succeeded is returned. *)
Theorem listing_failure_is_swallowed credentials_dict calendar_id games p service :
  _build_calendar_service credentials_dict = inr service →
  listing calendar_id p = None →
  ∃ log,
    (sync_games_to_calendar credentials_dict calendar_id games p).2
      = inr (successes log)
    ∧ calls (sync_games_to_calendar credentials_dict calendar_id games p).1
      = calls p ++ (ListEvents calendar_id (time_min p), false) :: log
    ∧ log.*1 = planned_calls calendar_id ∅ games
    ∧ Forall (fun c => is_insert c = true) (log.*1).
Proof.
  intros Hbuild Hlisting.
  destruct (sync_games_to_calendar_log credentials_dict calendar_id games p
              service Hbuild) as (log & Hn & Hcalls & Hplan).
  unfold existing_events in Hplan. unfold list_call in Hcalls.
  rewrite Hlisting in Hplan, Hcalls.
  exists log. split_and!; [done|done|done|].
  rewrite Hplan. apply planned_calls_empty_index.
Qed.

(** C5. A failed create or update does not abort reconcile: every game the
    transform accepts still has its request issued, in input order, and the
    returned count is the number of requests that succeeded; when exactly
    one request fails, the count is the number of requests less one. *)
Theorem per_game_failure_does_not_abort credentials_dict calendar_id games p
    service :
  _build_calendar_service credentials_dict = inr service →
  ∃ log,
    calls (sync_games_to_calendar credentials_dict calendar_id games p).1
      = calls p ++ list_call calendar_id p :: log
    ∧ log.*1 = planned_calls calendar_id (existing_events calendar_id p) games
    ∧ (sync_games_to_calendar credentials_dict calendar_id games p).2
      = inr (successes log)
    ∧ (failures log = 1%nat →
       (sync_games_to_calendar credentials_dict calendar_id games p).2
       = inr (length log - 1)%nat).
Proof.
  intros Hbuild.
  destruct (sync_games_to_calendar_log credentials_dict calendar_id games p
              service Hbuild) as (log & Hn & Hcalls & Hplan).
  exists log. split_and!; [done..|].
  intros Hone. rewrite Hn. f_equal.
  pose proof (successes_failures log). lia.
Qed.

Lemma planned_call_insert calendar_id index g event gid :
  _create_event_from_game g = inr event → game_id g = Some gid →
  index !! gid = None →
  planned_call calendar_id index g = Some (InsertEvent calendar_id event).
Proof. intros Hrun Hgid Hindex. unfold planned_call. by rewrite Hrun, Hgid, Hindex. Qed.


Lemma apply_write_insert calendar_id event events p :
  faulty p = false → calendars p !! calendar_id = Some events →
  apply_write (InsertEvent calendar_id event) p
  = (set_calendars (<[calendar_id := insert_event event events]> (calendars p))
       (logged (InsertEvent calendar_id event) true p), true).
Proof.
  intros Hfaulty Hcal. unfold apply_write, write_outcome.
  by rewrite Hfaulty, Hcal.
Qed.

Lemma apply_write_update calendar_id event_id event events p :
  faulty p = false → calendars p !! calendar_id = Some events →
  event_id ∈ id <$> events →
  apply_write (UpdateEvent calendar_id event_id event) p
  = (set_calendars
       (<[calendar_id := update_event event_id event events]> (calendars p))
       (logged (UpdateEvent calendar_id event_id event) true p), true).
Proof.
  intros Hfaulty Hcal Hin. unfold apply_write, write_outcome.
  rewrite Hfaulty, Hcal. cbn. unfold has_event.
  by rewrite bool_decide_eq_true_2.
Qed.

(** C3 (amended). Reconcile does not deduplicate its input: given two game
    records that share a [game_id], both accepted by the transform, an
    existing calendar without events and a provider that does not fail, two
    events are created, one per record in input order, each with the body of
    its own record, and the count is 2. *)
Theorem duplicate_records_are_both_created credentials_dict calendar_id
    g1 g2 e1 e2 gid p service :
  _build_calendar_service credentials_dict = inr service →
  _create_event_from_game g1 = inr e1 →
  _create_event_from_game g2 = inr e2 →
  game_id g1 = Some gid → game_id g2 = Some gid →
  calendars p !! calendar_id = Some [] →
  faults p = [] →
  (sync_games_to_calendar credentials_dict calendar_id [g1; g2] p).2 = inr 2%nat
  ∧ calendars (sync_games_to_calendar credentials_dict calendar_id [g1; g2] p).1
      !! calendar_id
    = Some [ {| id := fresh_id []; body := e1 |};
             {| id := fresh_id [fresh_id []]; body := e2 |} ]
  ∧ calls (sync_games_to_calendar credentials_dict calendar_id [g1; g2] p).1
    = calls p ++ [ (ListEvents calendar_id (time_min p), true);
                   (InsertEvent calendar_id e1, true);
                   (InsertEvent calendar_id e2, true) ].
Proof.
  intros Hbuild H1 H2 Hg1 Hg2 Hcal Hfaults.
  rewrite sync_games_to_calendar_run, Hbuild.
  assert (Hlisting : listing calendar_id p = Some []).
  { unfold listing, faulty. by rewrite Hfaults, Hcal. }
  unfold existing_events, list_call. rewrite Hlisting. cbn [fst snd].
  change (index_events []) with (∅ : gmap pystr pystr).
  rewrite sync_each_cons.
  rewrite (planned_call_insert _ _ g1 e1 gid) by (done || apply lookup_empty).
  rewrite (apply_write_insert _ _ []) by (done || (unfold faulty; cbn; by rewrite Hfaults)).
  cbn [fst snd]. rewrite sync_each_cons.
  rewrite (planned_call_insert _ _ g2 e2 gid) by (done || apply lookup_empty).
  rewrite (apply_write_insert _ _ (insert_event e1 []))
    by ((unfold faulty; cbn; by rewrite Hfaults) || (cbn; apply lookup_insert_eq)).
  cbn [fst snd sync_each mret M_ret ret]. unfold logged.
  cbn [calendars calls set_calendars set_calls set_faults faults].
  split_and!; [done| |].
  - by rewrite insert_insert_eq, lookup_insert_eq.
  - by rewrite <- !app_assoc.
Qed.

End Run.

(** ** Events of one calendar *)

Lemma fresh_id_fresh ids : fresh_id ids ∉ ids.
Proof.
  intros Hin.
  assert (Hle : (length (fresh_id ids) ≤ max_list (length <$> ids))%nat).
  { apply max_list_elem_of_le. by apply list_elem_of_fmap_2. }
  unfold fresh_id in Hle. rewrite length_replicate in Hle. lia.
Qed.

Lemma update_event_ids event_id event events :
  id <$> update_event event_id event events = id <$> events.
Proof.
  unfold update_event. rewrite <- list_fmap_compose.
  apply list_fmap_ext. intros i r _. cbn. by destruct (decide _).
Qed.

Lemma insert_event_ids event events :
  id <$> insert_event event events
  = (id <$> events) ++ [fresh_id (id <$> events)].
Proof. unfold insert_event. by rewrite fmap_app. Qed.

Lemma elem_of_update_event r' event_id event events :
  r' ∈ update_event event_id event events →
  ∃ r, r ∈ events ∧ id r' = id r
       ∧ (id r = event_id ∧ body r' = event ∨ id r ≠ event_id ∧ r' = r).
Proof.
  unfold update_event. intros (r & -> & Hin)%list_elem_of_fmap.
  exists r. split; [done|]. destruct (decide (id r = event_id)); cbn; eauto.
Qed.

Lemma events_for_insert gid event events :
  events_for gid (insert_event event events)
  = events_for gid events
    ++ (if decide (event_tag event = Some gid)
        then [ {| id := fresh_id (id <$> events); body := event |} ] else []).
Proof.
  unfold events_for, insert_event. rewrite filter_app. reflexivity.
Qed.

(** Replacing a body by one with the same tag keeps the events of every
    game id in place. *)
Lemma events_for_update gid event_id event events :
  (∀ r, r ∈ events → id r = event_id → event_tag (body r) = event_tag event) →
  length (events_for gid (update_event event_id event events))
  = length (events_for gid events).
Proof.
  unfold events_for, update_event. induction events as [|r events IH]; [done|].
  intros Hsame. rewrite fmap_cons, !filter_cons.
  assert (IH' := IH (fun r' Hin => Hsame r' (list_elem_of_further _ _ _ Hin))).
  assert (Htag : event_tag (body (if decide (id r = event_id)
                                  then {| id := id r; body := event |} else r))
                 = event_tag (body r)).
  { destruct (decide (id r = event_id)) as [Heq|]; [|done]. cbn.
    symmetry. apply Hsame; [by left|done]. }
  destruct (decide (event_tag (body _) = Some gid)) as [Hnew|Hnew];
    destruct (decide (event_tag (body r) = Some gid)) as [Hold|Hold];
    rewrite Htag in Hnew; try done; cbn [length]; by rewrite IH'.
Qed.

Lemma events_for_sublist gid events items :
  items `sublist_of` events →
  events_for gid items `sublist_of` events_for gid events.
Proof.
  unfold events_for. induction 1 as [|r l1 l2 _ IH|r l1 l2 _ IH]; [done|..].
  - rewrite !filter_cons. destruct (decide _); [by constructor|done].
  - rewrite filter_cons. destruct (decide _); [by constructor|done].
Qed.

Lemma NoDup_fmap_elem_inj {A B} (f : A → B) (l : list A) x y :
  NoDup (f <$> l) → x ∈ l → y ∈ l → f x = f y → x = y.
Proof.
  induction l as [|a l IH]; [by intros _ ?%elem_of_nil|].
  rewrite fmap_cons, NoDup_cons. intros [Hnotin Hnodup] Hx Hy Heq.
  apply elem_of_cons in Hx as [->|Hx]; apply elem_of_cons in Hy as [->|Hy].
  - done.
  - exfalso. apply Hnotin. rewrite Heq. by apply list_elem_of_fmap_2.
  - exfalso. apply Hnotin. rewrite <- Heq. by apply list_elem_of_fmap_2.
  - by apply IH.
Qed.

(** ** One event per game *)

Section OneEventPerGame.
Context `{Externals}.

Lemma tags_round_trip_cons g rest :
  tags_round_trip (g :: rest) → tags_round_trip rest.
Proof. intros Hrt g' event Hin. apply Hrt. by right. Qed.

Lemma planned_call_game_id calendar_id index g c :
  tags_round_trip [g] →
  planned_call calendar_id index g = Some c →
  call_game_id c = game_id g ∧ is_Some (game_id g).
Proof.
  intros Hrt. unfold planned_call.
  destruct (_create_event_from_game g) as [e|event] eqn:Hrun; [done|].
  destruct (game_id g) as [gid|] eqn:Hgid; [|done].
  assert (Htag : event_tag event = Some gid).
  { rewrite <- Hgid. apply Hrt; [by left|done]. }
  intros [= <-]. by destruct (index !! gid).
Qed.

(** Distinct game ids make distinct requests. *)
Lemma planned_calls_distinct calendar_id index games :
  tags_round_trip games → NoDup (omap game_id games) →
  NoDup (call_game_id <$> planned_calls calendar_id index games).
Proof.
  induction games as [|g rest IH]; intros Hrt Hnodup; [constructor|].
  assert (Hrest : tags_round_trip rest) by by eapply tags_round_trip_cons.
  assert (Hg : tags_round_trip [g]).
  { intros g' event ->%list_elem_of_singleton. apply Hrt. by left. }
  unfold planned_calls. cbn [omap list_omap] in *.
  fold (planned_calls calendar_id index rest).
  destruct (planned_call calendar_id index g) as [c|] eqn:Hplan.
  - destruct (planned_call_game_id _ _ _ _ Hg Hplan) as [Hc [gid Hgid]].
    rewrite Hgid in Hnodup, Hc. apply NoDup_cons in Hnodup as [Hnotin Hnodup].
    rewrite fmap_cons, Hc. apply NoDup_cons. split; [|by apply IH].
    intros (c' & Hc' & Hin)%list_elem_of_fmap. apply Hnotin.
    apply list_elem_of_omap in Hin as (g' & Hg' & Hplan').
    apply list_elem_of_omap. exists g'. split; [done|].
    assert (Hg'rt : tags_round_trip [g']).
    { intros g'' event Hin''%list_elem_of_singleton. subst g''.
      apply Hrt. by right. }
    destruct (planned_call_game_id _ _ _ _ Hg'rt Hplan') as [Heq _]. congruence.
  - apply IH; [done|]. destruct (game_id g); [|done].
    by apply NoDup_cons in Hnodup as [_ ?].
Qed.

(** The loop keeps at most one event per game id in the target calendar,
    provided the index knows every tagged event. *)
Lemma sync_each_one_event_per_game calendar_id index games n p events :
  tags_round_trip games → NoDup (omap game_id games) →
  calendars p !! calendar_id = Some events →
  NoDup (id <$> events) →
  (∀ gid, (length (events_for gid events) ≤ 1)%nat) →
  (∀ r gid, r ∈ events → event_tag (body r) = Some gid →
            index !! gid = Some (id r)
            ∨ (index !! gid = None ∧ gid ∉ omap game_id games)) →
  (∀ gid event_id r, index !! gid = Some event_id → r ∈ events →
                     id r = event_id → event_tag (body r) = Some gid) →
  (∀ gid event_id, index !! gid = Some event_id → event_id ∈ id <$> events) →
  ∃ events',
    calendars (sync_each calendar_id index games n p).1
      = <[calendar_id := events']> (calendars p)
    ∧ NoDup (id <$> events')
    ∧ ∀ gid, (length (events_for gid events') ≤ 1)%nat.
Proof.
  intros Hrt Hnodup Hcal Hids Hone Hindexed Hcarry Hknown.
  pose (J := fun (rest : list Game) (evs : list Resource) =>
    tags_round_trip rest ∧ NoDup (omap game_id rest) ∧ NoDup (id <$> evs)
    ∧ (∀ gid, (length (events_for gid evs) ≤ 1)%nat)
    ∧ (∀ r gid, r ∈ evs → event_tag (body r) = Some gid →
                index !! gid = Some (id r)
                ∨ (index !! gid = None ∧ gid ∉ omap game_id rest))
    ∧ (∀ gid event_id r, index !! gid = Some event_id → r ∈ evs →
                         id r = event_id → event_tag (body r) = Some gid)
    ∧ (∀ gid event_id, index !! gid = Some event_id → event_id ∈ id <$> evs)).
  assert (Hweaken : ∀ g rest gid,
            gid ∉ omap game_id (g :: rest) → gid ∉ omap game_id rest).
  { intros g rest gid Hnotin Hin. apply Hnotin. cbn.
    destruct (game_id g); [by right|done]. }
  assert (HJ0 : J games events) by (unfold J; split_and!; assumption).
  destruct (sync_each_events calendar_id index J) with
    (games := games) (n := n) (p := p) (events := events)
    as (events' & Hcals & HJ); [| | |exact Hcal|exact HJ0|].
  - (* a game that is skipped *)
    intros g rest evs (J1 & J2 & J3 & J4 & J5 & J6 & J7). unfold J.
    split_and!; try done.
    + by eapply tags_round_trip_cons.
    + cbn in J2. destruct (game_id g); [|done].
      by apply NoDup_cons in J2 as [_ ?].
    + intros r gid Hr Htag. destruct (J5 r gid Hr Htag) as [?|[? ?]]; eauto.
  - (* a create *)
    intros g rest evs event gid (J1 & J2 & J3 & J4 & J5 & J6 & J7)
      Hrun Hgid Hindex.
    assert (Htag : event_tag event = Some gid).
    { rewrite <- Hgid. apply J1; [by left|done]. }
    cbn in J2. rewrite Hgid in J2. apply NoDup_cons in J2 as [Hnew J2].
    unfold J. split_and!.
    + by eapply tags_round_trip_cons.
    + done.
    + rewrite insert_event_ids. apply NoDup_app. split_and!; [done| |].
      * intros x Hx Hx'%list_elem_of_singleton. subst x.
        by apply fresh_id_fresh in Hx.
      * apply NoDup_singleton.
    + intros gid'. rewrite events_for_insert.
      destruct (decide (event_tag event = Some gid')) as [Heq|_];
        [|by rewrite app_nil_r].
      assert (gid' = gid) as -> by congruence.
      assert (Hnone : events_for gid evs = []).
      { destruct (events_for gid evs) as [|r l] eqn:Hfor; [done|exfalso].
        assert (Hr : r ∈ events_for gid evs) by (rewrite Hfor; by left).
        apply list_elem_of_filter in Hr as [Hrtag Hr].
        destruct (J5 r gid Hr Hrtag) as [?|[_ Hnotin]]; [congruence|].
        apply Hnotin. cbn. rewrite Hgid. by left. }
      by rewrite Hnone.
    + intros r gid' Hr Hrtag. unfold insert_event in Hr.
      apply elem_of_app in Hr as [Hr|Hr%list_elem_of_singleton].
      * destruct (J5 r gid' Hr Hrtag) as [?|[? ?]]; eauto.
      * subst r. cbn in Hrtag. assert (gid' = gid) as -> by congruence.
        by right.
    + intros gid' event_id r Hidx Hr Hid. unfold insert_event in Hr.
      apply elem_of_app in Hr as [Hr|Hr%list_elem_of_singleton]; [by eapply J6|].
      exfalso. subst r. cbn in Hid. subst event_id.
      by eapply fresh_id_fresh, J7.
    + intros gid' event_id Hidx. rewrite insert_event_ids.
      apply elem_of_app. left. by eapply J7.
  - (* an update *)
    intros g rest evs event gid event_id (J1 & J2 & J3 & J4 & J5 & J6 & J7)
      Hrun Hgid Hindex Hpresent.
    assert (Htag : event_tag event = Some gid).
    { rewrite <- Hgid. apply J1; [by left|done]. }
    assert (Hsame : ∀ r, r ∈ evs → id r = event_id →
                         event_tag (body r) = event_tag event).
    { intros r Hr Hid. rewrite Htag. by eapply J6. }
    unfold J. split_and!.
    + by eapply tags_round_trip_cons.
    + cbn in J2. rewrite Hgid in J2. by apply NoDup_cons in J2 as [_ ?].
    + by rewrite update_event_ids.
    + intros gid'. by rewrite events_for_update.
    + intros r' gid' Hr' Hrtag.
      apply elem_of_update_event in Hr' as (r & Hr & Hid & [[Heq Hbody]|[_ ->]]).
      * left. rewrite Hbody in Hrtag.
        assert (gid' = gid) as -> by congruence. congruence.
      * destruct (J5 r gid' Hr Hrtag) as [?|[? ?]]; eauto.
    + intros gid' event_id' r' Hidx Hr' Hid'.
      apply elem_of_update_event in Hr' as (r & Hr & Hid & [[Heq Hbody]|[_ ->]]).
      * rewrite Hbody, <- (Hsame r Hr Heq). eapply J6; [done..|congruence].
      * by eapply J6.
    + intros gid' event_id' Hidx. rewrite update_event_ids. by eapply J7.
  - exists events'. destruct HJ as (_ & _ & ? & ? & _). done.
Qed.

End OneEventPerGame.

Section OneEventPerGameRun.
Context `{Externals}.

Lemma index_events_known items gid event_id :
  index_events items !! gid = Some event_id →
  ∃ r, r ∈ items ∧ id r = event_id ∧ event_tag (body r) = Some gid.
Proof.
  rewrite index_events_lookup.
  destruct (last (events_for gid items)) as [r|] eqn:Hlast; [|done].
  intros [= <-]. apply last_Some_elem_of in Hlast.
  apply list_elem_of_filter in Hlast as [Htag Hin]. eauto.
Qed.

(** C1 (amended). A run of reconcile on a provider that holds at most one
    event per (calendar id, game id) pair leaves at most one event per pair,
    and requests no game id twice, provided that: event ids are unique
    within a calendar, the listing request is served and returns every
    tagged event of the target calendar, the game ids of the input are
    pairwise distinct, and the tag of every transformed game parses back to
    its game id. *)
Theorem one_event_per_game_preserved credentials_dict calendar_id games p
    service :
  _build_calendar_service credentials_dict = inr service →
  one_event_per_game p → unique_ids p →
  faulty p = false → listing_complete calendar_id p →
  NoDup (omap game_id games) → tags_round_trip games →
  one_event_per_game
    (sync_games_to_calendar credentials_dict calendar_id games p).1
  ∧ ∃ log,
      calls (sync_games_to_calendar credentials_dict calendar_id games p).1
        = calls p ++ list_call calendar_id p :: log
      ∧ NoDup (call_game_id <$> log.*1).
Proof.
  intros Hbuild Hone Hids Hserved Hcomplete Hnodup Hrt. split.
  - rewrite (sync_games_to_calendar_state _ _ _ _ _ Hbuild).
    set (p1 := logged (list_call calendar_id p).1 (list_call calendar_id p).2 p).
    set (index := existing_events calendar_id p).
    destruct (calendars p !! calendar_id) as [events|] eqn:Hcal.
    + assert (Hlisting : listing calendar_id p
                = Some (filter (fun r => ends_after (time_min p) (body r) = true)
                          events)).
      { unfold listing. by rewrite Hserved, Hcal. }
      set (items := filter (fun r => ends_after (time_min p) (body r) = true)
                      events) in *.
      assert (Hsub : items `sublist_of` events) by apply sublist_filter.
      assert (Hindex : index = index_events items).
      { unfold index, existing_events. by rewrite Hlisting. }
      destruct (sync_each_one_event_per_game calendar_id index games 0%nat p1
                  events) as (events' & Hcals & _ & Hone');
        [done|done|exact Hcal|exact (Hids _ _ Hcal)
        |intros gid; exact (Hone _ _ gid Hcal)|..].
      * intros r gid Hr Htag. left. rewrite Hindex, index_events_lookup.
        assert (Hlisted : r ∈ events_for gid items).
        { apply list_elem_of_filter. split; [done|].
          apply list_elem_of_filter. split; [|done].
          eapply Hcomplete; [done..|]. by rewrite Htag. }
        assert (Hlen : (length (events_for gid items) ≤ 1)%nat).
        { etrans; [apply sublist_length, events_for_sublist, Hsub|].
          exact (Hone _ _ gid Hcal). }
        destruct (events_for gid items) as [|r1 [|r2 l]]; cbn in Hlen;
          [by apply elem_of_nil in Hlisted| |lia].
        apply list_elem_of_singleton in Hlisted. by subst r1.
      * intros gid event_id r Hidx Hr Hid. rewrite Hindex in Hidx.
        apply index_events_known in Hidx as (r0 & Hr0 & Hid0 & Htag0).
        assert (r = r0) as ->; [|done].
        apply (NoDup_fmap_elem_inj id events);
          [exact (Hids _ _ Hcal)|done| |congruence].
        by eapply sublist_subseteq.
      * intros gid event_id Hidx. rewrite Hindex in Hidx.
        apply index_events_known in Hidx as (r0 & Hr0 & <- & _).
        apply list_elem_of_fmap_2. by eapply sublist_subseteq.
      * intros c events_c gid. rewrite Hcals.
        destruct (decide (c = calendar_id)) as [->|Hne].
        -- rewrite lookup_insert_eq. intros [= <-]. apply Hone'.
        -- rewrite lookup_insert_ne by done. apply Hone.
    + intros c events_c gid.
      rewrite sync_each_unknown_calendar by exact Hcal. apply Hone.
  - destruct (sync_games_to_calendar_log credentials_dict calendar_id games p
                service Hbuild) as (log & _ & Hcalls & Hplan).
    exists log. split; [done|]. rewrite Hplan.
    by apply planned_calls_distinct.
Qed.

End OneEventPerGameRun.

(** ** Two runs in a row *)

Section Served.
Context `{Externals}.

(** The loop against a provider that has no fault scripted: every planned
    request is served, provided each update finds its event. *)
Lemma sync_each_served calendar_id index (J : list Game → list Resource → Prop) :
  (∀ g rest events,
     J (g :: rest) events → planned_call calendar_id index g = None →
     J rest events) →
  (∀ g rest events event gid,
     J (g :: rest) events →
     _create_event_from_game g = inr event → game_id g = Some gid →
     index !! gid = None →
     J rest (insert_event event events)) →
  (∀ g rest events event gid event_id,
     J (g :: rest) events →
     _create_event_from_game g = inr event → game_id g = Some gid →
     index !! gid = Some event_id →
     event_id ∈ id <$> events ∧ J rest (update_event event_id event events)) →
  ∀ games n p events,
    faults p = [] → calendars p !! calendar_id = Some events → J games events →
    ∃ events',
      calendars (sync_each calendar_id index games n p).1
        = <[calendar_id := events']> (calendars p)
      ∧ J [] events'
      ∧ faults (sync_each calendar_id index games n p).1 = []
      ∧ calls (sync_each calendar_id index games n p).1
        = calls p ++ ((fun c => (c, true)) <$> planned_calls calendar_id index games)
      ∧ (sync_each calendar_id index games n p).2
        = inr (n + length (planned_calls calendar_id index games))%nat.
Proof.
  intros Hskip Hinsert Hupdate games.
  induction games as [|game rest IH]; intros n p events Hfaults Hcal HJ.
  - exists events. cbn. rewrite insert_id, app_nil_r, Nat.add_0_r by done. done.
  - assert (Hfaulty : faulty p = false) by (unfold faulty; by rewrite Hfaults).
    rewrite sync_each_cons. unfold planned_calls. cbn [omap list_omap].
    fold (planned_calls calendar_id index rest).
    destruct (planned_call calendar_id index game) as [c|] eqn:Hplan;
      [|by eapply IH, Hskip].
    unfold planned_call in Hplan.
    destruct (_create_event_from_game game) as [e|event] eqn:Hrun; [done|].
    destruct (game_id game) as [gid|] eqn:Hgid; [|done].
    destruct (index !! gid) as [event_id|] eqn:Hindex; injection Hplan as <-.
    + destruct (Hupdate _ _ _ _ _ _ HJ Hrun Hgid Hindex) as [Hpresent HJ'].
      rewrite (apply_write_update _ _ _ events) by done. cbn [fst snd].
      edestruct (IH (n + 1)%nat
        (set_calendars
           (<[calendar_id := update_event event_id event events]> (calendars p))
           (logged (UpdateEvent calendar_id event_id event) true p)))
        as (events' & Hcals & HJ'' & Hfaults' & Hcalls & Hn);
        [by cbn; rewrite Hfaults|cbn; apply lookup_insert_eq|exact HJ'|].
      exists events'. split_and!; [|done|done| |].
      * etrans; [exact Hcals|]. cbn. by rewrite insert_insert_eq.
      * etrans; [exact Hcalls|]. cbn. by rewrite <- app_assoc.
      * etrans; [exact Hn|]. f_equal. cbn. lia.
    + assert (HJ' := Hinsert _ _ _ _ _ HJ Hrun Hgid Hindex).
      rewrite (apply_write_insert _ _ events) by done. cbn [fst snd].
      edestruct (IH (n + 1)%nat
        (set_calendars
           (<[calendar_id := insert_event event events]> (calendars p))
           (logged (InsertEvent calendar_id event) true p)))
        as (events' & Hcals & HJ'' & Hfaults' & Hcalls & Hn);
        [by cbn; rewrite Hfaults|cbn; apply lookup_insert_eq|exact HJ'|].
      exists events'. split_and!; [|done|done| |].
      * etrans; [exact Hcals|]. cbn. by rewrite insert_insert_eq.
      * etrans; [exact Hcalls|]. cbn. by rewrite <- app_assoc.
      * etrans; [exact Hn|]. f_equal. cbn. lia.
Qed.

End Served.

Section TwoRuns.
Context `{Externals}.

Lemma planned_call_None calendar_id index g event gid :
  _create_event_from_game g = inr event → game_id g = Some gid →
  planned_call calendar_id index g ≠ None.
Proof. intros Hrun Hgid. unfold planned_call. by rewrite Hrun, Hgid. Qed.

(** After a served run, every game the transform accepts has an event with
    its tag in the calendar, and that event has the body of some input
    game. *)
Lemma sync_each_leaves_events calendar_id items games n p events time_min' :
  faults p = [] → calendars p !! calendar_id = Some events →
  NoDup (id <$> events) → items `sublist_of` events →
  tags_round_trip games →
  (∀ g event, g ∈ games → _create_event_from_game g = inr event →
              ends_after time_min' event = true) →
  ∃ events',
    calendars (sync_each calendar_id (index_events items) games n p).1
      = <[calendar_id := events']> (calendars p)
    ∧ faults (sync_each calendar_id (index_events items) games n p).1 = []
    ∧ NoDup (id <$> events')
    ∧ ∀ g event gid,
        g ∈ games → _create_event_from_game g = inr event →
        game_id g = Some gid →
        ∃ r, r ∈ events' ∧ event_tag (body r) = Some gid
             ∧ ends_after time_min' (body r) = true.
Proof.
  intros Hfaults Hcal Hids Hsub Hrt Hvisible.
  set (index := index_events items).
  pose (J := fun (rest : list Game) (evs : list Resource) =>
    (∀ g, g ∈ rest → g ∈ games) ∧ NoDup (id <$> evs)
    ∧ (∀ gid event_id r, index !! gid = Some event_id → r ∈ evs →
                         id r = event_id → event_tag (body r) = Some gid)
    ∧ (∀ gid event_id, index !! gid = Some event_id → event_id ∈ id <$> evs)
    ∧ (∀ g event gid,
         g ∈ games → _create_event_from_game g = inr event →
         game_id g = Some gid →
         g ∈ rest
         ∨ ∃ r, r ∈ evs ∧ event_tag (body r) = Some gid
                ∧ ends_after time_min' (body r) = true)).
  assert (HJ0 : J games events).
  { unfold J. split_and!; [done|done|..].
    - intros gid event_id r Hidx Hr Hid.
      apply index_events_known in Hidx as (r0 & Hr0 & Hid0 & Htag0).
      assert (r = r0) as ->; [|done].
      apply (NoDup_fmap_elem_inj id events); [done|done| |congruence].
      by eapply sublist_subseteq.
    - intros gid event_id Hidx.
      apply index_events_known in Hidx as (r0 & Hr0 & <- & _).
      apply list_elem_of_fmap_2. by eapply sublist_subseteq.
    - intros g event gid Hg _ _. by left. }
  destruct (sync_each_served calendar_id index J) with
    (games := games) (n := n) (p := p) (events := events)
    as (events' & Hcals & HJ & Hfaults' & _ & _);
    [| | |exact Hfaults|exact Hcal|exact HJ0|].
  - (* a game the transform rejects *)
    intros g0 rest evs (J1 & J2 & J3 & J4 & J5) Hplan. unfold J.
    split_and!; [|done..|].
    + intros g Hg. apply J1. by right.
    + intros g event gid Hg Hrun Hgid.
      destruct (J5 g event gid Hg Hrun Hgid) as [Hin|?]; [|by right].
      apply elem_of_cons in Hin as [->|Hin]; [|by left].
      exfalso.
      exact (planned_call_None calendar_id index g0 event gid Hrun Hgid Hplan).
  - (* a create *)
    intros g0 rest evs event0 gid0 (J1 & J2 & J3 & J4 & J5) Hrun0 Hgid0 Hindex.
    assert (Hg0 : g0 ∈ games) by (apply J1; by left).
    assert (Htag0 : event_tag event0 = Some gid0).
    { rewrite <- Hgid0. by apply Hrt. }
    unfold J. split_and!.
    + intros g Hg. apply J1. by right.
    + rewrite insert_event_ids. apply NoDup_app. split_and!; [done| |].
      * intros x Hx Hx'%list_elem_of_singleton. subst x.
        by apply fresh_id_fresh in Hx.
      * apply NoDup_singleton.
    + intros gid event_id r Hidx Hr Hid. unfold insert_event in Hr.
      apply elem_of_app in Hr as [Hr|Hr%list_elem_of_singleton]; [by eapply J3|].
      exfalso. subst r. cbn in Hid. subst event_id.
      by eapply fresh_id_fresh, J4.
    + intros gid event_id Hidx. rewrite insert_event_ids.
      apply elem_of_app. left. by eapply J4.
    + intros g event gid Hg Hrun Hgid.
      destruct (J5 g event gid Hg Hrun Hgid) as [Hin|(r & Hr & Htag & Hvis)].
      * apply elem_of_cons in Hin as [->|Hin]; [|by left].
        right. exists {| id := fresh_id (id <$> evs); body := event0 |}.
        assert (event = event0) as -> by congruence.
        assert (gid = gid0) as -> by congruence.
        split_and!; [|done|exact (Hvisible g0 event0 Hg0 Hrun0)].
        unfold insert_event. apply elem_of_app. right. by left.
      * right. exists r. split_and!; [|done..].
        unfold insert_event. apply elem_of_app. by left.
  - (* an update *)
    intros g0 rest evs event0 gid0 event_id0 (J1 & J2 & J3 & J4 & J5)
      Hrun0 Hgid0 Hindex.
    assert (Hg0 : g0 ∈ games) by (apply J1; by left).
    assert (Htag0 : event_tag event0 = Some gid0).
    { rewrite <- Hgid0. by apply Hrt. }
    assert (Hpresent : event_id0 ∈ id <$> evs) by by eapply J4.
    split; [done|]. unfold J. split_and!.
    + intros g Hg. apply J1. by right.
    + by rewrite update_event_ids.
    + intros gid event_id r' Hidx Hr' Hid'.
      apply elem_of_update_event in Hr' as (r & Hr & Hid & [[Heq Hbody]|[_ ->]]).
      * rewrite Hbody, Htag0.
        assert (Hold : event_tag (body r) = Some gid)
          by (eapply J3; [done..|congruence]).
        assert (Hold0 : event_tag (body r) = Some gid0) by by eapply J3.
        congruence.
      * by eapply J3.
    + intros gid event_id Hidx. rewrite update_event_ids. by eapply J4.
    + intros g event gid Hg Hrun Hgid.
      assert (Hupdated : ∀ r, r ∈ evs → id r = event_id0 →
                {| id := id r; body := event0 |}
                ∈ update_event event_id0 event0 evs).
      { intros r Hr Hid. unfold update_event. apply list_elem_of_fmap.
        exists r. split; [|done]. by rewrite decide_True. }
      destruct (J5 g event gid Hg Hrun Hgid) as [Hin|(r & Hr & Htag & Hvis)].
      * apply elem_of_cons in Hin as [->|Hin]; [|by left].
        right. apply list_elem_of_fmap in Hpresent as (r & Hid & Hr).
        exists {| id := id r; body := event0 |}.
        assert (gid = gid0) as -> by congruence.
        split_and!; [by apply Hupdated|done|exact (Hvisible g0 event0 Hg0 Hrun0)].
      * right. destruct (decide (id r = event_id0)) as [Heq|Hne].
        -- exists {| id := id r; body := event0 |}.
           assert (Hold0 : event_tag (body r) = Some gid0) by by eapply J3.
           split_and!; [by apply Hupdated|cbn; congruence|exact (Hvisible g0 event0 Hg0 Hrun0)].
        -- exists r. split_and!; [|done..].
           unfold update_event. apply list_elem_of_fmap.
           exists r. split; [|done]. by rewrite decide_False.
  - exists events'. destruct HJ as (_ & Hids' & _ & _ & HK).
    split_and!; [done..|].
    intros g event gid Hg Hrun Hgid.
    destruct (HK g event gid Hg Hrun Hgid) as [Hin|?]; [|done].
    by apply elem_of_nil in Hin.
Qed.

(** When the index knows an event for every game the transform accepts,
    the loop only updates. *)
Lemma sync_each_only_updates calendar_id index games n p events :
  faults p = [] → calendars p !! calendar_id = Some events →
  (∀ g event gid,
     g ∈ games → _create_event_from_game g = inr event → game_id g = Some gid →
     ∃ event_id, index !! gid = Some event_id ∧ event_id ∈ id <$> events) →
  ∃ events',
    calendars (sync_each calendar_id index games n p).1
      = <[calendar_id := events']> (calendars p)
    ∧ id <$> events' = id <$> events
    ∧ calls (sync_each calendar_id index games n p).1
      = calls p ++ ((fun c => (c, true)) <$> planned_calls calendar_id index games)
    ∧ (sync_each calendar_id index games n p).2
      = inr (n + length (planned_calls calendar_id index games))%nat
    ∧ Forall (fun c => is_update c = true) (planned_calls calendar_id index games).
Proof.
  intros Hfaults Hcal Hknown.
  pose (J := fun (rest : list Game) (evs : list Resource) =>
    (∀ g, g ∈ rest → g ∈ games) ∧ id <$> evs = id <$> events).
  destruct (sync_each_served calendar_id index J) with
    (games := games) (n := n) (p := p) (events := events)
    as (events' & Hcals & HJ & _ & Hcalls & Hn);
    [| | |exact Hfaults|exact Hcal|by unfold J|].
  - intros g rest evs [J1 J2] _. split; [|done]. intros g' Hg'. apply J1. by right.
  - intros g rest evs event gid [J1 J2] Hrun Hgid Hindex. exfalso.
    destruct (Hknown g event gid) as (event_id & Hidx & _); [|done..|congruence].
    apply J1. by left.
  - intros g rest evs event gid event_id [J1 J2] Hrun Hgid Hindex.
    destruct (Hknown g event gid) as (event_id' & Hidx & Hin); [|done..|].
    { apply J1. by left. }
    assert (event_id' = event_id) as -> by congruence.
    split; [by rewrite J2|]. split.
    + intros g' Hg'. apply J1. by right.
    + by rewrite update_event_ids.
  - exists events'. destruct HJ as [_ Hids]. split_and!; [done..|].
    clear Hcals Hcalls Hn. induction games as [|g rest IH]; [constructor|].
    unfold planned_calls. cbn [omap list_omap].
    fold (planned_calls calendar_id index rest).
    assert (Hrest : Forall (fun c => is_update c = true)
                      (planned_calls calendar_id index rest)).
    { apply IH. intros g' event gid Hg'. apply Hknown. by right. }
    unfold planned_call.
    destruct (_create_event_from_game g) as [e|event] eqn:Hrun; [done|].
    destruct (game_id g) as [gid|] eqn:Hgid; [|done].
    destruct (Hknown g event gid) as (event_id & Hidx & _); [by left|done..|].
    rewrite Hidx. by constructor.
Qed.

(** C2 (amended). Running reconcile twice in a row with an unchanged game
    list, against a provider that keeps its events, has no fault scripted
    and knows the calendar, with unique event ids, tags that parse back to
    the game ids, and a second listing that returns the events of the games:
    the second run issues only update requests, all served, and no create,
    so the number of events after it is the number after the first run. *)
Theorem second_run_only_updates credentials_dict calendar_id games p service
    now' :
  _build_calendar_service credentials_dict = inr service →
  faults p = [] → is_Some (calendars p !! calendar_id) → unique_ids p →
  tags_round_trip games →
  (∀ g event, g ∈ games → _create_event_from_game g = inr event →
              ends_after (now' ++ lit "Z") event = true) →
  let first := sync_games_to_calendar credentials_dict calendar_id games p in
  let second := sync_games_to_calendar credentials_dict calendar_id games
                  (set_clock now' first.1) in
  ∃ log,
    calls second.1
      = calls first.1 ++ (ListEvents calendar_id (now' ++ lit "Z"), true) :: log
    ∧ Forall (fun entry => is_update entry.1 = true ∧ entry.2 = true) log
    ∧ second.2 = inr (length log)
    ∧ length <$> calendars second.1 !! calendar_id
      = length <$> calendars first.1 !! calendar_id.
Proof.
  intros Hbuild Hfaults [events Hcal] Hids Hrt Hvisible first second.
  (* the first run *)
  assert (Hfaulty : faulty p = false) by (unfold faulty; by rewrite Hfaults).
  set (items := filter (fun r => ends_after (time_min p) (body r) = true) events).
  assert (Hlisting : listing calendar_id p = Some items).
  { unfold listing. by rewrite Hfaulty, Hcal. }
  destruct (sync_each_leaves_events calendar_id items games 0%nat
              (logged (list_call calendar_id p).1 (list_call calendar_id p).2 p)
              events (now' ++ lit "Z"))
    as (events1 & Hcals1 & Hfaults1 & Hids1 & Hleft);
    [by cbn; rewrite Hfaults|exact Hcal|exact (Hids _ _ Hcal)
    |apply sublist_filter|exact Hrt|exact Hvisible|].
  assert (Hfirst : first.1
            = (sync_each calendar_id (index_events items) games 0%nat
                 (logged (list_call calendar_id p).1
                    (list_call calendar_id p).2 p)).1).
  { unfold first. rewrite (sync_games_to_calendar_state _ _ _ _ _ Hbuild).
    unfold existing_events. by rewrite Hlisting. }
  rewrite <- Hfirst in Hcals1, Hfaults1.
  assert (Hcal1 : calendars first.1 !! calendar_id = Some events1).
  { rewrite Hcals1. apply lookup_insert_eq. }
  (* the second run *)
  set (p1 := set_clock now' first.1) in *.
  assert (Hfaulty1 : faulty p1 = false) by (unfold faulty; cbn; by rewrite Hfaults1).
  set (items' := filter (fun r => ends_after (now' ++ lit "Z") (body r) = true)
                   events1).
  assert (Hlisting1 : listing calendar_id p1 = Some items').
  { unfold listing. rewrite Hfaulty1. cbn [calendars p1 set_clock].
    by rewrite Hcal1. }
  assert (Hlist_call : list_call calendar_id p1
                       = (ListEvents calendar_id (now' ++ lit "Z"), true)).
  { unfold list_call. by rewrite Hlisting1. }
  assert (Hknown : ∀ g event gid,
            g ∈ games → _create_event_from_game g = inr event →
            game_id g = Some gid →
            ∃ event_id, index_events items' !! gid = Some event_id
                        ∧ event_id ∈ id <$> events1).
  { intros g event gid Hg Hrun Hgid.
    destruct (Hleft g event gid Hg Hrun Hgid) as (r & Hr & Htag & Hvis).
    assert (Hlisted : r ∈ events_for gid items').
    { apply list_elem_of_filter. split; [done|].
      by apply list_elem_of_filter. }
    rewrite index_events_lookup.
    destruct (last (events_for gid items')) as [r'|] eqn:Hlast.
    - exists (id r'). split; [done|]. apply list_elem_of_fmap_2.
      apply last_Some_elem_of in Hlast.
      apply list_elem_of_filter in Hlast as [_ Hlast].
      by apply list_elem_of_filter in Hlast as [_ ?].
    - apply last_None in Hlast. rewrite Hlast in Hlisted.
      by apply elem_of_nil in Hlisted. }
  destruct (sync_each_only_updates calendar_id (index_events items') games 0%nat
              (logged (list_call calendar_id p1).1 (list_call calendar_id p1).2 p1)
              events1)
    as (events2 & Hcals2 & Hids2 & Hcalls2 & Hn2 & Hupdates);
    [by cbn; rewrite Hfaults1|exact Hcal1|exact Hknown|].
  assert (Hindex1 : existing_events calendar_id p1 = index_events items').
  { unfold existing_events. by rewrite Hlisting1. }
  exists ((fun c => (c, true))
            <$> planned_calls calendar_id (index_events items') games).
  split_and!.
  - unfold second. rewrite (sync_games_to_calendar_state _ _ _ _ _ Hbuild).
    rewrite Hindex1, Hcalls2, Hlist_call. cbn. by rewrite <- app_assoc.
  - apply Forall_fmap. eapply Forall_impl; [exact Hupdates|]. by intros c ?.
  - unfold second. rewrite (sync_games_to_calendar_result _ _ _ _ _ Hbuild).
    rewrite Hindex1, Hn2. by rewrite length_fmap.
  - unfold second. rewrite (sync_games_to_calendar_state _ _ _ _ _ Hbuild).
    rewrite Hindex1, Hcals2. cbn [calendars logged set_calls set_faults p1 set_clock].
    rewrite lookup_insert_eq, Hcal1. cbn.
    f_equal. by rewrite <- (length_fmap id events2), Hids2, length_fmap.
Qed.

End TwoRuns.

(** ** Duplicates in the listing *)

Section Duplicates.
Context `{Externals}.


End Duplicates.

(** ** The sync routes *)

Section RoutesFacts.
Context `{Externals}.

(** The sync route does not call the reconciler at all when no game is
    selected: no request reaches the provider and the stores stay as they
    are. *)
Lemma sync_calendar_without_games current_user w u credentials_dict :
  users w !! current_user = Some u →
  google_credentials u = Some credentials_dict →
  favorite_teams u ≠ [] →
  games_of_teams (favorite_teams u) (games w) = [] →
  sync_calendar current_user w
  = (w, inr (CalendarSyncResponse (default [] (calendar_id u)) 0
               (lit "No games found for selected teams"))).
Proof.
  intros Hu Hcreds Hteams Hgames.
  unfold sync_calendar, try_except, mbind, M_bind, bind, get_user,
    get_user_teams, find_games_by_team_id, raise, mret, M_ret, ret.
  cbv beta iota zeta. rewrite Hu. cbv beta iota zeta. rewrite Hcreds.
  cbv beta iota zeta. rewrite ?Hu. cbv beta iota zeta.
  destruct (favorite_teams u) as [|t ts]; [done|].
  cbv beta iota zeta. by rewrite Hgames.
Qed.

(** C9. The orchestrator writes [last_sync] only with a count in hand.  On
    [POST /calendar/sync], for a request that reaches the reconciler: when
    the reconcile call raises, the user store is left as it was and the
    request fails with status 500; when it returns a count, partial or not,
    the user's [last_sync] then holds that count and the time of the
    request, the rest of the user's document and every other user being as
    before.  On [GET /calendar/callback], for a request that reaches the
    initial sync, the reconcile call cannot raise (the credentials of the
    token exchange hold every key the service needs): it returns a count,
    and the [last_sync] of the linked user then holds that count.  A
    callback for a user without favourite teams makes no reconcile call and
    leaves [last_sync] null. *)
Theorem last_sync_needs_a_count :
  (∀ current_user w u credentials_dict calendar,
     users w !! current_user = Some u →
     google_credentials u = Some credentials_dict →
     calendar_id u = Some calendar →
     favorite_teams u ≠ [] →
     games_of_teams (favorite_teams u) (games w) ≠ [] →
     let reconcile :=
       sync_games_to_calendar credentials_dict calendar
         (games_of_teams (favorite_teams u) (games w)) (provider w) in
     let request := sync_calendar current_user w in
     provider request.1 = reconcile.1
     ∧ (∀ e, reconcile.2 = inl e →
          users request.1 = users w
          ∧ request.2 = inl (HTTPException 500 "Failed to sync calendar"))
     ∧ (∀ synced_count, reconcile.2 = inr synced_count →
          (∃ message,
             request.2 = inr (CalendarSyncResponse calendar synced_count message))
          ∧ (∀ other, other ≠ current_user →
               users request.1 !! other = users w !! other)
          ∧ ∃ u',
              users request.1 !! current_user = Some u'
              ∧ last_sync (calendar_status u')
                = Some {| timestamp := utcnow w; games_synced := synced_count |}
              ∧ is_connected (calendar_status u')
                = is_connected (calendar_status u)
              ∧ status_calendar_id (calendar_status u')
                = status_calendar_id (calendar_status u)
              ∧ credentials (calendar_status u') = credentials (calendar_status u)
              ∧ favorite_teams u' = favorite_teams u
              ∧ google_credentials u' = google_credentials u
              ∧ calendar_id u' = calendar_id u))
  ∧ (∀ code state w user_id u credentials_dict calendar p0,
       decode_state (utcnow w) state = Some user_id →
       handle_oauth_callback code = inr credentials_dict →
       create_calendar credentials_dict (lit "NFL Game Schedule") (provider w)
       = (p0, inr calendar) →
       users w !! user_id = Some u →
       favorite_teams u ≠ [] →
       let reconcile :=
         sync_games_to_calendar credentials_dict calendar
           (games_of_teams (favorite_teams u) (games w)) p0 in
       let request := handle_calendar_callback code state w in
       provider request.1 = reconcile.1
       ∧ ∃ synced_count,
           reconcile.2 = inr synced_count
           ∧ request.2 = inr SETUP_SUCCESS
           ∧ (∀ other, other ≠ user_id →
                users request.1 !! other = users w !! other)
           ∧ ∃ u',
               users request.1 !! user_id = Some u'
               ∧ last_sync (calendar_status u')
                 = Some {| timestamp := utcnow w;
                           games_synced := synced_count |}
               ∧ is_connected (calendar_status u') = true
               ∧ status_calendar_id (calendar_status u') = Some calendar
               ∧ credentials (calendar_status u') = Some credentials_dict
               ∧ favorite_teams u' = favorite_teams u)
  ∧ (∀ code state w user_id u credentials_dict calendar p0,
       decode_state (utcnow w) state = Some user_id →
       handle_oauth_callback code = inr credentials_dict →
       create_calendar credentials_dict (lit "NFL Game Schedule") (provider w)
       = (p0, inr calendar) →
       users w !! user_id = Some u →
       favorite_teams u = [] →
       let request := handle_calendar_callback code state w in
       provider request.1 = p0
       ∧ request.2 = inr SETUP_SUCCESS
       ∧ ∃ u',
           users request.1 !! user_id = Some u'
           ∧ last_sync (calendar_status u') = None
           ∧ is_connected (calendar_status u') = true).
Proof.
  split_and!.
  - intros current_user w u credentials_dict calendar Hu Hcreds Hcal Hteams
      Hgames reconcile request.
    unfold request, sync_calendar, try_except, mbind, M_bind, bind, get_user,
      get_user_teams, find_games_by_team_id, lift, getitem, on_provider, zoom,
      update_last_sync, update_one, raise, mret, M_ret, ret.
    cbv beta iota zeta. rewrite Hu. cbv beta iota zeta. rewrite Hcreds, Hcal.
    cbv beta iota zeta. rewrite ?Hu. cbv beta iota zeta.
    destruct (favorite_teams u) as [|t ts] eqn:Hts; [done|].
    cbv beta iota zeta.
    destruct (games_of_teams (t :: ts) (games w)) as [|g gs] eqn:Hgs; [done|].
    cbv beta iota zeta. subst reconcile.
    destruct (sync_games_to_calendar _ _ _ _) as [p' [e|n]] eqn:Hrec;
      cbn [fst snd provider users set_provider].
    + apply sync_games_to_calendar_raises in Hrec as (_ & -> & _).
      split; [done|]. split; [|done]. by intros e _.
    + rewrite Hu. cbn [fst snd provider users set_provider set_users].
      split; [done|]. split; [done|]. intros synced_count [= <-].
      split; [by eexists|]. split.
      * intros other Hother. by rewrite lookup_insert_ne.
      * exists (last_sync_update n (utcnow w) u).
        rewrite lookup_insert_eq. unfold last_sync_update.
        cbn [calendar_status last_sync is_connected status_calendar_id
             credentials favorite_teams google_credentials calendar_id].
        by rewrite Hts.
  - intros code state w user_id u credentials_dict calendar p0 Hstate Hoauth
      Hcreate Hu Hteams reconcile request.
    unfold request, handle_calendar_callback, try_except, mbind, M_bind, bind,
      get_user_teams, find_games_by_team_id, lift, on_provider, zoom,
      update_calendar_status, update_last_sync, update_one, mret, M_ret, ret.
    cbv beta iota zeta. rewrite Hstate, Hoauth. cbv beta iota zeta.
    rewrite Hcreate. cbn [users provider set_provider utcnow games].
    rewrite Hu. cbn [users provider set_provider set_users utcnow games].
    rewrite lookup_insert_eq.
    set (linked := calendar_status_update calendar credentials_dict (utcnow w) u).
    assert (Hfav : favorite_teams linked = favorite_teams u) by done.
    rewrite Hfav.
    destruct (favorite_teams u) as [|t ts] eqn:Hts; [done|].
    subst reconcile.
    cbn [fst snd users provider set_provider set_users utcnow games].
    destruct (sync_games_to_calendar _ _ _ _) as [p' [e|n]] eqn:Hrec;
      cbn [fst snd users provider set_provider set_users utcnow games].
    + apply sync_games_to_calendar_raises in Hrec as (_ & _ & Hbuild).
      rewrite (handle_oauth_callback_builds code credentials_dict Hoauth)
        in Hbuild. done.
    + rewrite lookup_insert_eq.
      cbn [fst snd users provider set_provider set_users utcnow games].
      split; [done|]. exists n. split; [done|]. split; [done|]. split.
      * intros other Hother. rewrite insert_insert_eq.
        by rewrite lookup_insert_ne.
      * exists (last_sync_update n (utcnow w) linked).
        rewrite lookup_insert_eq. unfold last_sync_update, linked,
          calendar_status_update.
        cbn [calendar_status last_sync is_connected status_calendar_id
             credentials favorite_teams google_credentials calendar_id].
        by rewrite Hts.
  - intros code state w user_id u credentials_dict calendar p0 Hstate Hoauth
      Hcreate Hu Hteams request.
    unfold request, handle_calendar_callback, try_except, mbind, M_bind, bind,
      get_user_teams, find_games_by_team_id, lift, on_provider, zoom,
      update_calendar_status, update_last_sync, update_one, mret, M_ret, ret.
    cbv beta iota zeta. rewrite Hstate, Hoauth. cbv beta iota zeta.
    rewrite Hcreate. cbn [users provider set_provider utcnow games].
    rewrite Hu. cbn [users provider set_provider set_users utcnow games].
    rewrite lookup_insert_eq.
    set (linked := calendar_status_update calendar credentials_dict (utcnow w) u).
    assert (Hfav : favorite_teams linked = favorite_teams u) by done.
    rewrite Hfav, Hteams.
    cbn [fst snd users provider set_provider set_users utcnow games].
    split; [done|]. split; [done|]. exists linked.
    by rewrite lookup_insert_eq.
Qed.

End RoutesFacts.

(** ** Concrete runs *)

Import Sample.

(** A leading space in the id is lost on the way back. *)
Lemma tag_round_trip_refuted :
  ∃ event,
    _create_event_from_game g_spaced = inr event
    ∧ game_id g_spaced = Some (lit " G1")
    ∧ event_tag event = Some (lit "G1")
    ∧ event_tag event ≠ game_id g_spaced.
Proof.
  eexists. split; [vm_compute; reflexivity|].
  split; [reflexivity|]. split; [vm_compute; reflexivity|].
  vm_compute. discriminate.
Qed.

(** An id with a colon comes back cut at the colon. *)
Example colon_id_is_cut :
  event_tag (event_of g_colon) = Some (lit "2031").
Proof. vm_compute. reflexivity. Qed.

Lemma clean_id_G1 : clean_id (lit "G1").
Proof.
  split_and!; [apply (bool_decide_unpack _); by vm_compute..|].
  vm_compute. reflexivity.
Qed.

Lemma tag_round_trip_witness :
  ∃ event text,
    _create_event_from_game g1 = inr event
    ∧ description event = Some text
    ∧ parse_description text = Some (lit "G1")
    ∧ event_tag event = Some (lit "G1").
Proof.
  eexists _, _. split; [vm_compute; reflexivity|].
  split; [reflexivity|].
  eapply (tag_round_trip g1 _ (lit "G1")).
  - vm_compute. reflexivity.
  - reflexivity.
  - reflexivity.
  - exact clean_id_G1.
  - vm_compute. reflexivity.
Defined.

(** A game without [week] is rejected although its date, time and team
    names are fine. *)
Lemma transform_fails_exactly_when_refuted :
  succeeded (_create_event_from_game g_weekless) = false
  ∧ date_parses g_weekless ∧ time_parses g_weekless
  ∧ team_names_present g_weekless.
Proof.
  split; [vm_compute; reflexivity|]. split_and!.
  - eexists _, _. split; [reflexivity|vm_compute; reflexivity].
  - eexists _, _. split; [reflexivity|vm_compute; reflexivity].
  - eexists _, _, _, _, _. split_and!; reflexivity.
Qed.

(** A game whose end time would fall in year 10000 is rejected with
    [OverflowError]. *)
Example end_of_time_is_rejected :
  _create_event_from_game g_last_day = inl OverflowError.
Proof. vm_compute. reflexivity. Qed.

(** [g1] is accepted; the game of the last evening of year 9999 raises
    [OverflowError]; [g1] without its week raises [KeyError]. *)
Lemma transform_fails_exactly_when_witness :
  succeeded (_create_event_from_game g1) = true
  ∧ _create_event_from_game g_last_day = inl OverflowError
  ∧ ∃ key, key ∈ ["week"; "season"; "game_id"]%string
           ∧ _create_event_from_game g_weekless = inl (KeyError key).
Proof.
  assert (Hearly : ∀ g, game_time g = Some (lit "20:00") →
                        kickoff_leaves_three_hours g).
  { intros g Hg dtext ttext d t _ _ Ht Hpt. rewrite Hg in Ht.
    injection Ht as <-. vm_compute in Hpt. injection Hpt as <-.
    left. cbn. lia. }
  split_and!.
  - destruct (transform_fails_exactly_when g1) as [[_ Haccepted] _].
    apply Haccepted. split_and!.
    + eexists _, _. split; [reflexivity|vm_compute; reflexivity].
    + eexists _, _. split; [reflexivity|vm_compute; reflexivity].
    + by apply Hearly.
    + eexists _, _, _, _, _. split_and!; reflexivity.
    + split_and!; by eexists.
  - destruct (transform_fails_exactly_when g_last_day)
      as (_ & _ & _ & _ & _ & Hoverflow & _).
    apply Hoverflow.
    + eexists _, _. split; [reflexivity|vm_compute; reflexivity].
    + eexists _, _. split; [reflexivity|vm_compute; reflexivity].
    + intros Hrange.
      destruct (Hrange (lit "9999-12-31") (lit "22:00")
                  {| year := 9999; month := 12; day := 31 |}
                  {| hour := 22; minute := 0 |})
        as [Hlt|[Hlt|[Hlt|Hlt]]];
        try (vm_compute; reflexivity); vm_compute in Hlt; discriminate Hlt.
  - destruct (transform_fails_exactly_when g_weekless)
      as (_ & _ & _ & _ & _ & _ & _ & Hlabel).
    apply Hlabel.
    + eexists _, _. split; [reflexivity|vm_compute; reflexivity].
    + eexists _, _. split; [reflexivity|vm_compute; reflexivity].
    + by apply Hearly.
    + eexists _, _, _, _, _. split_and!; reflexivity.
    + intros ([wk Hwk] & _). discriminate Hwk.
Defined.

Lemma sample_service :
  _build_calendar_service credentials_dict
  = inr {| service_credentials := credentials_dict |}.
Proof. vm_compute. reflexivity. Qed.

(** Two records that share an id, on an empty calendar: two events with the
    same tag. *)
Lemma dedup_refuted :
  let run := sync_games_to_calendar credentials_dict cal [g1; g1_rescheduled]
               (provider_with [] []) in
  game_id g1 = game_id g1_rescheduled
  ∧ run.2 = inr 2%nat
  ∧ length (filter (fun entry => is_insert entry.1 = true) (calls run.1)) = 2%nat
  ∧ (calendars run.1 !! cal
     = Some [ {| id := lit "e"; body := event_of g1 |};
              {| id := lit "ee"; body := event_of g1_rescheduled |} ]).
Proof. vm_compute. split_and!; reflexivity. Qed.

Lemma duplicate_records_are_both_created_witness :
  let run := sync_games_to_calendar credentials_dict cal [g1; g1_rescheduled]
               (provider_with [] []) in
  run.2 = inr 2%nat
  ∧ calendars run.1 !! cal
    = Some [ {| id := fresh_id []; body := event_of g1 |};
             {| id := fresh_id [fresh_id []]; body := event_of g1_rescheduled |} ]
  ∧ calls run.1
    = calls (provider_with [] [])
      ++ [ (ListEvents cal (time_min (provider_with [] [])), true);
           (InsertEvent cal (event_of g1), true);
           (InsertEvent cal (event_of g1_rescheduled), true) ].
Proof.
  apply (duplicate_records_are_both_created credentials_dict cal
           g1 g1_rescheduled (event_of g1) (event_of g1_rescheduled) (lit "G1")
           (provider_with [] []) _ sample_service);
    vm_compute; reflexivity.
Defined.

(** The run that breaks the invariant: it starts from an empty calendar and
    ends with two events for [G1]. *)
Lemma one_event_per_game_refuted :
  let p := provider_with [] [] in
  let run := sync_games_to_calendar credentials_dict cal [g1; g1_rescheduled] p in
  one_event_per_game p ∧ ¬ one_event_per_game run.1.
Proof.
  split.
  - intros c events gid Hc. unfold provider_with in Hc. cbn in Hc.
    apply lookup_singleton_Some in Hc as [_ <-]. cbn. lia.
  - intros Hone.
    specialize (Hone cal
      [ {| id := lit "e"; body := event_of g1 |};
        {| id := lit "ee"; body := event_of g1_rescheduled |} ] (lit "G1")).
    assert (Hlen : (2 ≤ 1)%nat); [|lia].
    etrans; [|apply Hone; vm_compute; reflexivity].
    vm_compute. lia.
Qed.

Lemma provider_with_lookup events script c events' :
  calendars (provider_with events script) !! c = Some events' →
  events' = events.
Proof. cbn. by intros [_ <-]%lookup_singleton_Some. Qed.

Lemma sample_games_round_trip : tags_round_trip [g1; g2; g3].
Proof.
  intros g event Hin Hrun.
  repeat (apply elem_of_cons in Hin as [->|Hin]);
    [..|by apply elem_of_nil in Hin];
    vm_compute in Hrun; injection Hrun as <-; vm_compute; reflexivity.
Qed.

Lemma one_event_per_game_preserved_witness :
  let run := sync_games_to_calendar credentials_dict cal [g1; g2; g3]
               (provider_with [] []) in
  one_event_per_game run.1
  ∧ ∃ log,
      calls run.1
      = calls (provider_with [] []) ++ list_call cal (provider_with [] []) :: log
      ∧ NoDup (call_game_id <$> log.*1).
Proof.
  apply (one_event_per_game_preserved credentials_dict cal [g1; g2; g3]
           (provider_with [] []) _ sample_service).
  - intros c events gid ->%provider_with_lookup. cbn. lia.
  - intros c events ->%provider_with_lookup. constructor.
  - reflexivity.
  - intros events r ->%provider_with_lookup Hr. by apply elem_of_nil in Hr.
  - apply (bool_decide_unpack _). by vm_compute.
  - exact sample_games_round_trip.
Defined.

(** Why the listing has to be complete.  An event of [G1] that ended before
    the clock of the run is not listed, and the game is created again. *)
Example past_event_is_not_matched :
  let p := provider_with [ {| id := lit "a"; body := event_of g1_past |} ] [] in
  let run := sync_games_to_calendar credentials_dict cal [g1] p in
  listing cal p = Some []
  ∧ calls run.1
    = [ (ListEvents cal (lit "2030-01-01T00:00:00Z"), true);
        (InsertEvent cal (event_of g1), true) ]
  ∧ length <$> (events_for (lit "G1") <$> calendars run.1 !! cal) = Some 2%nat.
Proof. vm_compute. split_and!; reflexivity. Qed.

(** Why the listing has to be served.  With the listing failed the index is
    empty, and the game is created although its event exists. *)
Example failed_listing_duplicates :
  let p := provider_with [ {| id := lit "a"; body := event_of g1 |} ] [true] in
  let run := sync_games_to_calendar credentials_dict cal [g1] p in
  calls run.1
  = [ (ListEvents cal (lit "2030-01-01T00:00:00Z"), false);
      (InsertEvent cal (event_of g1), true) ]
  ∧ length <$> (events_for (lit "G1") <$> calendars run.1 !! cal) = Some 2%nat.
Proof. vm_compute. split_and!; reflexivity. Qed.

(** Two runs in a row over a game whose id has a leading space: the second
    run does not find the event of the first and creates a second one. *)
Lemma second_run_only_updates_refuted :
  let first := sync_games_to_calendar credentials_dict cal [g_spaced]
                 (provider_with [] []) in
  let second := sync_games_to_calendar credentials_dict cal [g_spaced]
                  (set_clock (lit "2030-01-01T00:00:00") first.1) in
  length <$> calendars first.1 !! cal = Some 1%nat
  ∧ length <$> calendars second.1 !! cal = Some 2%nat
  ∧ calls second.1
    = calls first.1
      ++ [ (ListEvents cal (lit "2030-01-01T00:00:00Z"), true);
           (InsertEvent cal (event_of g_spaced), true) ].
Proof. vm_compute. split_and!; reflexivity. Qed.

Lemma sample_games_upcoming g event :
  g ∈ [g1; g2; g3] → _create_event_from_game g = inr event →
  ends_after (lit "2030-01-02T00:00:00" ++ lit "Z") event = true.
Proof.
  intros Hin Hrun.
  repeat (apply elem_of_cons in Hin as [->|Hin]);
    [..|by apply elem_of_nil in Hin];
    vm_compute in Hrun; injection Hrun as <-; vm_compute; reflexivity.
Qed.

Lemma second_run_only_updates_witness :
  let first := sync_games_to_calendar credentials_dict cal [g1; g2; g3]
                 (provider_with [] []) in
  let second := sync_games_to_calendar credentials_dict cal [g1; g2; g3]
                  (set_clock (lit "2030-01-02T00:00:00") first.1) in
  ∃ log,
    calls second.1
    = calls first.1
      ++ (ListEvents cal (lit "2030-01-02T00:00:00" ++ lit "Z"), true) :: log
    ∧ Forall (fun entry => is_update entry.1 = true ∧ entry.2 = true) log
    ∧ second.2 = inr (length log)
    ∧ length <$> calendars second.1 !! cal
      = length <$> calendars first.1 !! cal.
Proof.
  apply (second_run_only_updates credentials_dict cal [g1; g2; g3]
           (provider_with [] []) _ (lit "2030-01-02T00:00:00") sample_service).
  - reflexivity.
  - eexists. vm_compute. reflexivity.
  - intros c events ->%provider_with_lookup. constructor.
  - exact sample_games_round_trip.
  - exact sample_games_upcoming.
Defined.

(** The listing fails, and the run still creates the event and returns a
    count. *)
Lemma listing_failure_aborts_refuted :
  let run := sync_games_to_calendar credentials_dict cal [g1]
               (provider_with [] [true]) in
  run.2 = inr 1%nat
  ∧ calls run.1
    = [ (ListEvents cal (lit "2030-01-01T00:00:00Z"), false);
        (InsertEvent cal (event_of g1), true) ].
Proof. vm_compute. split; reflexivity. Qed.

Lemma listing_failure_is_swallowed_witness :
  let p := provider_with [] [true] in
  ∃ log,
    (sync_games_to_calendar credentials_dict cal [g1; g2] p).2
    = inr (successes log)
    ∧ calls (sync_games_to_calendar credentials_dict cal [g1; g2] p).1
      = calls p ++ (ListEvents cal (time_min p), false) :: log
    ∧ log.*1 = planned_calls cal ∅ [g1; g2]
    ∧ Forall (fun c => is_insert c = true) (log.*1).
Proof.
  apply (listing_failure_is_swallowed credentials_dict cal [g1; g2]
           (provider_with [] [true]) _ sample_service).
  vm_compute. reflexivity.
Defined.

(** The second of three requests fails: the third is still made and the
    count is 2. *)
Example second_of_three_fails :
  let run := sync_games_to_calendar credentials_dict cal [g1; g2; g3]
               (provider_with [] [false; false; true]) in
  run.2 = inr 2%nat
  ∧ calls run.1
    = [ (ListEvents cal (lit "2030-01-01T00:00:00Z"), true);
        (InsertEvent cal (event_of g1), true);
        (InsertEvent cal (event_of g2), false);
        (InsertEvent cal (event_of g3), true) ].
Proof. vm_compute. split; reflexivity. Qed.

Lemma per_game_failure_does_not_abort_witness :
  let p := provider_with [] [false; false; true] in
  ∃ log,
    calls (sync_games_to_calendar credentials_dict cal [g1; g2; g3] p).1
    = calls p ++ list_call cal p :: log
    ∧ log.*1 = planned_calls cal (existing_events cal p) [g1; g2; g3]
    ∧ (sync_games_to_calendar credentials_dict cal [g1; g2; g3] p).2
      = inr (successes log)
    ∧ (failures log = 1%nat →
       (sync_games_to_calendar credentials_dict cal [g1; g2; g3] p).2
       = inr (length log - 1)%nat).
Proof.
  apply (per_game_failure_does_not_abort credentials_dict cal [g1; g2; g3]
           (provider_with [] [false; false; true]) _ sample_service).
Defined.

(** The empty game list: one request is made, the listing. *)
Lemma empty_list_makes_no_calls_refuted :
  let p := provider_with [] [] in
  let run := sync_games_to_calendar credentials_dict cal [] p in
  run.2 = inr 0%nat
  ∧ calls run.1 = [ (ListEvents cal (lit "2030-01-01T00:00:00Z"), true) ]
  ∧ calls run.1 ≠ calls p.
Proof. vm_compute. split_and!; [reflexivity..|discriminate]. Qed.

Lemma empty_game_list_still_lists_witness :
  let p := provider_with [] [] in
  (sync_games_to_calendar credentials_dict cal [] p).2 = inr 0%nat
  ∧ calls (sync_games_to_calendar credentials_dict cal [] p).1
    = calls p ++ [list_call cal p]
  ∧ calendars (sync_games_to_calendar credentials_dict cal [] p).1
    = calendars p.
Proof.
  apply (empty_game_list_still_lists credentials_dict cal (provider_with [] [])
           _ sample_service).
Defined.


Example duplicates_run :
  let run := sync_games_to_calendar credentials_dict cal [g1]
               (provider_with duplicated []) in
  calendars run.1 !! cal
  = Some [ {| id := lit "a"; body := event_of g1 |};
           {| id := lit "b"; body := event_of g1 |} ].
Proof. vm_compute. reflexivity. Qed.

(** A sync request whose stored credentials lack the required keys: the
    reconcile call raises, and the user store is what it was.  The same
    request with complete credentials: the two games are synced and
    [last_sync] holds the count 2.  A callback for the same user: the initial
    sync returns 2 and [last_sync] holds it. *)
Lemma last_sync_needs_a_count_witness :
  (let w := world_of user_with_broken_credentials [] in
   users (sync_calendar user_id w).1 = users w
   ∧ (sync_calendar user_id w).2
     = inl (HTTPException 500 "Failed to sync calendar"))
  ∧ (let w := world_of user [] in
     ∃ u', users (sync_calendar user_id w).1 !! user_id = Some u'
           ∧ last_sync (calendar_status u')
             = Some {| timestamp := lit "2030-01-01T05:00:00";
                       games_synced := 2 |})
  ∧ (let w := world_of user [] in
     (handle_calendar_callback (lit "code") user_id w).2 = inr SETUP_SUCCESS
     ∧ ∃ u', users (handle_calendar_callback (lit "code") user_id w).1
               !! user_id = Some u'
             ∧ last_sync (calendar_status u')
               = Some {| timestamp := lit "2030-01-01T05:00:00";
                         games_synced := 2 |}).
Proof.
  destruct last_sync_needs_a_count as (Hsync & Hcallback & _).
  split_and!.
  - destruct (Hsync user_id (world_of user_with_broken_credentials [])
                user_with_broken_credentials ∅ cal) as (_ & Hraised & _).
    + vm_compute. reflexivity.
    + reflexivity.
    + reflexivity.
    + discriminate.
    + vm_compute. discriminate.
    + apply (Hraised (ValueError "Invalid credentials dictionary structure")).
      vm_compute. reflexivity.
  - destruct (Hsync user_id (world_of user []) user credentials_dict cal)
      as (_ & _ & Hcounted).
    + vm_compute. reflexivity.
    + reflexivity.
    + reflexivity.
    + discriminate.
    + vm_compute. discriminate.
    + destruct (Hcounted 2%nat) as (_ & _ & u' & Hu' & Hlast & _);
        [vm_compute; reflexivity|].
      exists u'. split; [exact Hu'|exact Hlast].
  - destruct (Hcallback (lit "code") user_id (world_of user []) user_id user
                (match handle_oauth_callback (lit "code") with
                 | inr credentials => credentials
                 | inl _ => ∅
                 end)
                cal
                (create_calendar credentials_dict (lit "NFL Game Schedule")
                   (provider (world_of user []))).1)
      as (_ & n & Hn & Hsuccess & _ & u' & Hu' & Hlast & _).
    + reflexivity.
    + vm_compute. reflexivity.
    + vm_compute. reflexivity.
    + vm_compute. reflexivity.
    + discriminate.
    + assert (n = 2%nat) as ->.
      { vm_compute in Hn. by injection Hn as <-. }
      split; [exact Hsuccess|]. exists u'. split; [exact Hu'|exact Hlast].
Defined.

(** The same request with complete credentials: [last_sync] is written with
    the count. *)
Example sync_request_writes_last_sync :
  let w := world_of user [] in
  last_sync <$> (calendar_status <$> users (sync_calendar user_id w).1 !! user_id)
  = Some (Some {| timestamp := lit "2030-01-01T05:00:00"; games_synced := 2 |}).
Proof. vm_compute. reflexivity. Qed.

(** ** What a run leaves alone *)

Section Frame.
Context `{Externals}.

Lemma apply_write_frame c p :
  calendar_list (apply_write c p).1 = calendar_list p
  ∧ clock (apply_write c p).1 = clock p.
Proof. unfold apply_write. by destruct (write_outcome c p). Qed.

Lemma sync_each_frame calendar_id index games n p :
  calendar_list (sync_each calendar_id index games n p).1 = calendar_list p
  ∧ clock (sync_each calendar_id index games n p).1 = clock p.
Proof.
  revert n p. induction games as [|g rest IH]; intros n p; [done|].
  rewrite sync_each_cons.
  destruct (planned_call calendar_id index g) as [c|]; [|apply IH].
  destruct (IH (if (apply_write c p).2 then (n + 1)%nat else n)
               (apply_write c p).1) as [-> ->].
  apply apply_write_frame.
Qed.

(** X1. A run of [sync_games_to_calendar] never deletes an event and never
    reorders events: in every calendar the ids present before the run are
    still there, in the same order, as a prefix of the ids after it; every
    calendar other than the target keeps its events unchanged; no calendar
    appears or disappears, and the calendar list and the clock are as
    before. *)
Theorem sync_games_to_calendar_keeps_events credentials_dict calendar_id games p :
  let run := sync_games_to_calendar credentials_dict calendar_id games p in
  calendar_list run.1 = calendar_list p
  ∧ clock run.1 = clock p
  ∧ (∀ c, calendars p !! c = None → calendars run.1 !! c = None)
  ∧ ∀ c events,
      calendars p !! c = Some events →
      ∃ events',
        calendars run.1 !! c = Some events'
        ∧ (id <$> events) `prefix_of` (id <$> events')
        ∧ (c ≠ calendar_id → events' = events).
Proof.
  cbn zeta.
  destruct (_build_calendar_service credentials_dict) as [e|service] eqn:Hbuild.
  { rewrite (sync_games_to_calendar_no_service _ _ _ _ e Hbuild). cbn.
    split_and!; [done..|]. intros c events Hc. exists events.
    split_and!; done. }
  rewrite (sync_games_to_calendar_state _ _ _ _ _ Hbuild).
  set (p1 := logged (list_call calendar_id p).1 (list_call calendar_id p).2 p).
  set (index := existing_events calendar_id p).
  destruct (sync_each_frame calendar_id index games 0%nat p1) as [-> ->].
  split; [done|]. split; [done|].
  destruct (calendars p !! calendar_id) as [events0|] eqn:Hcal.
  - destruct (sync_each_events calendar_id index
                (fun _ evs => (id <$> events0) `prefix_of` (id <$> evs)))
      with (games := games) (n := 0%nat) (p := p1) (events := events0)
      as (events' & Hcals & Hprefix); [done| | |exact Hcal|done|].
    + intros g rest evs event gid Hpre _ _ _. rewrite insert_event_ids.
      etrans; [exact Hpre|]. by apply prefix_app_r.
    + intros g rest evs event gid event_id Hpre _ _ _ _.
      by rewrite update_event_ids.
    + rewrite Hcals. cbn [calendars p1 logged set_calls set_faults]. split.
      * intros c Hc. rewrite lookup_insert_ne; [done|]. congruence.
      * intros c events Hc. destruct (decide (c = calendar_id)) as [->|Hne].
        -- exists events'. rewrite lookup_insert_eq.
           assert (events = events0) as -> by congruence. done.
        -- exists events. by rewrite lookup_insert_ne.
  - rewrite sync_each_unknown_calendar by exact Hcal.
    cbn [calendars p1 logged set_calls set_faults]. split; [done|].
    intros c events Hc. exists events. split_and!; done.
Qed.

(** X2. An event of the target calendar that the listing does not return, or
    that carries no tag, is left exactly as it was, at its place in the
    calendar (event ids being unique within the calendar). *)
Theorem unlisted_or_untagged_event_is_kept credentials_dict calendar_id games p
    events i r :
  calendars p !! calendar_id = Some events → NoDup (id <$> events) →
  events !! i = Some r →
  (∀ items, listing calendar_id p = Some items → r ∈ items →
            event_tag (body r) = None) →
  ∃ events',
    calendars (sync_games_to_calendar credentials_dict calendar_id games p).1
      !! calendar_id = Some events'
    ∧ events' !! i = Some r.
Proof.
  intros Hcal Hids Hi Hquiet.
  destruct (_build_calendar_service credentials_dict) as [e|service] eqn:Hbuild.
  { rewrite (sync_games_to_calendar_no_service _ _ _ _ e Hbuild). by exists events. }
  rewrite (sync_games_to_calendar_state _ _ _ _ _ Hbuild).
  set (p1 := logged (list_call calendar_id p).1 (list_call calendar_id p).2 p).
  set (index := existing_events calendar_id p).
  assert (Hindex : ∀ gid event_id, index !! gid = Some event_id → event_id ≠ id r).
  { intros gid event_id Hidx Heq. unfold index, existing_events in Hidx.
    destruct (listing calendar_id p) as [items|] eqn:Hlisting; [|done].
    apply index_events_known in Hidx as (r0 & Hr0 & Hid0 & Htag0).
    assert (Hsub : r0 ∈ events).
    { unfold listing in Hlisting. destruct (faulty p); [done|].
      rewrite Hcal in Hlisting. injection Hlisting as <-.
      by apply list_elem_of_filter in Hr0 as [_ ?]. }
    assert (r0 = r) as ->.
    { apply (NoDup_fmap_elem_inj id events); [done|done| |congruence].
      by eapply list_elem_of_lookup_2. }
    rewrite (Hquiet items eq_refl Hr0) in Htag0. done. }
  destruct (sync_each_events calendar_id index (fun _ evs => evs !! i = Some r))
    with (games := games) (n := 0%nat) (p := p1) (events := events)
    as (events' & Hcals & Hkept); [done| | |exact Hcal|exact Hi|].
  - intros g rest evs event gid Hkept _ _ _. unfold insert_event.
    by apply lookup_app_l_Some.
  - intros g rest evs event gid event_id Hkept _ _ Hidx _.
    unfold update_event. rewrite list_lookup_fmap, Hkept. cbn.
    rewrite decide_False; [done|]. intros Heq. by eapply Hindex.
  - exists events'. rewrite Hcals. by rewrite lookup_insert_eq.
Qed.

End Frame.

(** ** Counts, errors and what a served run achieves *)

Section RunOutcome.
Context `{Externals}.

Lemma accepted_game_has_id g event :
  _create_event_from_game g = inr event → is_Some (game_id g).
Proof.
  intros Hrun.
  destruct (transform_succeeded_inv g) as (_ & _ & _ & _ & _ & _ & Hid);
    [by rewrite Hrun|done].
Qed.

Lemma planned_calls_length calendar_id index games :
  length (planned_calls calendar_id index games)
  = length (filter (fun g => succeeded (_create_event_from_game g) = true) games).
Proof.
  unfold planned_calls. induction games as [|g rest IH]; [done|].
  cbn [omap list_omap]. rewrite filter_cons. unfold planned_call at 1.
  destruct (_create_event_from_game g) as [e|event] eqn:Hrun; cbn [succeeded].
  - rewrite decide_False by done. exact IH.
  - destruct (accepted_game_has_id g event Hrun) as [gid ->].
    rewrite decide_True by done. cbn. by rewrite IH.
Qed.

Lemma successes_le log : (successes log ≤ length log)%nat.
Proof. unfold successes. apply length_filter. Qed.

(** X3. Once the service is built, a run makes exactly one request more than
    there are games the transform accepts (the listing, then one write per
    accepted game), and the count it returns is at most the number of
    accepted games, hence at most the length of the input. *)
Theorem sync_games_to_calendar_counts credentials_dict calendar_id games p service :
  _build_calendar_service credentials_dict = inr service →
  let run := sync_games_to_calendar credentials_dict calendar_id games p in
  let accepted :=
    filter (fun g => succeeded (_create_event_from_game g) = true) games in
  length (calls run.1) = (length (calls p) + 1 + length accepted)%nat
  ∧ ∃ n, run.2 = inr n ∧ (n ≤ length accepted)%nat
         ∧ (length accepted ≤ length games)%nat.
Proof.
  intros Hbuild. cbn zeta.
  destruct (sync_games_to_calendar_log credentials_dict calendar_id games p
              service Hbuild) as (log & Hresult & Hcalls & Hlog).
  assert (Hlen : length log
    = length (filter (fun g => succeeded (_create_event_from_game g) = true) games)).
  { rewrite <- (planned_calls_length calendar_id (existing_events calendar_id p)).
    by rewrite <- Hlog, length_fmap. }
  split.
  - rewrite Hcalls, length_app. cbn [length]. lia.
  - exists (successes log). split_and!; [done| |apply length_filter].
    rewrite <- Hlen. apply successes_le.
Qed.

Lemma index_keys_are_clean items gid event_id :
  index_events items !! gid = Some event_id → clean_id gid.
Proof.
  intros (r & _ & _ & Htag)%index_events_known. by eapply event_tag_is_clean.
Qed.

Lemma existing_events_clean calendar_id p gid :
  ¬ clean_id gid → existing_events calendar_id p !! gid = None.
Proof.
  intros Hdirty. unfold existing_events.
  destruct (listing calendar_id p) as [items|]; [|done].
  destruct (index_events items !! gid) as [event_id|] eqn:Hidx; [|done].
  by apply index_keys_are_clean in Hidx.
Qed.

(** X4. The index never holds a key with a colon, a line break or white
    space at either end, so a game whose id has one is never matched: whatever
    the calendar holds, the run sends a create for it, never an update. *)
Theorem unclean_id_is_always_created credentials_dict calendar_id g event gid p
    service :
  _build_calendar_service credentials_dict = inr service →
  _create_event_from_game g = inr event → game_id g = Some gid →
  ¬ clean_id gid →
  ∃ ok,
    calls (sync_games_to_calendar credentials_dict calendar_id [g] p).1
    = calls p ++ [list_call calendar_id p; (InsertEvent calendar_id event, ok)].
Proof.
  intros Hbuild Hrun Hgid Hdirty.
  destruct (sync_games_to_calendar_log credentials_dict calendar_id [g] p
              service Hbuild) as (log & _ & Hcalls & Hlog).
  unfold planned_calls in Hlog. cbn [omap list_omap] in Hlog.
  rewrite (planned_call_insert _ _ g event gid Hrun Hgid) in Hlog
    by by apply existing_events_clean.
  destruct log as [|[c ok] [|]]; try done. cbn in Hlog.
  injection Hlog as ->. exists ok. by rewrite Hcalls.
Qed.

Lemma forallb_false {A} (f : A → bool) (l : list A) :
  forallb f l = false ↔ ∃ x, x ∈ l ∧ f x = false.
Proof.
  induction l as [|a l IH]; cbn.
  - split; [done|]. by intros (x & Hx%elem_of_nil & _).
  - rewrite andb_false_iff, IH. split.
    + intros [Ha|(x & Hx & Hfx)]; [exists a|exists x]; split; try done.
      * by left.
      * by right.
    + intros (x & [->|Hx]%elem_of_cons & Hfx); [by left|right; by exists x].
Qed.

Lemma build_fails_exactly credentials_dict :
  (∃ e, _build_calendar_service credentials_dict = inl e)
  ↔ ∃ key, key ∈ REQUIRED_KEYS ∧ credentials_dict !! key = None.
Proof.
  unfold _build_calendar_service.
  destruct (forallb _ _) eqn:Hall.
  - split; [by intros [e ?]|]. intros (key & Hkey & Hmissing). exfalso.
    assert (Hnot : forallb
      (fun k => bool_decide (is_Some (credentials_dict !! k))) REQUIRED_KEYS
      = false); [|congruence].
    apply forallb_false. exists key. split; [done|].
    rewrite Hmissing. apply bool_decide_eq_false. by intros [? ?].
  - split; [|by eexists]. intros _.
    apply forallb_false in Hall as (key & Hkey & Hmissing). exists key.
    split; [done|]. apply bool_decide_eq_false in Hmissing.
    by apply eq_None_not_Some.
Qed.

(** X5. [sync_games_to_calendar] raises exactly when one of the five
    required keys is missing from the credentials dictionary; it then raises
    ValueError before any request is made and leaves the provider as it
    was. Nothing that happens later in the run makes it raise. *)
Theorem sync_games_to_calendar_raises_exactly credentials_dict calendar_id games p :
  let run := sync_games_to_calendar credentials_dict calendar_id games p in
  ((∃ e, run.2 = inl e)
   ↔ ∃ key, key ∈ REQUIRED_KEYS ∧ credentials_dict !! key = None)
  ∧ ∀ e, run.2 = inl e →
         e = ValueError "Invalid credentials dictionary structure" ∧ run.1 = p.
Proof.
  cbn zeta.
  assert (Hraises : ∀ e,
    (sync_games_to_calendar credentials_dict calendar_id games p).2 = inl e →
    e = ValueError "Invalid credentials dictionary structure"
    ∧ (sync_games_to_calendar credentials_dict calendar_id games p).1 = p
    ∧ _build_calendar_service credentials_dict = inl e).
  { intros e He.
    destruct (sync_games_to_calendar_raises credentials_dict calendar_id games p
      (sync_games_to_calendar credentials_dict calendar_id games p).1 e)
      as (Hp & He' & Hbuild); [|done].
    rewrite <- He. by destruct (sync_games_to_calendar _ _ _ _). }
  split.
  - rewrite <- build_fails_exactly. split.
    + intros [e (_ & _ & Hbuild)%Hraises]. by exists e.
    + intros [e Hbuild]. exists e.
      by rewrite (sync_games_to_calendar_no_service _ _ _ _ e Hbuild).
  - intros e (-> & Hp & _)%Hraises. done.
Qed.

Lemma NoDup_omap_inj {A B} (f : A → option B) (l : list A) x y b :
  NoDup (omap f l) → x ∈ l → y ∈ l → f x = Some b → f y = Some b → x = y.
Proof.
  induction l as [|a l IH]; intros Hnd Hx Hy Hfx Hfy; [by apply elem_of_nil in Hx|].
  cbn in Hnd.
  assert (Hin : ∀ z, z ∈ l → f z = Some b → b ∈ omap f l).
  { intros z Hz Hfz. apply list_elem_of_omap. by exists z. }
  apply elem_of_cons in Hx as [->|Hx]; apply elem_of_cons in Hy as [->|Hy].
  - done.
  - rewrite Hfx in Hnd. apply NoDup_cons in Hnd as [Hnot _].
    destruct Hnot. by eapply Hin.
  - rewrite Hfy in Hnd. apply NoDup_cons in Hnd as [Hnot _].
    destruct Hnot. by eapply Hin.
  - apply IH; try done. destruct (f a); [by apply NoDup_cons in Hnd as [_ ?]|done].
Qed.

(** X6. What a run achieves when nothing fails: for a calendar the provider
    knows, with unique event ids, and an input whose game ids are pairwise
    distinct, after the run every game the transform accepts has an event in
    the calendar whose body is exactly its transformed event, and the run
    returns the number of accepted games. *)
Theorem served_run_brings_every_game_up_to_date credentials_dict calendar_id
    games p service events :
  _build_calendar_service credentials_dict = inr service →
  faults p = [] →
  calendars p !! calendar_id = Some events → NoDup (id <$> events) →
  NoDup (omap game_id games) →
  let run := sync_games_to_calendar credentials_dict calendar_id games p in
  run.2 = inr (length
    (filter (fun g => succeeded (_create_event_from_game g) = true) games))
  ∧ ∃ events',
      calendars run.1 !! calendar_id = Some events'
      ∧ ∀ g event, g ∈ games → _create_event_from_game g = inr event →
                   ∃ r, r ∈ events' ∧ body r = event.
Proof.
  intros Hbuild Hfaults Hcal Hids Hgames. cbn zeta.
  destruct (sync_games_to_calendar_log credentials_dict calendar_id games p
              service Hbuild) as (log & Hresult & Hcalls & Hlog).
  rewrite (sync_games_to_calendar_state _ _ _ _ _ Hbuild) in *.
  set (p1 := logged (list_call calendar_id p).1 (list_call calendar_id p).2 p) in *.
  set (index := existing_events calendar_id p) in *.
  assert (Hknown : ∀ gid event_id, index !! gid = Some event_id →
            ∃ r, r ∈ events ∧ id r = event_id ∧ event_tag (body r) = Some gid).
  { intros gid event_id Hidx. unfold index, existing_events in Hidx.
    destruct (listing calendar_id p) as [items|] eqn:Hlisting; [|done].
    apply index_events_known in Hidx as (r0 & Hr0 & Hid0 & Htag0).
    exists r0. split_and!; [|done..].
    unfold listing in Hlisting. destruct (faulty p); [done|].
    rewrite Hcal in Hlisting. injection Hlisting as <-.
    by apply list_elem_of_filter in Hr0 as [_ ?]. }
  assert (Hinj : ∀ gid gid' event_id,
            index !! gid = Some event_id → index !! gid' = Some event_id →
            gid = gid').
  { intros gid gid' event_id (r & Hr & Hid & Htag)%Hknown
      (r' & Hr' & Hid' & Htag')%Hknown.
    assert (r = r') as <-
      by (apply (NoDup_fmap_elem_inj id events); [done..|congruence]).
    congruence. }
  set (J := fun (rest : list Game) (evs : list Resource) =>
    rest `suffix_of` games
    ∧ (∀ gid event_id, index !! gid = Some event_id → event_id ∈ id <$> evs)
    ∧ ∀ g event gid, g ∈ games → _create_event_from_game g = inr event →
        game_id g = Some gid →
        g ∈ rest ∨ ∃ r, r ∈ evs ∧ body r = event
                        ∧ (index !! gid = Some (id r)
                           ∨ index !! gid = None
                             ∧ ∀ gid', index !! gid' ≠ Some (id r))).
  assert (Hdone : ∀ g0 rest, g0 :: rest `suffix_of` games →
            ∀ g gid, g ∈ games → game_id g = Some gid →
              game_id g0 = Some gid → g = g0).
  { intros g0 rest [front ->] g gid Hg Hgid Hgid0.
    apply (NoDup_omap_inj game_id (front ++ g0 :: rest) g g0 gid); try done.
    apply elem_of_app. right. by left. }
  destruct (sync_each_served calendar_id index J) with
    (games := games) (n := 0%nat) (p := p1) (events := events)
    as (events' & Hcals & (_ & _ & HJ) & _ & Hserved).
  - (* a game that is skipped *)
    intros g0 rest evs (Hsuffix & Hrange & Hall) Hskip. unfold J. split_and!.
    + by eapply suffix_cons_l.
    + done.
    + intros g event gid Hg Hrun Hgid.
      destruct (Hall g event gid Hg Hrun Hgid) as [Hin|?]; [|by right].
      apply elem_of_cons in Hin as [->|?]; [|by left].
      by destruct (planned_call_None calendar_id index g0 event gid Hrun Hgid).
  - (* a create *)
    intros g0 rest evs event0 gid0 (Hsuffix & Hrange & Hall) Hrun0 Hgid0 Hidx0.
    unfold J. split_and!.
    + by eapply suffix_cons_l.
    + intros gid event_id Hidx. rewrite insert_event_ids.
      apply elem_of_app. left. by eapply Hrange.
    + intros g event gid Hg Hrun Hgid.
      destruct (Hall g event gid Hg Hrun Hgid) as [Hin|(r & Hr & Hbody & Hwhere)].
      * apply elem_of_cons in Hin as [->|?]; [|by left]. right.
        assert (event = event0) as -> by congruence.
        assert (gid = gid0) as -> by congruence.
        exists {| id := fresh_id (id <$> evs); body := event0 |}.
        split_and!; [unfold insert_event; apply elem_of_app; right; by left|done|].
        right. split; [done|]. intros gid' Hidx'. cbn in Hidx'.
        apply Hrange in Hidx'. by apply fresh_id_fresh in Hidx'.
      * right. exists r. split_and!; [|done..].
        unfold insert_event. apply elem_of_app. by left.
  - (* an update *)
    intros g0 rest evs event0 gid0 event_id (Hsuffix & Hrange & Hall)
      Hrun0 Hgid0 Hidx0.
    split; [by eapply Hrange|]. unfold J. split_and!.
    + by eapply suffix_cons_l.
    + intros gid eid Hidx. rewrite update_event_ids. by eapply Hrange.
    + intros g event gid Hg Hrun Hgid.
      destruct (decide (gid = gid0)) as [->|Hne].
      * right.
        assert (g = g0) as -> by by eapply Hdone.
        assert (event = event0) as -> by congruence.
        apply Hrange in Hidx0 as Hin.
        apply list_elem_of_fmap in Hin as (r & -> & Hr).
        exists {| id := id r; body := event0 |}. split_and!; [|done|by left].
        unfold update_event. apply list_elem_of_fmap. exists r.
        by rewrite decide_True.
      * destruct (Hall g event gid Hg Hrun Hgid) as [Hin|(r & Hr & Hbody & Hwhere)].
        { apply elem_of_cons in Hin as [->|?]; [congruence|by left]. }
        right. exists r. split_and!; [|done..].
        unfold update_event. apply list_elem_of_fmap. exists r.
        rewrite decide_False; [done|]. intros Heq.
        destruct Hwhere as [Hidx|[_ Hout]].
        -- rewrite Heq in Hidx. by apply Hne, (Hinj gid gid0 event_id).
        -- apply (Hout gid0). by rewrite Heq.
  - unfold p1, logged. cbn. by rewrite Hfaults.
  - exact Hcal.
  - unfold J. split_and!; [done| |by left].
    intros gid event_id (r & Hr & <- & _)%Hknown.
    apply list_elem_of_fmap. by exists r.
  - split.
    + rewrite <- (planned_calls_length calendar_id index).
      rewrite (sync_games_to_calendar_result _ _ _ _ _ Hbuild).
      destruct Hserved as [_ Hres]. unfold index, p1 in Hres. by rewrite Hres.
    + exists events'. split.
      * rewrite Hcals. by rewrite lookup_insert_eq.
      * intros g event Hg Hrun.
        destruct (accepted_game_has_id g event Hrun) as [gid Hgid].
        destruct (HJ g event gid Hg Hrun Hgid) as [Hin|(r & Hr & Hbody & _)];
          [by apply elem_of_nil in Hin|by exists r].
Qed.

End RunOutcome.

(** ** [create_calendar] *)

Section CreateCalendar.
Context `{Externals}.

Lemma find_app_first {A} (f : A → bool) (l l' : list A) :
  List.find f (l ++ l')
  = match List.find f l with Some a => Some a | None => List.find f l' end.
Proof. induction l as [|a l IH]; [done|]. cbn. by destruct (f a). Qed.

(** X7. [create_calendar] looks before it creates: when the service can be
    built, the provider serves the listing and an entry of the calendar list
    carries the requested summary, the id of the first such entry is
    returned after that single request; no calendar is inserted. *)
Theorem create_calendar_returns_existing credentials_dict calendar_name p
    service entry :
  _build_calendar_service credentials_dict = inr service →
  faulty p = false →
  first_named calendar_name (calendar_list p) = Some entry →
  let run := create_calendar credentials_dict calendar_name p in
  run.2 = inr (fst entry)
  ∧ calls run.1 = calls p ++ [(ListCalendars, true)]
  ∧ calendars run.1 = calendars p
  ∧ calendar_list run.1 = calendar_list p.
Proof.
  intros Hbuild Hserved Hfound. cbn zeta.
  unfold create_calendar, try_except, mbind, M_bind, bind, lift,
    calendarList_list, request. rewrite Hbuild.
  unfold faulty in Hserved. unfold first_named in Hfound.
  destruct (head (faults p)) as [[]|]; [done|..]; cbn; rewrite Hfound; done.
Qed.

(** X8. A failed [create_calendar] adds nothing: whenever it raises, be it
    for the credentials, the listing or the insert, the calendars and the
    calendar list are as they were. *)
Theorem create_calendar_failure_adds_nothing credentials_dict calendar_name p e :
  (create_calendar credentials_dict calendar_name p).2 = inl e →
  calendars (create_calendar credentials_dict calendar_name p).1 = calendars p
  ∧ calendar_list (create_calendar credentials_dict calendar_name p).1
    = calendar_list p.
Proof.
  unfold create_calendar, try_except, mbind, M_bind, bind, lift, raise,
    calendarList_list, calendars_insert, request, mret, M_ret, ret.
  destruct (_build_calendar_service credentials_dict); [done|].
  destruct (head (faults p)) as [[]|]; cbn; [done|..];
    (destruct (List.find _ (calendar_list p)); cbn; [done|]);
    destruct (head (tail (faults p))) as [[]|]; cbn; done.
Qed.

(** X9. Calling [create_calendar] twice with the same name, against a
    provider that does not fail, creates at most one calendar: the second
    call returns the id the first one returned, after a single listing
    request, and leaves calendars and calendar list as the first call left
    them. *)
Theorem create_calendar_twice credentials_dict calendar_name p service :
  _build_calendar_service credentials_dict = inr service →
  faults p = [] →
  let first := create_calendar credentials_dict calendar_name p in
  let second := create_calendar credentials_dict calendar_name first.1 in
  ∃ calendar_id,
    first.2 = inr calendar_id
    ∧ second.2 = inr calendar_id
    ∧ calendars second.1 = calendars first.1
    ∧ calendar_list second.1 = calendar_list first.1
    ∧ calls second.1 = calls first.1 ++ [(ListCalendars, true)].
Proof.
  intros Hbuild Hfaults. cbn zeta.
  unfold create_calendar, try_except, mbind, M_bind, bind, lift, raise,
    calendarList_list, calendars_insert, request, mret, M_ret, ret.
  rewrite Hbuild, Hfaults. cbn.
  destruct (List.find _ (calendar_list p)) as [entry|] eqn:Hfound; cbn.
  - rewrite Hfound. cbn. by eexists.
  - rewrite find_app_first, Hfound. cbn.
    rewrite bool_decide_true by done. cbn. by eexists.
Qed.

(** X10. When no entry carries the requested summary and the provider does
    not fail, [create_calendar] makes exactly the listing and the insert,
    and the calendar it returns is new: its id was on no entry of the
    calendar list and on no calendar, it starts without events, and it is
    entered last in the calendar list under the requested summary. *)
Theorem create_calendar_creates_fresh credentials_dict calendar_name p service :
  _build_calendar_service credentials_dict = inr service →
  faults p = [] →
  first_named calendar_name (calendar_list p) = None →
  let run := create_calendar credentials_dict calendar_name p in
  ∃ calendar_id,
    run.2 = inr calendar_id
    ∧ (calendar_id ∉ fst <$> calendar_list p)
    ∧ calendars p !! calendar_id = None
    ∧ calendars run.1 = <[calendar_id := []]> (calendars p)
    ∧ calendar_list run.1 = calendar_list p ++ [(calendar_id, calendar_name)]
    ∧ calls run.1
      = calls p ++ [(ListCalendars, true); (InsertCalendar calendar_name, true)].
Proof.
  intros Hbuild Hfaults Hfound. cbn zeta.
  unfold create_calendar, try_except, mbind, M_bind, bind, lift, raise,
    calendarList_list, calendars_insert, request, mret, M_ret, ret.
  unfold first_named in Hfound.
  rewrite Hbuild, Hfaults. cbn. rewrite Hfound. cbn.
  eexists. split; [done|].
  pose proof (fresh_id_fresh ((fst <$> calendar_list p)
                ++ (fst <$> map_to_list (calendars p)))) as Hfresh.
  split_and!; try done.
  - intros Hin. apply Hfresh, elem_of_app. by left.
  - destruct (calendars p !! _) as [events|] eqn:Hlook; [|done].
    destruct Hfresh. apply elem_of_app. right.
    apply list_elem_of_fmap. eexists (_, events).
    split; [done|]. by apply elem_of_map_to_list.
  - by rewrite <- app_assoc.
Qed.

End CreateCalendar.

(** ** The user store *)

Lemma update_one_run user_id set w :
  update_one user_id set w
  = match users w !! user_id with
    | Some u => (set_users (<[user_id := set (utcnow w) u]> (users w)) w, inr true)
    | None => (w, inr false)
    end.
Proof. done. Qed.

(** X11. Favourite teams round-trip through the user store: for a known
    user [update_favorite_teams] reports success and [get_user_teams] then
    returns the list that was written, as given; the calendar status of the
    user and every other user are left alone.  For an unknown user nothing
    is written, the update reports [False] and [get_user_teams] answers the
    empty list. *)
Theorem favorite_teams_round_trip user_id team_ids w :
  let update := update_favorite_teams user_id team_ids w in
  match users w !! user_id with
  | Some u =>
      update.2 = inr true
      ∧ (get_user_teams user_id update.1).2 = inr team_ids
      ∧ (get_calendar_status user_id update.1).2
        = (get_calendar_status user_id w).2
      ∧ ∀ other, other ≠ user_id → users update.1 !! other = users w !! other
  | None =>
      update = (w, inr false) ∧ (get_user_teams user_id w).2 = inr []
  end.
Proof.
  cbn zeta. unfold update_favorite_teams. rewrite update_one_run.
  unfold get_user_teams, get_calendar_status.
  destruct (users w !! user_id) as [u|] eqn:Hu; cbn [fst snd users set_users].
  - rewrite lookup_insert_eq. split_and!; try done.
    intros other Hother. by rewrite lookup_insert_ne.
  - done.
Qed.

(** X12. Linking and syncing in the user store: after
    [update_calendar_status] and then [update_last_sync], the status of a
    known user reads connected, with the calendar id and the credentials of
    the link and the count of the sync.  In the other order the count is
    lost: [update_calendar_status] replaces the whole status and resets
    [last_sync] to null, while [update_last_sync] writes that one entry
    only. *)
Theorem link_then_sync_status user_id calendar credentials_dict n w u :
  users w !! user_id = Some u →
  let linked := (update_calendar_status user_id calendar credentials_dict w).1 in
  let synced := (update_last_sync user_id n w).1 in
  (get_calendar_status user_id (update_last_sync user_id n linked).1).2
  = inr {| is_connected := true; status_calendar_id := Some calendar;
           credentials := Some credentials_dict;
           last_sync := Some {| timestamp := utcnow w; games_synced := n |} |}
  ∧ (get_calendar_status user_id
       (update_calendar_status user_id calendar credentials_dict synced).1).2
    = inr {| is_connected := true; status_calendar_id := Some calendar;
             credentials := Some credentials_dict; last_sync := None |}.
Proof.
  intros Hu. cbn zeta.
  unfold update_calendar_status, update_last_sync. rewrite !update_one_run, Hu.
  cbn [fst snd users set_users utcnow]. rewrite ?update_one_run.
  cbn [fst snd users set_users utcnow]. rewrite ?Hu.
  cbn [fst snd users set_users utcnow]. rewrite ?lookup_insert_eq.
  cbn [fst snd users set_users utcnow].
  unfold get_calendar_status. cbn [fst snd users set_users utcnow].
  by rewrite !lookup_insert_eq.
Qed.

Section StoreAndSync.
Context `{Externals}.

(** What [POST /calendar/sync] reads of the world: the provider, the games,
    and of the user the favourite teams and the two top-level calendar
    keys. *)
Lemma sync_calendar_agrees current_user w w' :
  provider w' = provider w → games w' = games w →
  match users w !! current_user, users w' !! current_user with
  | Some u, Some u' =>
      favorite_teams u' = favorite_teams u
      ∧ google_credentials u' = google_credentials u
      ∧ calendar_id u' = calendar_id u
  | None, None => True
  | _, _ => False
  end →
  (sync_calendar current_user w').2 = (sync_calendar current_user w).2
  ∧ provider (sync_calendar current_user w').1
    = provider (sync_calendar current_user w).1.
Proof.
  intros Hprovider Hgames Husers.
  unfold sync_calendar, try_except, mbind, M_bind, bind, get_user,
    get_user_teams, find_games_by_team_id, lift, getitem, on_provider, zoom,
    update_last_sync, update_one, raise, mret, M_ret, ret.
  cbv beta iota zeta.
  destruct (users w !! current_user) as [u|] eqn:Hu,
    (users w' !! current_user) as [u'|] eqn:Hu'; try done; cbv beta iota zeta.
  destruct Husers as (Hteams & Hcreds & Hcal). rewrite Hcreds.
  destruct (google_credentials u) as [credentials_dict|]; [|done].
  cbv beta iota zeta. rewrite ?Hu, ?Hu'. cbv beta iota zeta.
  rewrite Hteams.
  destruct (favorite_teams u) as [|t ts]; [done|]. cbv beta iota zeta.
  rewrite Hgames.
  destruct (games_of_teams (t :: ts) (games w)) as [|g gs];
    [by rewrite Hcal|].
  cbv beta iota zeta. rewrite Hcal.
  destruct (calendar_id u) as [calendar|]; [|done]. cbv beta iota zeta.
  rewrite Hprovider.
  destruct (sync_games_to_calendar _ _ _ _) as [p' [e|n]];
    cbv beta iota zeta; cbn [fst snd provider users set_provider].
  - by destruct (is_HTTPException e).
  - rewrite Hu, Hu'. done.
Qed.

(** X13. [revoke_calendar_access] clears the calendar status and nothing
    else: the status of the user then reads as that of an account that was
    never linked, the favourite teams stay, and, because the route reads
    the top-level keys only, [POST /calendar/sync] answers after the
    revocation exactly as it would have before it, with the same requests
    to the provider. *)
Theorem revoke_clears_only_the_status user_id current_user w u :
  users w !! user_id = Some u →
  let revoke := revoke_calendar_access user_id w in
  revoke.2 = inr true
  ∧ (get_calendar_status user_id revoke.1).2 = inr NOT_CONNECTED
  ∧ (get_user_teams user_id revoke.1).2 = inr (favorite_teams u)
  ∧ (sync_calendar current_user revoke.1).2 = (sync_calendar current_user w).2
  ∧ provider (sync_calendar current_user revoke.1).1
    = provider (sync_calendar current_user w).1.
Proof.
  intros Hu. cbn zeta. unfold revoke_calendar_access. rewrite update_one_run, Hu.
  unfold get_calendar_status, get_user_teams.
  cbn [fst snd users set_users]. rewrite lookup_insert_eq.
  split_and!; try done; apply sync_calendar_agrees; try done;
    cbn [users set_users];
    (destruct (decide (current_user = user_id)) as [->|Hne];
     [by rewrite Hu, lookup_insert_eq
     |rewrite lookup_insert_ne by done;
      by destruct (users w !! current_user)]).
Qed.

End StoreAndSync.

(** ** The sync routes *)

Section RouteOutcomes.
Context `{Externals}.

Lemma set_provider_same w : set_provider (provider w) w = w.
Proof. by destruct w. Qed.

(** X14. A failing [POST /calendar/sync] changes nothing and says so with
    one of three answers: whenever the route raises, the world (calendars,
    request log, user store) is exactly as before, and the exception is
    HTTP 400 "Google Calendar not connected", HTTP 400 "No teams selected
    for syncing" or HTTP 500 "Failed to sync calendar". *)
Theorem sync_calendar_failure_changes_nothing current_user w e :
  (sync_calendar current_user w).2 = inl e →
  (sync_calendar current_user w).1 = w
  ∧ (e = HTTPException 400 "Google Calendar not connected"
     ∨ e = HTTPException 400 "No teams selected for syncing"
     ∨ e = HTTPException 500 "Failed to sync calendar").
Proof.
  unfold sync_calendar, try_except, mbind, M_bind, bind, get_user,
    get_user_teams, find_games_by_team_id, lift, getitem, on_provider, zoom,
    update_last_sync, update_one, raise, mret, M_ret, ret.
  cbv beta iota zeta.
  destruct (users w !! current_user) as [u|] eqn:Hu; cbv beta iota zeta;
    [|intros [= <-]; eauto].
  destruct (google_credentials u) as [credentials_dict|]; cbv beta iota zeta;
    [|intros [= <-]; eauto].
  rewrite ?Hu. cbv beta iota zeta.
  destruct (favorite_teams u) as [|t ts]; cbv beta iota zeta;
    [intros [= <-]; eauto|].
  destruct (games_of_teams (t :: ts) (games w)) as [|g gs]; [done|].
  cbv beta iota zeta.
  destruct (calendar_id u) as [calendar|]; cbv beta iota zeta;
    [|intros [= <-]; eauto].
  destruct (sync_games_to_calendar _ _ _ _) as [p' [e'|n]] eqn:Hrec;
    cbv beta iota zeta; cbn [fst snd provider users set_provider].
  - apply sync_games_to_calendar_raises in Hrec as (-> & -> & _).
    cbn [is_HTTPException]. intros [= <-]. rewrite set_provider_same. eauto.
  - by rewrite Hu.
Qed.

(** The ways [GET /calendar/callback] can end. *)
Lemma callback_outcome code state w :
  let run := handle_calendar_callback code state w in
  games run.1 = games w ∧ utcnow run.1 = utcnow w
  ∧ ((run.2 = inr SETUP_FAILED ∧ users run.1 = users w)
     ∨ ∃ user_id u credentials_dict calendar p0,
         decode_state (utcnow w) state = Some user_id
         ∧ handle_oauth_callback code = inr credentials_dict
         ∧ create_calendar credentials_dict (lit "NFL Game Schedule") (provider w)
           = (p0, inr calendar)
         ∧ users w !! user_id = Some u
         ∧ let linked :=
             calendar_status_update calendar credentials_dict (utcnow w) u in
           let reconcile :=
             sync_games_to_calendar credentials_dict calendar
               (games_of_teams (favorite_teams u) (games w)) p0 in
           (favorite_teams u = [] ∧ run.2 = inr SETUP_SUCCESS
            ∧ users run.1 = <[user_id := linked]> (users w)
            ∧ provider run.1 = p0)
           ∨ (favorite_teams u ≠ [] ∧ provider run.1 = reconcile.1
              ∧ ((∃ e, reconcile.2 = inl e) ∧ run.2 = inr SETUP_FAILED
                 ∧ users run.1 = <[user_id := linked]> (users w)
                 ∨ ∃ n, reconcile.2 = inr n ∧ run.2 = inr SETUP_SUCCESS
                   ∧ users run.1
                     = <[user_id := last_sync_update n (utcnow w) linked]>
                         (users w)))).
Proof.
  cbn zeta.
  unfold handle_calendar_callback, try_except, mbind, M_bind, bind,
    get_user_teams, find_games_by_team_id, lift, on_provider, zoom,
    update_calendar_status, update_last_sync, update_one, mret, M_ret, ret.
  cbv beta iota zeta.
  destruct (decode_state (utcnow w) state) as [user_id|] eqn:Hstate;
    cbv beta iota zeta; [|by eauto].
  destruct (handle_oauth_callback code) as [e|credentials_dict] eqn:Hoauth;
    cbv beta iota zeta; [by eauto|].
  destruct (create_calendar _ _ (provider w)) as [p0 [e|calendar]] eqn:Hcreate;
    cbv beta iota zeta; cbn [users provider set_provider utcnow games];
    [by eauto|].
  destruct (users w !! user_id) as [u|] eqn:Hu;
    cbv beta iota zeta; cbn [users provider set_provider set_users utcnow games];
    [|by eauto].
  rewrite lookup_insert_eq.
  set (linked := calendar_status_update calendar credentials_dict (utcnow w) u).
  assert (Hfav : favorite_teams linked = favorite_teams u) by done.
  rewrite Hfav.
  destruct (favorite_teams u) as [|t ts] eqn:Hts.
  - split_and!; try done. right.
    exists user_id, u, credentials_dict, calendar, p0. rewrite Hts.
    split_and!; try done. by left.
  - cbv beta iota zeta.
    cbn [fst snd users provider set_provider set_users utcnow games].
    destruct (sync_games_to_calendar _ _ _ _) as [p' [e|n]] eqn:Hrec;
      cbn [fst snd users provider set_provider set_users utcnow games];
      rewrite ?lookup_insert_eq;
      cbn [fst snd users provider set_provider set_users utcnow games].
    + split_and!; try done. right.
      exists user_id, u, credentials_dict, calendar, p0. rewrite Hts, Hrec.
      split_and!; try done. right. split; [done|]. split; [done|]. left.
      split_and!; try done. by eexists.
    + split_and!; try done. right.
      exists user_id, u, credentials_dict, calendar, p0. rewrite Hts, Hrec.
      split_and!; try done. right. split; [done|]. split; [done|]. right.
      exists n. by rewrite insert_insert_eq.
Qed.

(** X15. [GET /calendar/callback] never raises: whatever the state
    parameter, the code, the provider and the stores, it answers with the
    redirect to [setup=failed] or the redirect to [setup=success]; and when
    the state does not decode to a user id, or the token exchange fails,
    the answer is [setup=failed] with the world untouched. *)
Theorem callback_always_redirects code state w :
  let run := handle_calendar_callback code state w in
  (run.2 = inr SETUP_FAILED ∨ run.2 = inr SETUP_SUCCESS)
  ∧ (decode_state (utcnow w) state = None
     ∨ (∃ e, handle_oauth_callback code = inl e) →
     run = (w, inr SETUP_FAILED)).
Proof.
  cbn zeta. split.
  - destruct (callback_outcome code state w) as (_ & _ & [[? _]|Hlinked]);
      [by left|].
    destruct Hlinked as (user_id & u & credentials_dict & calendar & p0 & _ & _
      & _ & _ & [(_ & ? & _)|(_ & _ & [(_ & ? & _)|(n & _ & ? & _)])]); eauto.
  - unfold handle_calendar_callback, try_except, mbind, M_bind, bind, lift,
      mret, M_ret, ret. cbv beta iota zeta.
    intros [->|[e Hoauth]]; [done|].
    destruct (decode_state (utcnow w) state); [|done].
    cbv beta iota zeta. by rewrite Hoauth.
Qed.

Lemma create_calendar_listed credentials_dict calendar_name p p0 calendar :
  create_calendar credentials_dict calendar_name p = (p0, inr calendar) →
  (calendar, calendar_name) ∈ calendar_list p0.
Proof.
  unfold create_calendar, try_except, mbind, M_bind, bind, lift, raise,
    calendarList_list, calendars_insert, request, mret, M_ret, ret.
  destruct (_build_calendar_service credentials_dict); [done|].
  destruct (head (faults p)) as [[]|]; cbn; [done|..];
    (destruct (List.find _ (calendar_list p)) as [entry|] eqn:Hfound; cbn;
     [intros [= <- <-]; cbn; apply find_some in Hfound as [Hin Hname];
      apply bool_decide_eq_true in Hname; destruct entry as [c n]; cbn in *;
      subst n; by apply list_elem_of_In
     |]);
    (destruct (head (tail (faults p))) as [[]|]; cbn; [done|..];
     intros [= <- <-]; cbn; apply elem_of_app; right; by left).
Qed.

Lemma sync_games_to_calendar_calendar_list credentials_dict calendar_id games p :
  calendar_list (sync_games_to_calendar credentials_dict calendar_id games p).1
  = calendar_list p.
Proof.
  destruct (_build_calendar_service credentials_dict) as [e|service] eqn:Hbuild.
  - by rewrite (sync_games_to_calendar_no_service _ _ _ _ e Hbuild).
  - rewrite (sync_games_to_calendar_state _ _ _ _ _ Hbuild).
    by destruct (sync_each_frame calendar_id (existing_events calendar_id p)
      games 0%nat
      (logged (list_call calendar_id p).1 (list_call calendar_id p).2 p))
      as [-> _].
Qed.

(** X16. What [setup=success] guarantees: the state named a known user, the
    token exchange returned credentials, and that user's calendar status
    now reads connected, with those credentials and the id of a calendar
    that the provider lists under the summary "NFL Game Schedule"; the
    last sync is recorded exactly when the user has favourite teams. *)
Theorem callback_success_means_linked code state w :
  let run := handle_calendar_callback code state w in
  run.2 = inr SETUP_SUCCESS →
  ∃ user_id u' credentials_dict calendar,
    decode_state (utcnow w) state = Some user_id
    ∧ handle_oauth_callback code = inr credentials_dict
    ∧ users run.1 !! user_id = Some u'
    ∧ is_connected (calendar_status u') = true
    ∧ status_calendar_id (calendar_status u') = Some calendar
    ∧ credentials (calendar_status u') = Some credentials_dict
    ∧ (calendar, lit "NFL Game Schedule") ∈ calendar_list (provider run.1)
    ∧ (is_Some (last_sync (calendar_status u')) ↔ favorite_teams u' ≠ []).
Proof.
  cbn zeta. intros Hsuccess.
  destruct (callback_outcome code state w) as (_ & _ & [[Hfailed _]|Hlinked]).
  { rewrite Hfailed in Hsuccess. done. }
  destruct Hlinked as (user_id & u & credentials_dict & calendar & p0 & Hstate
    & Hoauth & Hcreate & Hu & Hcases).
  apply create_calendar_listed in Hcreate as Hlisted.
  cbn zeta in Hcases.
  destruct Hcases as [(Hnone & _ & Husers & Hp)
                     |(Hsome & Hp & [(_ & Hfailed & _)|(n & _ & _ & Husers)])].
  - eexists user_id, _, credentials_dict, calendar.
    rewrite Husers, lookup_insert_eq, Hp.
    split_and!; try done. cbn. rewrite Hnone. split; [by intros [? ?]|done].
  - rewrite Hfailed in Hsuccess. done.
  - eexists user_id, _, credentials_dict, calendar.
    rewrite Husers, lookup_insert_eq, Hp, sync_games_to_calendar_calendar_list.
    split_and!; try done; cbn; (split; [done|]); by eexists.
Qed.

(** The callback writes the calendar status only: the favourite teams and
    the two top-level calendar keys of every user stay as they were. *)
Lemma callback_keeps_top_level code state w current_user :
  match users w !! current_user,
        users (handle_calendar_callback code state w).1 !! current_user with
  | Some u, Some u' =>
      favorite_teams u' = favorite_teams u
      ∧ google_credentials u' = google_credentials u
      ∧ calendar_id u' = calendar_id u
  | None, None => True
  | _, _ => False
  end.
Proof.
  destruct (callback_outcome code state w) as (_ & _ & [[_ ->]|Hlinked]).
  { by destruct (users w !! current_user). }
  destruct Hlinked as (user_id & u & credentials_dict & calendar & p0 & _
    & _ & _ & Hu & Hcases). cbn zeta in Hcases.
  assert (Husers : ∃ u', users (handle_calendar_callback code state w).1
                         = <[user_id := u']> (users w)
                         ∧ favorite_teams u' = favorite_teams u
                         ∧ google_credentials u' = google_credentials u
                         ∧ calendar_id u' = calendar_id u).
  { destruct Hcases as [(_ & _ & -> & _)
                       |(_ & _ & [(_ & _ & ->)|(n & _ & _ & ->)])];
      by eexists. }
  destruct Husers as (u' & -> & Hsame).
  destruct (decide (current_user = user_id)) as [->|Hne].
  - by rewrite Hu, lookup_insert_eq.
  - rewrite lookup_insert_ne by done. by destruct (users w !! current_user).
Qed.

(** The sync route turns a request away as not connected exactly when the
    user is unknown or has no top-level [google_credentials] key. *)
Lemma sync_calendar_not_connected current_user w :
  (sync_calendar current_user w).2
  = inl (HTTPException 400 "Google Calendar not connected")
  ↔ match users w !! current_user with
    | Some u => google_credentials u = None
    | None => True
    end.
Proof.
  unfold sync_calendar, try_except, mbind, M_bind, bind, get_user,
    get_user_teams, find_games_by_team_id, lift, getitem, on_provider, zoom,
    update_last_sync, update_one, raise, mret, M_ret, ret.
  cbv beta iota zeta.
  destruct (users w !! current_user) as [u|] eqn:Hu; cbv beta iota zeta;
    [|done].
  destruct (google_credentials u) as [credentials_dict|]; cbv beta iota zeta;
    [|done].
  rewrite ?Hu. cbv beta iota zeta. split; [|done].
  intros Hsync. exfalso. revert Hsync.
  destruct (favorite_teams u) as [|t ts]; cbv beta iota zeta; [done|].
  destruct (games_of_teams (t :: ts) (games w)) as [|g gs]; [done|].
  cbv beta iota zeta.
  destruct (calendar_id u) as [calendar|]; cbv beta iota zeta; [|done].
  destruct (sync_games_to_calendar _ _ _ _) as [p' [e'|n]] eqn:Hrec;
    cbv beta iota zeta; cbn [fst snd provider users set_provider].
  - apply sync_games_to_calendar_raises in Hrec as (-> & -> & _). done.
  - by rewrite Hu.
Qed.

(** X17. Linking through [GET /calendar/callback] does not connect the
    account for [POST /calendar/sync]: the callback stores the link under
    [calendar_status], the sync route looks for the top-level key
    [google_credentials], which the callback never writes.  A user the sync
    route turned away as not connected before the callback is turned away
    the same way after it, whether the callback answered success or not. *)
Theorem callback_does_not_connect_sync code state w current_user :
  (sync_calendar current_user w).2
  = inl (HTTPException 400 "Google Calendar not connected") →
  (sync_calendar current_user (handle_calendar_callback code state w).1).2
  = inl (HTTPException 400 "Google Calendar not connected").
Proof.
  rewrite !sync_calendar_not_connected.
  pose proof (callback_keeps_top_level code state w current_user) as Hkept.
  destruct (users w !! current_user) as [u|],
    (users (handle_calendar_callback code state w).1 !! current_user) as [u'|];
    try done.
  destruct Hkept as (_ & Hcreds & _). by rewrite Hcreds.
Qed.

(** X18. [GET /calendar/status] never answers 404: the "User not found"
    exception is raised inside the [try] whose handler replaces every
    exception, so an unknown user gets HTTP 500 "Failed to fetch calendar
    status".  For a known user the route reports what
    [UserManager.get_calendar_status] reports, without the credentials; in
    both cases the world is left alone. *)
Theorem calendar_status_route current_user w :
  let run := Main.get_calendar_status current_user w in
  run.1 = w
  ∧ match users w !! current_user with
    | None =>
        run.2 = inl (HTTPException 500 "Failed to fetch calendar status")
    | Some _ =>
        ∃ status,
          (get_calendar_status current_user w).2 = inr status
          ∧ run.2 = inr {| report_is_connected := is_connected status;
                           report_last_sync := last_sync status;
                           report_calendar_id := status_calendar_id status |}
    end.
Proof.
  cbn zeta.
  unfold Main.get_calendar_status, get_calendar_status, try_except, mbind,
    M_bind, bind, get_user, raise, mret, M_ret, ret. cbv beta iota zeta.
  destruct (users w !! current_user) as [u|]; cbv beta iota zeta; cbn [fst snd].
  - split; [done|]. by eexists.
  - done.
Qed.

End RouteOutcomes.

(** ** Sorting *)

Lemma str_lt_irrefl a : str_lt a a = false.
Proof.
  induction a as [|x a IH]; [done|]. cbn.
  rewrite N.ltb_irrefl, N.eqb_refl, IH. done.
Qed.

Lemma str_lt_asym a b : str_lt a b = true → str_lt b a = false.
Proof.
  revert b. induction a as [|x a IH]; intros [|y b]; cbn; try done.
  destruct (N.ltb_spec x y), (N.ltb_spec y x), (N.eqb_spec x y),
    (N.eqb_spec y x); cbn; try done; try lia.
  apply IH.
Qed.

Lemma str_le_trans a b c : str_le a b → str_le b c → str_le a c.
Proof.
  unfold str_le. revert b c.
  induction a as [|x a IH]; intros [|y b] [|z c]; cbn; try done.
  destruct (N.ltb_spec y x), (N.ltb_spec z y), (N.ltb_spec z x),
    (N.eqb_spec y x), (N.eqb_spec z y), (N.eqb_spec z x);
    cbn; try done; try lia.
  apply IH.
Qed.

Lemma insert_sorted_perm {A} (x : pystr * A) l : insert_sorted x l ≡ₚ x :: l.
Proof.
  induction l as [|y l IH]; [done|]. cbn.
  destruct (str_lt y.1 x.1); [|done]. rewrite IH. apply Permutation_swap.
Qed.

Lemma sort_by_key_perm {A} (l : list (pystr * A)) : sort_by_key l ≡ₚ l.
Proof.
  induction l as [|x l IH]; [done|].
  change (sort_by_key (x :: l)) with (insert_sorted x (sort_by_key l)).
  by rewrite insert_sorted_perm, IH.
Qed.

Lemma insert_sorted_sorted {A} (x : pystr * A) l :
  StronglySorted (fun a b => str_le a.1 b.1) l →
  StronglySorted (fun a b => str_le a.1 b.1) (insert_sorted x l).
Proof.
  induction 1 as [|y l Hsorted IH Hall]; cbn.
  - by repeat constructor.
  - destruct (str_lt y.1 x.1) eqn:Hlt.
    + constructor; [done|]. rewrite insert_sorted_perm.
      constructor; [|done]. by apply str_lt_asym.
    + constructor; [by constructor|]. constructor; [done|].
      eapply Forall_impl; [exact Hall|]. intros z Hz.
      by eapply str_le_trans.
Qed.

Lemma sort_by_key_sorted {A} (l : list (pystr * A)) :
  StronglySorted (fun a b => str_le a.1 b.1) (sort_by_key l).
Proof.
  induction l as [|x l IH]; [constructor|]. by apply insert_sorted_sorted.
Qed.

Lemma insert_sorted_stable {A} (P : pystr * A → Prop) `{∀ x, Decision (P x)}
    (x : pystr * A) l :
  (∀ y, P x → P y → y.1 = x.1) →
  filter P (insert_sorted x l) = filter P (x :: l).
Proof.
  intros Hkey. induction l as [|y l IH]; [done|]. cbn [insert_sorted].
  destruct (str_lt y.1 x.1) eqn:Hlt; [|done].
  rewrite filter_cons, IH, !filter_cons.
  destruct (decide (P x)) as [Hx|]; [|done].
  destruct (decide (P y)) as [Hy|]; [|done].
  rewrite (Hkey y Hx Hy), str_lt_irrefl in Hlt. done.
Qed.

Lemma sort_by_key_stable {A} (P : pystr * A → Prop) `{∀ x, Decision (P x)} l :
  (∀ x y, P x → P y → y.1 = x.1) →
  filter P (sort_by_key l) = filter P l.
Proof.
  intros Hkey. induction l as [|x l IH]; [done|].
  change (sort_by_key (x :: l)) with (insert_sorted x (sort_by_key l)).
  rewrite insert_sorted_stable by (intros; by apply Hkey).
  by rewrite !filter_cons, IH.
Qed.

Lemma mapM_result_inr {A B} (f : A → result B) l ks :
  mapM f l = inr ks ↔ Forall2 (fun x k => f x = inr k) l ks.
Proof.
  revert ks. induction l as [|x l IH]; intros ks; cbn.
  - split; [intros [= <-]; constructor|by inversion 1].
  - unfold mbind, result_bind. destruct (f x) as [e|k] eqn:Hfx; cbn.
    + split; [done|]. inversion 1 as [|? k' ? ks' Hk Hks]; subst.
      rewrite Hfx in Hk. done.
    + destruct (mapM f l) as [e|ks'] eqn:Hl; cbn.
      * split; [done|]. inversion 1 as [|? k' ? ks' Hk Hks]; subst.
        apply IH in Hks. done.
      * split.
        -- intros [= <-]. constructor; [done|]. by apply IH.
        -- inversion 1 as [|? k' ? ks'' Hk Hks]; subst.
           apply IH in Hks. rewrite Hfx in Hk.
           injection Hk as <-. injection Hks as <-. done.
Qed.

Lemma mapM_result_inl {A B} (f : A → result B) l :
  (∃ e, mapM f l = inl e) ↔ ∃ x, x ∈ l ∧ ∃ e, f x = inl e.
Proof.
  induction l as [|x l IH]; cbn.
  - split; [by intros [e ?]|]. by intros (x & Hx%elem_of_nil & _).
  - unfold mbind, result_bind. destruct (f x) as [e|k] eqn:Hfx; cbn.
    + split; [|by eauto]. intros _. exists x. split; [by left|by eauto].
    + destruct (mapM f l) as [e|ks'] eqn:Hl; cbn.
      * split; [|by eauto]. intros _.
        destruct IH as [(y & Hy & Hfy) _]; [by eauto|].
        exists y. split; [by right|done].
      * split; [by intros [e ?]|].
        intros (y & [->|Hy]%elem_of_cons & e & Hfy);
          [rewrite Hfx in Hfy; done|].
        destruct IH as [_ [e' ?]]; [by eauto|done].
Qed.

(** X19. [sorted(games, key=lambda x: x["game_date"])] as the routes use
    it: it raises exactly when some game has no [game_date]; otherwise the
    result holds the same games, each as often as the input does, in
    non-decreasing order of their dates compared as text, and games of the
    same date keep the order they had in the input. *)
Theorem sorted_by_game_date_spec games :
  ((∃ e, sorted_by_game_date games = inl e)
   ↔ ∃ g, g ∈ games ∧ game_date g = None)
  ∧ ∀ sorted_games,
      sorted_by_game_date games = inr sorted_games →
      sorted_games ≡ₚ games
      ∧ StronglySorted
          (fun a b => ∃ da db, game_date a = Some da ∧ game_date b = Some db
                               ∧ str_le da db) sorted_games
      ∧ ∀ day, games_on day sorted_games = games_on day games.
Proof.
  unfold sorted_by_game_date.
  set (f := fun g : Game => key ← getitem "game_date" (game_date g);
                           mret (key, g)).
  split.
  - unfold mbind at 1, result_bind at 1.
    destruct (mapM f games) as [e|keyed] eqn:Hkeyed; cbn.
    + split; intros _; [|by eauto].
      destruct (mapM_result_inl f games) as [(g & Hg & e' & Hfg) _]; [by eauto|].
      exists g. split; [done|]. unfold f in Hfg.
      by destruct (game_date g).
    + split; [by intros [e ?]|]. intros (g & Hg & Hnone).
      destruct (mapM_result_inl f games) as [_ [e He]]; [|congruence].
      exists g. split; [done|]. unfold f. rewrite Hnone. by eexists.
  - intros sorted_games. unfold mbind at 1, result_bind at 1.
    destruct (mapM f games) as [e|keyed] eqn:Hkeyed; cbn; [done|].
    intros [= <-]. apply mapM_result_inr in Hkeyed.
    assert (Hsnd : snd <$> keyed = games).
    { induction Hkeyed as [|g k games' keyed' Hk _ IH]; [done|].
      cbn. rewrite IH. unfold f in Hk. destruct (game_date g); [|done].
      by injection Hk as <-. }
    assert (Hdated : Forall (fun kg => game_date kg.2 = Some kg.1) keyed).
    { clear Hsnd. induction Hkeyed as [|g k games' keyed' Hk _ IH]; [done|].
      constructor; [|done]. unfold f in Hk.
      destruct (game_date g) eqn:Hd; [|done]. by injection Hk as <-. }
    assert (Hdated' : Forall (fun kg => game_date kg.2 = Some kg.1)
                        (sort_by_key keyed)) by by rewrite sort_by_key_perm.
    split_and!.
    + by rewrite sort_by_key_perm, Hsnd.
    + pose proof (sort_by_key_sorted keyed) as Hsorted.
      induction Hsorted as [|kg l Hsorted IH Hall]; [constructor|].
      apply Forall_cons in Hdated' as [Hkg Hl].
      cbn. constructor; [by apply IH|].
      apply Forall_fmap. rewrite Forall_forall in Hall, Hl.
      apply Forall_forall. intros kg' Hin. cbn.
      exists kg.1, kg'.1. split_and!; [done|by apply Hl|by apply Hall].
    + intros day. unfold games_on. rewrite <- Hsnd.
      assert (Hfilter : ∀ l : list (pystr * Game),
        Forall (fun kg => game_date kg.2 = Some kg.1) l →
        filter (fun g => game_date g = Some day) (snd <$> l)
        = snd <$> filter (fun kg => kg.1 = day) l).
      { induction 1 as [|kg l Hkg _ IH]; [done|].
        rewrite fmap_cons, !filter_cons, IH, Hkg.
        destruct (decide (Some kg.1 = Some day)) as [[= Heq]|Hne].
        - by rewrite decide_True.
        - rewrite decide_False; [done|]. congruence. }
      rewrite !Hfilter by done. f_equal.
      apply sort_by_key_stable. congruence.
Qed.

(** ** The team routes *)

Section TeamRoutes.
Context `{Externals} `{Rendering}.

Lemma update_user_teams_validates_run team_ids current_user w :
  (Main.update_user_teams team_ids current_user w).1 = w
  ∨ ∃ u, users w !! current_user = Some u
         ∧ Forall (fun tid => is_team tid = true) team_ids
         ∧ (Main.update_user_teams team_ids current_user w).1
           = set_users (<[current_user :=
                            favorite_teams_update team_ids (utcnow w) u]>
                          (users w)) w.
Proof.
  unfold Main.update_user_teams, try_except, mbind, M_bind, bind,
    update_favorite_teams, raise, mret, M_ret, ret.
  destruct (forallb is_team team_ids) eqn:Hvalid; cbv beta iota zeta;
    [|by left].
  rewrite update_one_run.
  destruct (users w !! current_user) as [u|] eqn:Hu; cbn; [|by left].
  right. exists u. split_and!; try done.
  apply Forall_forall. intros tid Htid. rewrite forallb_forall in Hvalid.
  by apply list_elem_of_In, Hvalid in Htid.
Qed.

(** X20. [PUT /users/me/teams] stores a list only when every id on it is a
    key of the team table and the user exists: then the list is stored as
    given and echoed in the answer.  In every other case the route raises
    HTTP 400 and the world is left as it was; in particular one unknown id
    rejects the whole list. *)
Theorem update_user_teams_validates team_ids current_user w :
  let run := Main.update_user_teams team_ids current_user w in
  match run.2 with
  | inr answer =>
      Forall (fun tid => is_Some (TEAM_IDS !! tid)) team_ids
      ∧ is_Some (users w !! current_user)
      ∧ answer = (lit "Teams updated successfully", team_ids)
      ∧ (get_user_teams current_user run.1).2 = inr team_ids
  | inl e =>
      (Exists (fun tid => TEAM_IDS !! tid = None) team_ids
       ∨ users w !! current_user = None)
      ∧ (∃ detail, e = HTTPException 400 detail)
      ∧ run.1 = w
  end.
Proof.
  cbn zeta.
  unfold Main.update_user_teams, try_except, mbind, M_bind, bind,
    update_favorite_teams, raise, mret, M_ret, ret.
  destruct (forallb is_team team_ids) eqn:Hvalid; cbv beta iota zeta.
  - rewrite update_one_run.
    assert (Hall : Forall (fun tid => is_Some (TEAM_IDS !! tid)) team_ids).
    { apply Forall_forall. intros tid Htid.
      rewrite forallb_forall in Hvalid.
      apply list_elem_of_In, Hvalid in Htid. unfold is_team in Htid.
      by apply bool_decide_eq_true in Htid. }
    destruct (users w !! current_user) as [u|] eqn:Hu; cbn.
    + split_and!; try done. unfold get_user_teams. cbn.
      by rewrite lookup_insert_eq.
    + split_and!; [by right|by eexists|done].
  - cbn. split_and!; [left|by eexists|done].
    apply forallb_false in Hvalid as (tid & Htid & Hbad).
    apply Exists_exists. exists tid. split; [done|]. unfold is_team in Hbad.
    apply bool_decide_eq_false in Hbad. by apply eq_None_not_Some.
Qed.

Lemma sync_calendar_users current_user w :
  users (sync_calendar current_user w).1 = users w
  ∨ ∃ u n, users w !! current_user = Some u
           ∧ users (sync_calendar current_user w).1
             = <[current_user := last_sync_update n (utcnow w) u]> (users w).
Proof.
  unfold sync_calendar, try_except, mbind, M_bind, bind, get_user,
    get_user_teams, find_games_by_team_id, lift, getitem, on_provider, zoom,
    update_last_sync, update_one, raise, mret, M_ret, ret.
  cbv beta iota zeta.
  destruct (users w !! current_user) as [u|] eqn:Hu; cbv beta iota zeta;
    [|by left].
  destruct (google_credentials u) as [credentials_dict|]; cbv beta iota zeta;
    [|by left].
  rewrite ?Hu. cbv beta iota zeta.
  destruct (favorite_teams u) as [|t ts]; cbv beta iota zeta; [by left|].
  destruct (games_of_teams (t :: ts) (games w)) as [|g gs]; [by left|].
  cbv beta iota zeta.
  destruct (calendar_id u) as [calendar|]; cbv beta iota zeta; [|by left].
  destruct (sync_games_to_calendar _ _ _ _) as [p' [e'|n]] eqn:Hrec;
    cbv beta iota zeta; cbn [fst snd provider users set_provider].
  - destruct (is_HTTPException e'); by left.
  - rewrite Hu. cbn [fst snd provider users set_provider set_users utcnow].
    right. by exists u, n.
Qed.

Lemma valid_favorites_insert w user_id u u' :
  valid_favorites w → users w !! user_id = Some u →
  favorite_teams u' = favorite_teams u →
  ∀ w', users w' = <[user_id := u']> (users w) → valid_favorites w'.
Proof.
  intros Hvalid Hu Hsame w' Hw' other v. rewrite Hw'.
  destruct (decide (other = user_id)) as [->|Hne].
  - rewrite lookup_insert_eq. intros [= <-]. rewrite Hsame. by eapply Hvalid.
  - rewrite lookup_insert_ne by done. apply Hvalid.
Qed.

(** X21. Stored favourite teams stay valid: if every favourite team in the
    user store is a key of the team table, this is still so after
    [PUT /users/me/teams] with any list of ids, after
    [POST /calendar/sync], after [GET /calendar/callback] and after
    [revoke_calendar_access]. *)
Theorem favorite_teams_stay_valid w :
  valid_favorites w →
  (∀ team_ids current_user,
     valid_favorites (Main.update_user_teams team_ids current_user w).1)
  ∧ (∀ current_user, valid_favorites (sync_calendar current_user w).1)
  ∧ (∀ code state, valid_favorites (handle_calendar_callback code state w).1)
  ∧ (∀ user_id, valid_favorites (revoke_calendar_access user_id w).1).
Proof.
  intros Hvalid. split_and!.
  - intros team_ids current_user.
    pose proof (update_user_teams_validates_run team_ids current_user w) as Hrun.
    destruct Hrun as [->|(u & Hu & Hall & ->)]; [done|].
    intros other v. cbn [users set_users].
    destruct (decide (other = current_user)) as [->|Hne].
    + rewrite lookup_insert_eq. by intros [= <-].
    + rewrite lookup_insert_ne by done. apply Hvalid.
  - intros current_user.
    destruct (sync_calendar_users current_user w) as [Hsame|(u & n & Hu & Hw')].
    + intros other v. rewrite Hsame. apply Hvalid.
    + eapply valid_favorites_insert; [exact Hvalid|exact Hu| |exact Hw']; done.
  - intros code state.
    destruct (callback_outcome code state w) as (_ & _ & [[_ Hsame]|Hlinked]).
    { intros other v. rewrite Hsame. apply Hvalid. }
    destruct Hlinked as (user_id & u & credentials_dict & calendar & p0 & _
      & _ & _ & Hu & Hcases). cbn zeta in Hcases.
    destruct Hcases as [(_ & _ & Hw' & _)
                       |(_ & _ & [(_ & _ & Hw')|(n & _ & _ & Hw')])];
      (eapply valid_favorites_insert; [exact Hvalid|exact Hu| |exact Hw']; done).
  - intros user_id. unfold revoke_calendar_access. rewrite update_one_run.
    destruct (users w !! user_id) as [u|] eqn:Hu; [|done].
    eapply valid_favorites_insert; [exact Hvalid|exact Hu| |done]; done.
Qed.

End TeamRoutes.

(** ** [GET /games/my-teams] *)

Lemma sorted_by_game_date_run games :
  match sorted_by_game_date games with
  | inl _ => Exists (fun g => game_date g = None) games
  | inr sorted_games =>
      Forall (fun g => is_Some (game_date g)) games ∧ sorted_games ≡ₚ games
  end.
Proof.
  unfold sorted_by_game_date.
  set (f := fun g : Game => key ← getitem "game_date" (game_date g);
                           mret (key, g)).
  unfold mbind at 1, result_bind at 1.
  destruct (mapM f games) as [e|keyed] eqn:Hkeyed; cbn.
  - destruct (mapM_result_inl f games) as [(g & Hg & e' & Hfg) _]; [by eauto|].
    apply Exists_exists. exists g. split; [done|]. unfold f in Hfg.
    by destruct (game_date g).
  - apply mapM_result_inr in Hkeyed.
    assert (Hsnd : snd <$> keyed = games ∧ Forall (fun g => is_Some (game_date g)) games).
    { induction Hkeyed as [|g k games' keyed' Hk _ [IH1 IH2]]; [done|].
      unfold f in Hk. destruct (game_date g) eqn:Hd; [|done].
      injection Hk as <-. cbn. rewrite IH1. split; [done|].
      constructor; [by rewrite Hd|done]. }
    destruct Hsnd as [Hsnd Hdated]. split; [done|].
    by rewrite sort_by_key_perm, Hsnd.
Qed.

Lemma team_names_run teams :
  match mapM (fun tid => name ← team_name tid; mret (tid, name)) teams with
  | inl _ => Exists (fun tid => TEAM_IDS !! tid = None) teams
  | inr favorites =>
      Forall (fun tid => is_team tid = true) teams
      ∧ favorites.*1 = teams
      ∧ Forall (fun entry => TEAM_IDS !! entry.1 = Some entry.2) favorites
  end.
Proof.
  set (f := fun tid => name ← team_name tid; mret (tid, name)).
  destruct (mapM f teams) as [e|favorites] eqn:Hrun.
  - destruct (mapM_result_inl f teams) as [(tid & Htid & e' & Hf) _]; [by eauto|].
    apply Exists_exists. exists tid. split; [done|]. unfold f, team_name in Hf.
    by destruct (TEAM_IDS !! tid).
  - apply mapM_result_inr in Hrun.
    induction Hrun as [|tid entry teams' favorites' Hentry _ (IH1 & IH2 & IH3)];
      [done|].
    unfold f, team_name in Hentry.
    destruct (TEAM_IDS !! tid) as [name|] eqn:Hname; [|done].
    injection Hentry as <-. cbn. rewrite IH2. split_and!; try done.
    + constructor; [|done]. unfold is_team. apply bool_decide_eq_true.
      by rewrite Hname.
    + by constructor.
Qed.

Lemma get_my_teams_games_run current_user w :
  Main.get_my_teams_games current_user w
  = (w,
     let teams := match users w !! current_user with
                  | Some u => favorite_teams u
                  | None => []
                  end in
     if teams is [] then
       inr (NoFavoriteTeams (lit "No favorite teams selected") [])
     else
       match mapM (fun tid => name ← team_name tid; mret (tid, name)) teams,
             sorted_by_game_date (games_of_teams teams (games w)) with
       | inr favorites, inr listed =>
           inr (FavoriteTeamsGames favorites
                  (length (games_of_teams teams (games w))) listed)
       | _, _ => inl (HTTPException 500 "Failed to fetch games")
       end).
Proof.
  unfold Main.get_my_teams_games, try_except, mbind, M_bind, bind,
    get_user_teams, find_games_by_team_id, lift, raise, mret, M_ret, ret.
  cbv beta iota zeta.
  destruct (match users w !! current_user with
            | Some u => favorite_teams u
            | None => []
            end) as [|t ts]; [done|].
  cbv beta iota zeta.
  destruct (mapM _ (t :: ts)) as [e|favorites]; [done|].
  cbv beta iota zeta.
  by destruct (sorted_by_game_date _) as [e|listed].
Qed.

(** X22. [GET /games/my-teams] reads only: the world is never changed.  It
    raises, always HTTP 500 "Failed to fetch games", exactly when the user
    has favourite teams and one of them is not a key of the team table, or
    a game of these teams has no [game_date].  When it answers with games,
    the teams are the user's favourite teams in their order, each with its
    name from the table, the count is the number of games found and the
    games are those found, reordered by [sorted]. *)
Theorem my_teams_games_answer current_user w :
  let run := Main.get_my_teams_games current_user w in
  let teams := match users w !! current_user with
               | Some u => favorite_teams u
               | None => []
               end in
  let found := games_of_teams teams (games w) in
  run.1 = w
  ∧ ((∃ e, run.2 = inl e)
     ↔ teams ≠ []
       ∧ (Exists (fun tid => TEAM_IDS !! tid = None) teams
          ∨ Exists (fun g => game_date g = None) found))
  ∧ (∀ e, run.2 = inl e → e = HTTPException 500 "Failed to fetch games")
  ∧ (∀ message listed, run.2 = inr (NoFavoriteTeams message listed) →
       teams = [] ∧ listed = [])
  ∧ ∀ listed_teams count listed,
      run.2 = inr (FavoriteTeamsGames listed_teams count listed) →
      listed_teams.*1 = teams
      ∧ Forall (fun entry => TEAM_IDS !! entry.1 = Some entry.2) listed_teams
      ∧ count = length found
      ∧ sorted_by_game_date found = inr listed
      ∧ listed ≡ₚ found.
Proof.
  cbn zeta. rewrite get_my_teams_games_run. cbn [fst snd]. cbv zeta.
  set (teams := match users w !! current_user with
                | Some u => favorite_teams u
                | None => []
                end).
  destruct teams as [|t ts] eqn:Hteams.
  { split_and!; try done.
    - split; [by intros [e ?]|by intros [? _]].
    - by intros message listed [= <- <-]. }
  pose proof (team_names_run (t :: ts)) as Hnames.
  pose proof (sorted_by_game_date_run (games_of_teams (t :: ts) (games w)))
    as Hsorted.
  destruct (mapM _ (t :: ts)) as [e|favorites].
  { split_and!; try done.
    - split; [|by eauto]. intros _. split; [done|by left].
    - by intros e' [= <-]. }
  destruct Hnames as (Hvalid & Hfst & Htable).
  destruct (sorted_by_game_date _) as [e|listed] eqn:Hrun.
  { split_and!; try done.
    - split; [|by eauto]. intros _. split; [done|by right].
    - by intros e' [= <-]. }
  destruct Hsorted as [Hdated Hperm].
  split_and!; try done.
  - split; [by intros [e ?]|]. intros [_ [Hbad|Hbad]]; exfalso.
    + apply Exists_exists in Hbad as (tid & Htid & Hnone).
      rewrite Forall_forall in Hvalid. specialize (Hvalid tid Htid).
      unfold is_team in Hvalid. apply bool_decide_eq_true in Hvalid.
      rewrite Hnone in Hvalid. by destruct Hvalid.
    + apply Exists_exists in Hbad as (g & Hg & Hnone).
      rewrite Forall_forall in Hdated. specialize (Hdated g Hg).
      rewrite Hnone in Hdated. by destruct Hdated.
  - intros listed_teams count listed' [= <- <- <-]. done.
Qed.

(** ** From the schedule API to the store *)

Section ApiFacts.
Context `{Externals} `{ApiExternals}.

Lemma transform_game_data_inv api_game g :
  _transform_game_data api_game = inr g →
  ∃ gid season_ date_ time_ week_ home_name away_name home_id away_id,
    g = {| game_id := Some gid; season := Some season_;
           game_date := Some date_; game_time := Some time_;
           week := Some week_;
           teams := Some {| away := Some {| name := Some away_name |};
                            home := Some {| name := Some home_name |} |};
           participating_teams := [home_id; away_id] |}
    ∧ (api_game_info api_game ≫= api_id) = Some gid
    ∧ ((api_game_info api_game ≫= api_game_date) ≫= api_date) = Some date_
    ∧ ((api_game_info api_game ≫= api_game_date) ≫= api_time) = Some time_
    ∧ ((api_teams api_game ≫= api_home) ≫= api_team_id) = Some home_id
    ∧ ((api_teams api_game ≫= api_away) ≫= api_team_id) = Some away_id.
Proof.
  unfold _transform_game_data. intros Hrun.
  destruct (api_teams api_game) as [teams_|]; cbn in Hrun; [|done].
  destruct (api_home teams_) as [home_|] eqn:Hhome; cbn in Hrun; [|done].
  destruct (api_team_id home_) as [home_id|] eqn:Hhid; cbn in Hrun; [|done].
  destruct (api_away teams_) as [away_|] eqn:Haway; cbn in Hrun; [|done].
  destruct (api_team_id away_) as [away_id|] eqn:Haid; cbn in Hrun; [|done].
  destruct (api_game_info api_game) as [game_|]; cbn in Hrun; [|done].
  destruct (api_game_date game_) as [date_|] eqn:Hdate; cbn in Hrun; [|done].
  destruct (api_date date_) as [game_date|] eqn:Hd; cbn in Hrun; [|done].
  destruct (api_time date_) as [game_time|] eqn:Ht; cbn in Hrun; [|done].
  destruct (to_utc game_date game_time) as [e|[]]; cbn in Hrun; [done|].
  destruct (api_id game_) as [gid|] eqn:Hid; cbn in Hrun; [|done].
  destruct (api_league api_game) as [league_|]; cbn in Hrun; [|done].
  destruct (api_season league_) as [season_|]; cbn in Hrun; [|done].
  destruct (api_week game_) as [week_|]; cbn in Hrun; [|done].
  destruct (api_team_name home_) as [home_name|]; cbn in Hrun; [|done].
  destruct (api_team_name away_) as [away_name|]; cbn in Hrun; [|done].
  injection Hrun as <-. eexists _, _, _, _, _, _, _, _, _.
  split; [done|]. cbn. rewrite Hid, Hdate, Hhome, Haway. cbn.
  by rewrite Hd, Ht, Hhid, Haid.
Qed.

(** X23. The two transforms fit together: a game that
    [_transform_game_data] returns carries every key that
    [_create_event_from_game] reads, so the event transform cannot fail on
    it for a missing key; it succeeds exactly when the date and the time
    parse in its two formats and the end of the event is in range.  The game
    names its two teams, home first, and its date, time and id are the
    API's texts as received: the UTC time that was computed is not
    stored. *)
Theorem transformed_game_has_every_key api_game g :
  _transform_game_data api_game = inr g →
  labels_present g ∧ team_names_present g
  ∧ (succeeded (_create_event_from_game g) = true
     ↔ date_parses g ∧ time_parses g ∧ end_time_in_range g)
  ∧ game_id g = api_game_info api_game ≫= api_id
  ∧ game_date g = (api_game_info api_game ≫= api_game_date) ≫= api_date
  ∧ game_time g = (api_game_info api_game ≫= api_game_date) ≫= api_time
  ∧ Some (participating_teams g)
    = (home_id ← (api_teams api_game ≫= api_home) ≫= api_team_id;
       away_id ← (api_teams api_game ≫= api_away) ≫= api_team_id;
       Some [home_id; away_id]).
Proof.
  intros (gid & season_ & date_ & time_ & week_ & home_name & away_name
          & home_id & away_id & -> & -> & -> & -> & -> & ->)%transform_game_data_inv.
  assert (Hlabels : labels_present
    {| game_id := Some gid; season := Some season_; game_date := Some date_;
       game_time := Some time_; week := Some week_;
       teams := Some {| away := Some {| name := Some away_name |};
                        home := Some {| name := Some home_name |} |};
       participating_teams := [home_id; away_id] |}).
  { split_and!; by eexists. }
  assert (Hnames : team_names_present
    {| game_id := Some gid; season := Some season_; game_date := Some date_;
       game_time := Some time_; week := Some week_;
       teams := Some {| away := Some {| name := Some away_name |};
                        home := Some {| name := Some home_name |} |};
       participating_teams := [home_id; away_id] |}).
  { by eexists _, _, _, _, _. }
  split_and!; try done.
  split.
  - intros (? & ? & ? & _)%transform_succeeded_inv. done.
  - intros (? & ? & ?). by apply transform_succeeds.
Qed.

(** X24. A fetch is all or nothing: for a reply with status 200 and a list
    of games, either every game of the list is transformed and the result
    has one game per entry, in order, or, when a single entry makes
    [_transform_game_data] raise, the whole result is the empty list.  The
    result never holds a strict part of the reply. *)
Theorem fetch_is_all_or_nothing api_games :
  let fetched := fetch_games (inr (200, Some api_games)) in
  (Exists (fun api_game => ∃ e, _transform_game_data api_game = inl e) api_games →
   fetched = [])
  ∧ (Forall (fun api_game => ∃ g, _transform_game_data api_game = inr g) api_games →
     Forall2 (fun api_game g => _transform_game_data api_game = inr g)
       api_games fetched).
Proof.
  cbn zeta. unfold fetch_games. rewrite bool_decide_true by done.
  destruct (mapM _transform_game_data api_games) as [e|games] eqn:Hall.
  - split.
    + intros _. by destruct api_games.
    + intros Hgood. exfalso.
      destruct (mapM_result_inl _transform_game_data api_games)
        as [(bad & Hbad & e' & Hraise) _]; [by eauto|].
      rewrite Forall_forall in Hgood. destruct (Hgood bad Hbad) as [g Hg].
      rewrite Hg in Hraise. done.
  - apply mapM_result_inr in Hall. split.
    + intros (bad & Hbad & e & Hraise)%Exists_exists. exfalso.
      apply list_elem_of_lookup in Hbad as [i Hi].
      destruct (Forall2_lookup_l _ _ _ i bad Hall Hi) as (g & _ & Hg).
      rewrite Hg in Hraise. done.
    + intros _. destruct api_games; [by inversion Hall|done].
Qed.

End ApiFacts.

(** ** The game store *)

Lemma store_game_run game_data w :
  store_game game_data w
  = if has_required_fields game_data then
      match data_game_id game_data with
      | Some gid => (set_games (upsert gid game_data (games w)) w, inr true)
      | None => (w, inl (KeyError "game_id"))
      end
    else
      (w, inl (ValueError
         "Game data missing required fields: ['game_id', 'season', 'participating_teams', 'game_date']")).
Proof.
  unfold store_game. destruct (has_required_fields game_data); [|done].
  unfold try_except, mbind, M_bind, bind, lift, getitem, raise.
  by destruct (data_game_id game_data).
Qed.

Lemma has_required_fields_inv game_data :
  has_required_fields game_data = true →
  ∃ gid season_ teams_ date_,
    data_game_id game_data = Some gid ∧ data_season game_data = Some season_
    ∧ data_participating_teams game_data = Some teams_
    ∧ data_game_date game_data = Some date_.
Proof.
  unfold has_required_fields. rewrite !andb_true_iff, !bool_decide_eq_true.
  intros [[[[gid ?] [season_ ?]] [teams_ ?]] [date_ ?]].
  by exists gid, season_, teams_, date_.
Qed.

Lemma upsert_ids gid game_data docs :
  data_game_id game_data = Some gid →
  omap game_id (upsert gid game_data docs)
  = if decide (gid ∈ omap game_id docs) then omap game_id docs
    else omap game_id docs ++ [gid].
Proof.
  intros Hgid. induction docs as [|doc rest IH]; cbn [upsert].
  - cbn. rewrite Hgid. by rewrite decide_False by apply not_elem_of_nil.
  - destruct (decide (game_id doc = Some gid)) as [Hdoc|Hdoc].
    + cbn. rewrite Hgid, Hdoc. cbn. by rewrite decide_True by by left.
    + cbn [omap list_omap]. rewrite IH.
      destruct (game_id doc) as [other|] eqn:Hother.
      * destruct (decide (gid ∈ omap game_id rest)) as [Hin|Hout].
        -- by rewrite decide_True by by right.
        -- rewrite decide_False; [done|].
           intros [->|?]%elem_of_cons; [by destruct Hdoc|done].
      * by destruct (decide (gid ∈ omap game_id rest)).
Qed.

Lemma upsert_length gid game_data docs :
  length (upsert gid game_data docs)
  = if decide (Some gid ∈ game_id <$> docs) then length docs
    else S (length docs).
Proof.
  induction docs as [|doc rest IH]; cbn [upsert].
  - by rewrite decide_False by apply not_elem_of_nil.
  - destruct (decide (game_id doc = Some gid)) as [Hdoc|Hdoc].
    + rewrite decide_True; [done|]. rewrite fmap_cons, Hdoc. by left.
    + cbn [length]. rewrite IH.
      destruct (decide (Some gid ∈ game_id <$> rest)) as [Hin|Hout].
      * rewrite decide_True; [done|]. rewrite fmap_cons. by right.
      * rewrite decide_False; [done|]. rewrite fmap_cons.
        intros [Heq|?]%elem_of_cons; [by destruct Hdoc|done].
Qed.

Lemma upsert_stored gid game_data docs :
  ∃ old, set_fields game_data old ∈ upsert gid game_data docs
         ∧ game_id old = Some gid.
Proof.
  induction docs as [|doc rest (old & Hin & Hold)]; cbn [upsert].
  - exists (new_document gid). split; [by left|done].
  - destruct (decide (game_id doc = Some gid)) as [Hdoc|Hdoc].
    + exists doc. split; [by left|done].
    + exists old. split; [by right|done].
Qed.

(** X25. [store_game] is an upsert on the game id.  With its four required
    keys present it does not raise and reports success; afterwards the
    collection holds a document with the id, the season, the teams and the
    date of the dictionary (and each further key it carries), which
    [find_games_by_team_id] returns for each of its teams; a document is
    added only if no document had that id, otherwise the collection keeps
    its length.  Without a required key it raises ValueError and the world
    is untouched. *)
Theorem store_game_upserts game_data w :
  let run := store_game game_data w in
  if has_required_fields game_data then
    run.2 = inr true
    ∧ length (games run.1)
      = (if decide (data_game_id game_data ∈ game_id <$> games w)
         then length (games w) else S (length (games w)))
    ∧ ∃ doc,
        doc ∈ games run.1
        ∧ game_id doc = data_game_id game_data
        ∧ season doc = data_season game_data
        ∧ game_date doc = data_game_date game_data
        ∧ Some (participating_teams doc) = data_participating_teams game_data
        ∧ (is_Some (data_game_time game_data) →
           game_time doc = data_game_time game_data)
        ∧ (is_Some (data_week game_data) → week doc = data_week game_data)
        ∧ (is_Some (data_teams game_data) → teams doc = data_teams game_data)
        ∧ ∀ team, team ∈ participating_teams doc →
                  doc ∈ games_of_teams [team] (games run.1)
  else
    (∃ msg, run.2 = inl (ValueError msg)) ∧ run.1 = w.
Proof.
  cbn zeta. rewrite store_game_run.
  destruct (has_required_fields game_data) eqn:Hfields; [|by eauto].
  destruct (has_required_fields_inv game_data Hfields)
    as (gid & season_ & teams_ & date_ & Hgid & Hseason & Hteams & Hdate).
  rewrite Hgid. cbn [fst snd games set_games]. split; [done|]. split.
  { by rewrite upsert_length. }
  destruct (upsert_stored gid game_data (games w)) as (old & Hin & Hold).
  exists (set_fields game_data old). split; [done|].
  assert (Hteams' : participating_teams (set_fields game_data old) = teams_)
    by (cbn; by rewrite Hteams).
  split_and!.
  - cbn. by rewrite Hgid.
  - cbn. by rewrite Hseason.
  - cbn. by rewrite Hdate.
  - by rewrite Hteams', Hteams.
  - intros [v Hv]. cbn. by rewrite Hv.
  - intros [v Hv]. cbn. by rewrite Hv.
  - intros [v Hv]. cbn. by rewrite Hv.
  - intros team Hteam. unfold games_of_teams.
    apply list_elem_of_filter. split; [|done].
    apply Exists_exists. exists team. split; [done|]. by left.
Qed.

Lemma omap_sublist {A B} (f : A → option B) (l1 l2 : list A) :
  l1 `sublist_of` l2 → omap f l1 `sublist_of` omap f l2.
Proof.
  induction 1 as [|x l1 l2 _ IH|x l1 l2 _ IH]; [done|..]; cbn;
    destruct (f x); try done; by constructor.
Qed.

(** X26. Game ids stay unique in the store, and so in what the sync routes
    hand to the reconciler: if no two documents of the collection share a
    game id, the same holds after [store_game], whatever it is given, and
    the games [find_games_by_team_id] then selects for any teams have
    pairwise distinct ids. *)
Theorem stored_game_ids_stay_distinct game_data team_ids w :
  NoDup (omap game_id (games w)) →
  NoDup (omap game_id (games (store_game game_data w).1))
  ∧ NoDup (omap game_id
             (games_of_teams team_ids (games (store_game game_data w).1))).
Proof.
  intros Hdistinct.
  assert (Hstored : NoDup (omap game_id (games (store_game game_data w).1))).
  { rewrite store_game_run.
    destruct (has_required_fields game_data) eqn:Hfields; [|done].
    destruct (has_required_fields_inv game_data Hfields)
      as (gid & _ & _ & _ & Hgid & _).
    rewrite Hgid. cbn [fst games set_games]. rewrite upsert_ids by done.
    destruct (decide (gid ∈ omap game_id (games w))) as [Hin|Hout]; [done|].
    apply NoDup_app. split_and!; [done| |apply NoDup_singleton].
    by intros x Hx ->%list_elem_of_singleton. }
  split; [done|].
  eapply sublist_NoDup; [exact Hstored|].
  apply omap_sublist. unfold games_of_teams. apply sublist_filter.
Qed.

Lemma store_each_run fetched w :
  Forall (fun g => has_required_fields (game_data_of g) = true) fetched →
  (store_each fetched w).2 = inr tt
  ∧ provider (store_each fetched w).1 = provider w
  ∧ users (store_each fetched w).1 = users w
  ∧ (NoDup (omap game_id (games w)) →
     NoDup (omap game_id (games (store_each fetched w).1)))
  ∧ (∀ gid, gid ∈ omap game_id (games (store_each fetched w).1)
            ↔ gid ∈ omap game_id (games w) ∨ gid ∈ omap game_id fetched)
  ∧ (length (games (store_each fetched w).1)
     ≤ length (games w) + length fetched)%nat.
Proof.
  intros Hfields. revert w.
  induction Hfields as [|g rest Hg _ IH]; intros w.
  { cbn. split_and!; try done; try lia. intros gid. split; [by left|].
    by intros [?|?%elem_of_nil]. }
  cbn [store_each]. unfold mbind, M_bind, bind. rewrite store_game_run, Hg.
  destruct (has_required_fields_inv _ Hg) as (gid & _ & _ & _ & Hgid & _).
  rewrite Hgid.
  set (w1 := set_games (upsert gid (game_data_of g) (games w)) w).
  destruct (IH w1) as (Hrun & Hp & Hu & Hdistinct & Hids & Hlen).
  assert (Hids1 : omap game_id (games w1)
    = if decide (gid ∈ omap game_id (games w)) then omap game_id (games w)
      else omap game_id (games w) ++ [gid])
    by by apply upsert_ids.
  split_and!; try done.
  - intros Hnodup. apply Hdistinct. rewrite Hids1.
    destruct (decide (gid ∈ omap game_id (games w))) as [Hin|Hout]; [done|].
    apply NoDup_app. split_and!; [done| |apply NoDup_singleton].
    by intros x Hx ->%list_elem_of_singleton.
  - intros gid'. rewrite Hids, Hids1. cbn in Hgid. cbn [omap list_omap].
    rewrite Hgid.
    destruct (decide (gid ∈ omap game_id (games w))) as [Hin|Hout].
    + rewrite elem_of_cons. split; [tauto|].
      intros [?|[->|?]]; tauto.
    + rewrite elem_of_app, list_elem_of_singleton, elem_of_cons. tauto.
  - etrans; [exact Hlen|]. unfold w1. cbn [games set_games length].
    rewrite upsert_length.
    destruct (decide (Some gid ∈ game_id <$> games w)); lia.
Qed.

Section SeasonSync.
Context `{ApiExternals}.

(** X27. Fetching and storing fit together: whatever the reply of the
    schedule API, [sync_season_games] on what the fetch returns does not
    raise (every fetched game has the keys [store_game] requires) and
    returns the number of games fetched, which may exceed the number of
    documents added.  Afterwards the ids in the collection are those it had
    and those fetched, and they are pairwise distinct provided they were
    before; the user store and the calendars are not touched. *)
Theorem sync_season_games_stores_every_game reply w :
  let fetched := fetch_games reply in
  let run := sync_season_games fetched w in
  run.2 = inr (length fetched)
  ∧ provider run.1 = provider w ∧ users run.1 = users w
  ∧ (∀ gid, gid ∈ omap game_id (games run.1)
            ↔ gid ∈ omap game_id (games w) ∨ gid ∈ omap game_id fetched)
  ∧ (length (games run.1) ≤ length (games w) + length fetched)%nat
  ∧ (NoDup (omap game_id (games w)) → NoDup (omap game_id (games run.1))).
Proof.
  cbn zeta.
  assert (Hfields : Forall (fun g => has_required_fields (game_data_of g) = true)
                      (fetch_games reply)).
  { unfold fetch_games. destruct reply as [e|[status response]]; [done|].
    destruct (bool_decide (status = 200)); [|done].
    destruct response as [[|api_game api_games]|]; [done| |done].
    destruct (mapM _transform_game_data (api_game :: api_games))
      as [e|fetched] eqn:Hall; [done|].
    apply mapM_result_inr in Hall. apply Forall_forall. intros g Hg.
    apply list_elem_of_lookup in Hg as [i Hi].
    destruct (Forall2_lookup_r _ _ _ i g Hall Hi) as (api & _ & Hapi).
    apply transform_game_data_inv in Hapi
      as (? & ? & ? & ? & ? & ? & ? & ? & ? & -> & _). done. }
  pose proof (store_each_run (fetch_games reply) w Hfields)
    as (Hrun & Hp & Hu & Hdistinct & Hids & Hlen).
  unfold sync_season_games, mbind, M_bind, bind, mret, ret.
  destruct (store_each (fetch_games reply) w) as [w' [e|[]]]; [done|].
  cbn [fst snd] in *. split_and!; done.
Qed.

End SeasonSync.

Section CallbackFailures.
Context `{Externals}.

(** X28. Why [GET /calendar/callback] answers [setup=failed]: exactly when
    the state does not decode to a user id, or the token exchange raises,
    or [create_calendar] raises, or the user is unknown to the store.  The
    initial sync cannot make it fail: the credentials of the token exchange
    always hold the keys the service needs, and no provider failure makes
    [sync_games_to_calendar] raise. *)
Theorem callback_fails_exactly code state w :
  (handle_calendar_callback code state w).2 = inr SETUP_FAILED
  ↔ decode_state (utcnow w) state = None
    ∨ (∃ e, handle_oauth_callback code = inl e)
    ∨ ∃ user_id credentials_dict,
        decode_state (utcnow w) state = Some user_id
        ∧ handle_oauth_callback code = inr credentials_dict
        ∧ ((∃ e, (create_calendar credentials_dict (lit "NFL Game Schedule")
                    (provider w)).2 = inl e)
           ∨ users w !! user_id = None).
Proof.
  unfold handle_calendar_callback, try_except, mbind, M_bind, bind,
    get_user_teams, find_games_by_team_id, lift, on_provider, zoom,
    update_calendar_status, update_last_sync, update_one, mret, M_ret, ret.
  cbv beta iota zeta.
  destruct (decode_state (utcnow w) state) as [user_id|] eqn:Hstate;
    cbv beta iota zeta; [|split; [by left|done]].
  destruct (handle_oauth_callback code) as [e|credentials_dict] eqn:Hoauth;
    cbv beta iota zeta; [split; [right; left; by eexists|done]|].
  assert (Hright : ∀ P : Prop,
    ((∃ e, (create_calendar credentials_dict (lit "NFL Game Schedule")
              (provider w)).2 = inl e) ∨ users w !! user_id = None → P) →
    (P → (∃ e, (create_calendar credentials_dict (lit "NFL Game Schedule")
              (provider w)).2 = inl e) ∨ users w !! user_id = None) →
    P ↔ (Some user_id = None ∨ (∃ e : exn, inr credentials_dict = inl e)
         ∨ ∃ user_id0 credentials_dict0,
             Some user_id = Some user_id0
             ∧ @inr exn _ credentials_dict = inr credentials_dict0
             ∧ ((∃ e, (create_calendar credentials_dict0 (lit "NFL Game Schedule")
                         (provider w)).2 = inl e)
                ∨ users w !! user_id0 = None))).
  { intros P Hto Hfrom. split.
    - intros HP. right. right. exists user_id, credentials_dict. eauto.
    - intros [?|[[e ?]|(u0 & c0 & [= <-] & [= <-] & Hcase)]]; try done.
      by apply Hto. }
  apply Hright; clear Hright.
  - destruct (create_calendar _ _ (provider w)) as [p0 [e|calendar]] eqn:Hcreate;
      cbv beta iota zeta; cbn [fst snd users provider set_provider utcnow games];
      [done|].
    intros [[e ?]|Hnone]; [done|]. by rewrite Hnone.
  - destruct (create_calendar _ _ (provider w)) as [p0 [e|calendar]] eqn:Hcreate;
      cbv beta iota zeta; cbn [fst snd users provider set_provider utcnow games];
      [by eauto|].
    destruct (users w !! user_id) as [u|] eqn:Hu;
      cbv beta iota zeta;
      cbn [fst snd users provider set_provider set_users utcnow games];
      [|by eauto].
    rewrite lookup_insert_eq.
    set (linked := calendar_status_update calendar credentials_dict (utcnow w) u).
    assert (Hfav : favorite_teams linked = favorite_teams u) by done.
    rewrite Hfav.
    destruct (favorite_teams u) as [|t ts] eqn:Hts; [done|].
    cbv beta iota zeta.
    cbn [fst snd users provider set_provider set_users utcnow games].
    destruct (sync_games_to_calendar _ _ _ _) as [p' [e|n]] eqn:Hrec;
      cbn [fst snd users provider set_provider set_users utcnow games].
    + apply sync_games_to_calendar_raises in Hrec as (_ & _ & Hbuild).
      rewrite (handle_oauth_callback_builds code credentials_dict Hoauth)
        in Hbuild. done.
    + rewrite lookup_insert_eq. done.
Qed.

End CallbackFailures.

(** ** Concrete runs of the further properties *)

Import Fixtures.

(** A calendar that holds one hand-made event, synced with one game. *)
Lemma sync_games_to_calendar_keeps_events_witness :
  let p := provider_with [untagged] [] in
  let run := sync_games_to_calendar credentials_dict cal [g1] p in
  calendar_list run.1 = calendar_list p
  ∧ ∃ events', calendars run.1 !! cal = Some events'
               ∧ [lit "u"] `prefix_of` (id <$> events').
Proof.
  destruct (sync_games_to_calendar_keeps_events credentials_dict cal [g1]
              (provider_with [untagged] [])) as (Hlist & _ & _ & Hevents).
  split; [exact Hlist|].
  destruct (Hevents cal [untagged]) as (events' & Hcal & Hprefix & _);
    [reflexivity|].
  exists events'. split; [exact Hcal|exact Hprefix].
Defined.

Lemma unlisted_or_untagged_event_is_kept_witness :
  ∃ events',
    calendars (sync_games_to_calendar credentials_dict cal [g1]
                 (provider_with [untagged] [])).1 !! cal = Some events'
    ∧ events' !! 0%nat = Some untagged.
Proof.
  apply (unlisted_or_untagged_event_is_kept credentials_dict cal [g1]
           (provider_with [untagged] []) [untagged] 0 untagged).
  - reflexivity.
  - apply NoDup_singleton.
  - reflexivity.
  - intros items _ _. vm_compute. reflexivity.
Defined.

Lemma sync_games_to_calendar_counts_witness :
  let run := sync_games_to_calendar credentials_dict cal [g1; g_weekless; g2]
               (provider_with [] []) in
  let accepted :=
    filter (fun g => succeeded (_create_event_from_game g) = true)
      [g1; g_weekless; g2] in
  length (calls run.1) = (length (calls (provider_with [] [])) + 1 + length accepted)%nat
  ∧ ∃ n, run.2 = inr n ∧ (n ≤ length accepted)%nat
         ∧ (length accepted ≤ length [g1; g_weekless; g2])%nat.
Proof.
  apply (sync_games_to_calendar_counts credentials_dict cal [g1; g_weekless; g2]
           (provider_with [] []) _ sample_service).
Defined.

Lemma unclean_id_is_always_created_witness :
  ∃ ok,
    calls (sync_games_to_calendar credentials_dict cal [g_colon]
             (provider_with duplicated [])).1
    = calls (provider_with duplicated [])
      ++ [list_call cal (provider_with duplicated []);
          (InsertEvent cal (event_of g_colon), ok)].
Proof.
  apply (unclean_id_is_always_created credentials_dict cal g_colon
           (event_of g_colon) (lit "2031:W1") (provider_with duplicated []) _
           sample_service).
  - vm_compute. reflexivity.
  - reflexivity.
  - intros [Hcolon _]. apply Hcolon. apply (bool_decide_unpack _).
    vm_compute. exact I.
Defined.

(** Credentials without any key: the run raises and nothing is requested. *)
Lemma sync_games_to_calendar_raises_exactly_witness :
  let p := provider_with [] [] in
  let run := sync_games_to_calendar ∅ cal [g1] p in
  run.2 = inl (ValueError "Invalid credentials dictionary structure")
  ∧ run.1 = p.
Proof.
  destruct (sync_games_to_calendar_raises_exactly ∅ cal [g1]
              (provider_with [] [])) as [[_ Hraises] Hhow].
  destruct Hraises as [e He].
  { exists "token"%string. split; [|reflexivity].
    apply (bool_decide_unpack _). vm_compute. exact I. }
  destruct (Hhow e He) as [Heq Hp]. cbn zeta. rewrite He, Heq. split; [reflexivity|exact Hp].
Defined.

Lemma served_run_brings_every_game_up_to_date_witness :
  let games := [g1; g_colon; g2] in
  let run := sync_games_to_calendar credentials_dict cal games
               (provider_with duplicated []) in
  run.2 = inr (length
    (filter (fun g => succeeded (_create_event_from_game g) = true) games))
  ∧ ∃ events',
      calendars run.1 !! cal = Some events'
      ∧ ∀ g event, g ∈ games → _create_event_from_game g = inr event →
                   ∃ r, r ∈ events' ∧ body r = event.
Proof.
  apply (served_run_brings_every_game_up_to_date credentials_dict cal
           [g1; g_colon; g2] (provider_with duplicated []) _ duplicated
           sample_service).
  - reflexivity.
  - reflexivity.
  - apply (bool_decide_unpack _). vm_compute. exact I.
  - apply (bool_decide_unpack _). vm_compute. exact I.
Defined.

Lemma create_calendar_returns_existing_witness :
  let p := provider_with [] [] in
  let run := create_calendar credentials_dict (lit "NFL Game Schedule") p in
  run.2 = inr cal
  ∧ calls run.1 = calls p ++ [(ListCalendars, true)]
  ∧ calendars run.1 = calendars p
  ∧ calendar_list run.1 = calendar_list p.
Proof.
  apply (create_calendar_returns_existing credentials_dict
           (lit "NFL Game Schedule") (provider_with [] []) _
           (cal, lit "NFL Game Schedule") sample_service).
  - reflexivity.
  - vm_compute. reflexivity.
Defined.

(** The insert fails after the listing was served. *)
Lemma create_calendar_failure_adds_nothing_witness :
  let p := bare_provider [false; true] in
  calendars (create_calendar credentials_dict (lit "NFL Game Schedule") p).1
  = calendars p
  ∧ calendar_list (create_calendar credentials_dict (lit "NFL Game Schedule") p).1
    = calendar_list p.
Proof.
  apply (create_calendar_failure_adds_nothing credentials_dict
           (lit "NFL Game Schedule") (bare_provider [false; true]) UNAVAILABLE).
  vm_compute. reflexivity.
Defined.

Lemma create_calendar_twice_witness :
  let first := create_calendar credentials_dict (lit "NFL Game Schedule")
                 (bare_provider []) in
  let second := create_calendar credentials_dict (lit "NFL Game Schedule")
                  first.1 in
  ∃ calendar_id,
    first.2 = inr calendar_id
    ∧ second.2 = inr calendar_id
    ∧ calendars second.1 = calendars first.1
    ∧ calendar_list second.1 = calendar_list first.1
    ∧ calls second.1 = calls first.1 ++ [(ListCalendars, true)].
Proof.
  apply (create_calendar_twice credentials_dict (lit "NFL Game Schedule")
           (bare_provider []) _ sample_service).
  reflexivity.
Defined.

Lemma create_calendar_creates_fresh_witness :
  let p := provider_with [] [] in
  let run := create_calendar credentials_dict (lit "Other") p in
  ∃ calendar_id,
    run.2 = inr calendar_id
    ∧ (calendar_id ∉ fst <$> calendar_list p)
    ∧ calendars p !! calendar_id = None
    ∧ calendars run.1 = <[calendar_id := []]> (calendars p)
    ∧ calendar_list run.1 = calendar_list p ++ [(calendar_id, lit "Other")]
    ∧ calls run.1
      = calls p ++ [(ListCalendars, true); (InsertCalendar (lit "Other"), true)].
Proof.
  apply (create_calendar_creates_fresh credentials_dict (lit "Other")
           (provider_with [] []) _ sample_service).
  - reflexivity.
  - vm_compute. reflexivity.
Defined.

Lemma favorite_teams_round_trip_witness :
  let w := world_of user [] in
  let update := update_favorite_teams user_id [lit "3"; lit "7"] w in
  update.2 = inr true
  ∧ (get_user_teams user_id update.1).2 = inr [lit "3"; lit "7"]
  ∧ users update.1 !! lit "someone else" = None.
Proof.
  pose proof (favorite_teams_round_trip user_id [lit "3"; lit "7"]
                (world_of user [])) as Hround.
  cbn zeta in Hround.
  change (users (world_of user []) !! user_id) with (Some user) in Hround.
  destruct Hround as (Hok & Hteams & _ & Hothers).
  split; [exact Hok|]. split; [exact Hteams|].
  rewrite (Hothers (lit "someone else")); [reflexivity|].
  vm_compute. discriminate.
Defined.

Lemma link_then_sync_status_witness :
  let w := world_of new_user [] in
  (get_calendar_status user_id
     (update_last_sync user_id 2
        (update_calendar_status user_id cal credentials_dict w).1).1).2
  = inr {| is_connected := true; status_calendar_id := Some cal;
           credentials := Some credentials_dict;
           last_sync := Some {| timestamp := utcnow w; games_synced := 2 |} |}
  ∧ (get_calendar_status user_id
       (update_calendar_status user_id cal credentials_dict
          (update_last_sync user_id 2 w).1).1).2
    = inr {| is_connected := true; status_calendar_id := Some cal;
             credentials := Some credentials_dict; last_sync := None |}.
Proof.
  apply (link_then_sync_status user_id cal credentials_dict 2
           (world_of new_user []) new_user).
  reflexivity.
Defined.

Lemma revoke_clears_only_the_status_witness :
  let w := world_of user [] in
  let revoke := revoke_calendar_access user_id w in
  revoke.2 = inr true
  ∧ (get_calendar_status user_id revoke.1).2 = inr NOT_CONNECTED
  ∧ (get_user_teams user_id revoke.1).2 = inr (favorite_teams user)
  ∧ (sync_calendar user_id revoke.1).2 = (sync_calendar user_id w).2
  ∧ provider (sync_calendar user_id revoke.1).1
    = provider (sync_calendar user_id w).1.
Proof.
  apply (revoke_clears_only_the_status user_id user_id (world_of user []) user).
  reflexivity.
Defined.

Lemma sync_calendar_failure_changes_nothing_witness :
  let w := world_of new_user [] in
  (sync_calendar user_id w).2
  = inl (HTTPException 400 "Google Calendar not connected")
  ∧ (sync_calendar user_id w).1 = w.
Proof.
  split; [vm_compute; reflexivity|].
  apply (sync_calendar_failure_changes_nothing user_id (world_of new_user [])
           (HTTPException 400 "Google Calendar not connected")).
  vm_compute. reflexivity.
Defined.

(** A callback whose token exchange is fine and whose state names nobody
    the store knows. *)
Lemma callback_always_redirects_witness :
  let run := handle_calendar_callback (lit "code") (lit "nobody")
               (world_of user []) in
  run.2 = inr SETUP_FAILED ∨ run.2 = inr SETUP_SUCCESS.
Proof.
  exact (proj1 (callback_always_redirects (lit "code") (lit "nobody")
                  (world_of user []))).
Defined.

Lemma callback_success_means_linked_witness :
  let run := handle_calendar_callback (lit "code") user_id
               (world_of new_user []) in
  ∃ user_id' u' credentials_dict calendar,
    decode_state (utcnow (world_of new_user [])) user_id = Some user_id'
    ∧ handle_oauth_callback (lit "code") = inr credentials_dict
    ∧ users run.1 !! user_id' = Some u'
    ∧ is_connected (calendar_status u') = true
    ∧ status_calendar_id (calendar_status u') = Some calendar
    ∧ credentials (calendar_status u') = Some credentials_dict
    ∧ (calendar, lit "NFL Game Schedule") ∈ calendar_list (provider run.1)
    ∧ (is_Some (last_sync (calendar_status u')) ↔ favorite_teams u' ≠ []).
Proof.
  apply (callback_success_means_linked (lit "code") user_id
           (world_of new_user [])).
  vm_compute. reflexivity.
Defined.

(** The new user links a calendar through the callback, successfully, and
    is still turned away by the sync route. *)
Lemma callback_does_not_connect_sync_witness :
  let w := world_of new_user [] in
  (handle_calendar_callback (lit "code") user_id w).2 = inr SETUP_SUCCESS
  ∧ (sync_calendar user_id (handle_calendar_callback (lit "code") user_id w).1).2
    = inl (HTTPException 400 "Google Calendar not connected").
Proof.
  split; [vm_compute; reflexivity|].
  apply (callback_does_not_connect_sync (lit "code") user_id
           (world_of new_user []) user_id).
  vm_compute. reflexivity.
Defined.

Lemma sorted_by_game_date_spec_witness :
  ∃ sorted_games,
    sorted_by_game_date [g3; g1_rescheduled; g2; g1] = inr sorted_games
    ∧ sorted_games ≡ₚ [g3; g1_rescheduled; g2; g1]
    ∧ games_on (lit "2031-09-08") sorted_games = [g1].
Proof.
  eexists. split; [vm_compute; reflexivity|].
  destruct (sorted_by_game_date_spec [g3; g1_rescheduled; g2; g1])
    as [_ Hsorted].
  destruct (Hsorted [g1; g1_rescheduled; g2; g3]) as (Hperm & _ & Hstable).
  { vm_compute. reflexivity. }
  split; [exact Hperm|]. rewrite Hstable. vm_compute. reflexivity.
Defined.

Lemma favorite_teams_stay_valid_witness :
  let w := world_of user [] in
  valid_favorites
    (Main.update_user_teams [lit "3"; lit "33"] user_id w).1
  ∧ valid_favorites (handle_calendar_callback (lit "code") user_id w).1.
Proof.
  destruct (favorite_teams_stay_valid (world_of user [])) as (Hput & _ & Hcb & _).
  - intros other u Hu. unfold world_of in Hu. cbn [users] in Hu.
    apply lookup_singleton_Some in Hu as [<- <-].
    apply Forall_singleton. vm_compute. reflexivity.
  - split; [apply Hput|apply Hcb].
Defined.

(** The two games of team 18, listed by date. *)
Lemma my_teams_games_answer_witness :
  let w := world_with new_user (bare_provider []) in
  (Main.get_my_teams_games user_id w).2
  = inr (FavoriteTeamsGames [(lit "18", lit "Washington Commanders")] 2 [g1; g2])
  ∧ (Main.get_my_teams_games user_id w).1 = w
  ∧ sorted_by_game_date (games_of_teams [lit "18"] (games w)) = inr [g1; g2]
  ∧ [g1; g2] ≡ₚ games_of_teams [lit "18"] (games w).
Proof.
  split; [vm_compute; reflexivity|].
  destruct (my_teams_games_answer user_id (world_with new_user (bare_provider [])))
    as (Hworld & _ & _ & _ & Hanswer).
  split; [exact Hworld|].
  destruct (Hanswer [(lit "18", lit "Washington Commanders")] 2%nat [g1; g2])
    as (_ & _ & _ & Hsorted & Hperm); [vm_compute; reflexivity|].
  split; [exact Hsorted|exact Hperm].
Defined.

Lemma transformed_game_has_every_key_witness :
  ∃ g,
    _transform_game_data (api_game "7") = inr g
    ∧ labels_present g ∧ team_names_present g
    ∧ game_id g = Some (lit "7")
    ∧ participating_teams g = [lit "17"; lit "1"].
Proof.
  eexists. split; [vm_compute; reflexivity|].
  destruct (transformed_game_has_every_key (api_game "7")
              {| game_id := Some (lit "7"); season := Some (lit "2031");
                 game_date := Some (lit "2031-09-08");
                 game_time := Some (lit "20:00"); week := Some (lit "Week 1");
                 teams := Some {| away := Some (team "Las Vegas Raiders");
                                  home := Some (team "Kansas City Chiefs") |};
                 participating_teams := [lit "17"; lit "1"] |})
    as (Hlabels & Hnames & _ & Hid & _).
  { vm_compute. reflexivity. }
  split; [exact Hlabels|]. split; [exact Hnames|]. split; reflexivity.
Defined.

(** One game without its week among three: nothing is fetched. *)
Lemma fetch_is_all_or_nothing_witness :
  fetch_games
    (inr (200, Some [api_game "7"; api_game_without_week; api_game "9"]))
  = [].
Proof.
  apply (fetch_is_all_or_nothing
           [api_game "7"; api_game_without_week; api_game "9"]).
  apply Exists_cons_tl, Exists_cons_hd. eexists. vm_compute. reflexivity.
Defined.

(** Storing the rescheduled [G1] over the stored [G1]. *)
Lemma store_game_upserts_witness :
  let w := world_of user [] in
  let run := store_game (game_data_of g1_rescheduled) w in
  run.2 = inr true
  ∧ length (games run.1) = length (games w)
  ∧ ∃ doc, doc ∈ games run.1
           ∧ game_id doc = Some (lit "G1")
           ∧ game_date doc = Some (lit "2031-09-09")
           ∧ doc ∈ games_of_teams [lit "18"] (games run.1).
Proof.
  pose proof (store_game_upserts (game_data_of g1_rescheduled) (world_of user []))
    as Hstore.
  cbn zeta in Hstore.
  change (has_required_fields (game_data_of g1_rescheduled)) with true in Hstore.
  destruct Hstore as (Hok & Hlen & doc & Hdoc & Hid & _ & Hdate & Hteams & _ & _
                      & _ & Hfound).
  split; [exact Hok|]. split; [rewrite Hlen; vm_compute; reflexivity|].
  exists doc. split; [exact Hdoc|]. split; [exact Hid|]. split; [exact Hdate|].
  apply Hfound. cbn in Hteams. injection Hteams as ->.
  apply (bool_decide_unpack _). vm_compute. exact I.
Defined.

Lemma stored_game_ids_stay_distinct_witness :
  let w := world_of user [] in
  NoDup (omap game_id (games (store_game (game_data_of g1_rescheduled) w).1))
  ∧ NoDup (omap game_id
             (games_of_teams [lit "18"]
                (games (store_game (game_data_of g1_rescheduled) w).1))).
Proof.
  apply (stored_game_ids_stay_distinct (game_data_of g1_rescheduled)
           [lit "18"] (world_of user [])).
  apply (bool_decide_unpack _). vm_compute. exact I.
Defined.

Lemma sync_season_games_stores_every_game_witness :
  let w := world_of user [] in
  let fetched := fetch_games (inr (200, Some [api_game "7"; api_game "7"])) in
  (sync_season_games fetched w).2 = inr 2%nat
  ∧ NoDup (omap game_id (games (sync_season_games fetched w).1)).
Proof.
  destruct (sync_season_games_stores_every_game
              (inr (200, Some [api_game "7"; api_game "7"])) (world_of user []))
    as (Hcount & _ & _ & _ & _ & Hdistinct).
  split; [exact Hcount|]. apply Hdistinct.
  apply (bool_decide_unpack _). vm_compute. exact I.
Defined.

Lemma callback_fails_exactly_witness :
  (handle_calendar_callback (lit "code") (lit "nobody") (world_of user [])).2
  = inr SETUP_FAILED.
Proof.
  apply (callback_fails_exactly (lit "code") (lit "nobody") (world_of user [])).
  right. right. eexists (lit "nobody"), _.
  split; [reflexivity|]. split; [vm_compute; reflexivity|].
  right. vm_compute. reflexivity.
Defined.
